(** * Unicycler [misc.py]: terminal text layout

    A shallow embedding of the ANSI-aware layout code of
    [unicycler/misc.py]: the style encoder ([colour] and its named
    wrappers), the visible-width measurer ([remove_formatting],
    [len_without_format]), the help formatter ([MyHelpFormatter]) and the
    table printer ([print_table]), together with the parts of Python's
    [textwrap] and [argparse] they call, which follow [textwrap.py] and
    [argparse.py] of CPython 3.11.  The other pure functions of the
    module follow: sequences and their line breaks, FASTA records,
    contig headers, file names, the compression of a file, numbers in
    columns, and ranges.

    A Python [str] is a [list ascii]: one [ascii] per code point, for the
    code points below 256.  Character classes ([str.isspace], the regular
    expression classes [\w], [\d], [\s], [.]) and [str.lower] are those of
    CPython 3.11 on these code points.  Python integers are [Z]; indices
    and lengths that are never negative are [nat]. *)

From stdpp Require Import gmap strings.
From Stdlib Require Import Ascii String ZArith Lia List Bool DecimalString.
Import ListNotations.

Local Open Scope Z_scope.

(** ** Characters and strings *)

Definition pystr (x : string) : list ascii := list_ascii_of_string x.

Definition code (c : ascii) : nat := nat_of_ascii c.

Definition between (lo hi : nat) (c : ascii) : bool :=
  (Nat.leb lo (code c) && Nat.leb (code c) hi)%bool.

Definition ESC : ascii := "027"%char.
Definition NL : ascii := "010"%char.
Definition TAB : ascii := "009"%char.
Definition CR : ascii := "013"%char.
Definition SP : ascii := " "%char.

(** [len(s)] as a Python integer. *)
Definition len (x : list ascii) : Z := Z.of_nat (length x).

(** [c.isspace()]. *)
Definition isspace (c : ascii) : bool :=
  (between 9 13 c || between 28 32 c || Nat.eqb (code c) 133
   || Nat.eqb (code c) 160)%bool.

(** The class [\s] under [re.ASCII]; it is also [textwrap._whitespace]. *)
Definition is_ws (c : ascii) : bool := (between 9 13 c || Nat.eqb (code c) 32)%bool.

(** The class [\d]. *)
Definition is_digit (c : ascii) : bool := between 48 57 c.

(** The class [\w] of a [str] pattern. *)
Definition is_word (c : ascii) : bool :=
  (between 48 57 c || between 65 90 c || Nat.eqb (code c) 95
   || between 97 122 c || Nat.eqb (code c) 170 || between 178 179 c
   || Nat.eqb (code c) 181 || between 185 186 c || between 188 190 c
   || between 192 214 c || between 216 246 c || between 248 255 c)%bool.

(** [c.lower()]. *)
Definition lower_char (c : ascii) : ascii :=
  if (between 65 90 c || between 192 214 c || between 216 222 c)%bool
  then ascii_of_nat (code c + 32) else c.

(** [s.lower()]. *)
Definition lower (x : list ascii) : list ascii := map lower_char x.

(** [s.startswith(p)]. *)
Fixpoint startswith (p x : list ascii) : bool :=
  match p, x with
  | [], _ => true
  | _ :: _, [] => false
  | a :: p', b :: x' => (Ascii.eqb a b && startswith p' x')%bool
  end.

(** [sub in s]. *)
Fixpoint contains (sub x : list ascii) : bool :=
  (startswith sub x
   || match x with [] => false | _ :: x' => contains sub x' end)%bool.

(** [s.replace(old, new)]: the occurrences of [old] are found from left
    to right and do not overlap; [skip] counts the characters of a found
    occurrence that are still to be passed over.  With an empty [old],
    [new] is put before every character and at the end. *)
Fixpoint replace_from (old new : list ascii) (skip : nat) (x : list ascii)
  : list ascii :=
  match x with
  | [] => match old with [] => new | _ :: _ => [] end
  | c :: x' =>
      match skip with
      | S k => replace_from old new k x'
      | O =>
          if startswith old x then
            match old with
            | [] => new ++ c :: replace_from old new 0 x'
            | _ :: old' => new ++ replace_from old new (length old') x'
            end
          else c :: replace_from old new 0 x'
      end
  end.

Definition replace (old new x : list ascii) : list ascii :=
  replace_from old new 0 x.

(** [sep.join(parts)]. *)
Fixpoint join (sep : list ascii) (parts : list (list ascii)) : list ascii :=
  match parts with
  | [] => []
  | [p] => p
  | p :: rest => p ++ sep ++ join sep rest
  end.

(** [c * n] for a one-character string [c]; nothing when [n <= 0]. *)
Definition times (c : ascii) (n : Z) : list ascii := repeat c (Z.to_nat n).

(** [s.ljust(w)], [s.rjust(w)], [s.center(w)]. *)
Definition ljust (x : list ascii) (w : Z) : list ascii := x ++ times SP (w - len x).
Definition rjust (x : list ascii) (w : Z) : list ascii := times SP (w - len x) ++ x.
Definition center (x : list ascii) (w : Z) : list ascii :=
  let marg := w - len x in
  if marg <=? 0 then x
  else
    let left := marg / 2 + (if Z.odd marg && Z.odd w then 1 else 0) in
    times SP left ++ x ++ times SP (marg - left).

(** ** Style encoder *)

Definition END_FORMATTING : list ascii := ESC :: pystr "[0m".
Definition BOLD : list ascii := ESC :: pystr "[1m".
Definition UNDERLINE : list ascii := ESC :: pystr "[4m".
Definition RED : list ascii := ESC :: pystr "[31m".
Definition GREEN : list ascii := ESC :: pystr "[32m".
Definition MAGENTA : list ascii := ESC :: pystr "[35m".
Definition YELLOW : list ascii := ESC :: pystr "[93m".
Definition DIM : list ascii := ESC :: pystr "[2m".

(** The escape codes [colour] composes for a style name: the part of
    [colour] before [if not coloured_text]. *)
Definition colour_code (text_colour : list ascii) : list ascii :=
  let bold_text := contains (pystr "bold") text_colour in
  let text_colour := replace (pystr "bold") [] text_colour in
  let underline_text := contains (pystr "underline") text_colour in
  let text_colour := replace (pystr "underline") [] text_colour in
  let text_colour := replace (pystr "_") [] text_colour in
  let text_colour := replace (pystr " ") [] text_colour in
  let text_colour := lower text_colour in
  let coloured_text :=
    if contains (pystr "red") text_colour then RED
    else if contains (pystr "green") text_colour then GREEN
    else if contains (pystr "yellow") text_colour then YELLOW
    else if contains (pystr "dim") text_colour then DIM
    else [] in
  let coloured_text := if bold_text then coloured_text ++ BOLD else coloured_text in
  let coloured_text :=
    if underline_text then coloured_text ++ UNDERLINE else coloured_text in
  coloured_text.

Definition colour (text text_colour : list ascii) : list ascii :=
  match colour_code text_colour with
  | [] => text
  | coloured_text => coloured_text ++ text ++ END_FORMATTING
  end.

Definition green (text : list ascii) := GREEN ++ text ++ END_FORMATTING.
Definition bold_green (text : list ascii) := GREEN ++ BOLD ++ text ++ END_FORMATTING.
Definition red (text : list ascii) := RED ++ text ++ END_FORMATTING.
Definition magenta (text : list ascii) := MAGENTA ++ text ++ END_FORMATTING.
Definition bold_red (text : list ascii) := RED ++ BOLD ++ text ++ END_FORMATTING.
Definition bold (text : list ascii) := BOLD ++ text ++ END_FORMATTING.
Definition bold_underline (text : list ascii) :=
  BOLD ++ UNDERLINE ++ text ++ END_FORMATTING.
Definition underline (text : list ascii) := UNDERLINE ++ text ++ END_FORMATTING.
Definition dim (text : list ascii) := DIM ++ text ++ END_FORMATTING.
Definition dim_underline (text : list ascii) :=
  DIM ++ UNDERLINE ++ text ++ END_FORMATTING.
Definition bold_yellow (text : list ascii) :=
  YELLOW ++ BOLD ++ text ++ END_FORMATTING.
Definition bold_yellow_underline (text : list ascii) :=
  YELLOW ++ BOLD ++ UNDERLINE ++ text ++ END_FORMATTING.
Definition bold_red_underline (text : list ascii) :=
  RED ++ BOLD ++ UNDERLINE ++ text ++ END_FORMATTING.

(** ** Visible-width measurer *)

(** Does [ESC .*? m] match with its [ESC] just before [x]?  The lazy
    [.*?] passes over any character but a newline. *)
Fixpoint closes (x : list ascii) : bool :=
  match x with
  | [] => false
  | c :: x' =>
      if Ascii.eqb c "m" then true
      else if Ascii.eqb c NL then false
      else closes x'
  end.

(** [re.sub('\033.*?m', '', text)]: [remove_formatting] scans the text,
    [skip_to_m] passes over a matched sequence up to its first [m]. *)
Fixpoint remove_formatting (text : list ascii) : list ascii :=
  match text with
  | [] => []
  | c :: x' =>
      if (Ascii.eqb c ESC && closes x')%bool then skip_to_m x'
      else c :: remove_formatting x'
  end
with skip_to_m (x : list ascii) : list ascii :=
  match x with
  | [] => []
  | c :: x' => if Ascii.eqb c "m" then remove_formatting x' else skip_to_m x'
  end.

(** [len_without_format(text)], for [text] a [str]; the [TypeError]
    fallback is for values that are not strings. *)
Definition len_without_format (text : list ascii) : Z := len (remove_formatting text).

(** ** Exceptions *)

(** The Python exceptions the modelled code can raise.  [LoopBound] is
    not a Python exception: it marks a loop of the model that used up its
    iteration bound (lemma [wrap_loop_terminates] shows that the bound of
    [_wrap_chunks] is never used up). *)
Inductive exn : Set := IndexError | ValueError | LoopBound.

Inductive result (A : Type) : Type :=
| Ok (a : A)
| Raise (e : exn).
Arguments Ok {A} a.
Arguments Raise {A} e.

#[global] Instance result_ret : MRet result := fun A a => Ok a.
#[global] Instance result_bind : MBind result := fun A B f m =>
  match m with Ok a => f a | Raise e => Raise e end.

(** ** Python's [textwrap.TextWrapper]

    The attributes are those [print_table] and [argparse] leave at their
    defaults: [initial_indent = ''], [expand_tabs], [tabsize = 8],
    [replace_whitespace], [drop_whitespace], [break_long_words],
    [break_on_hyphens], no [fix_sentence_endings], no [max_lines]. *)

Module textwrap.

Definition initial_indent : list ascii := [].

(** [text.expandtabs(tabsize)], from column [col]. *)
Fixpoint expandtabs_from (tabsize col : nat) (x : list ascii) : list ascii :=
  match x with
  | [] => []
  | c :: x' =>
      if Ascii.eqb c TAB then
        match tabsize with
        | O => expandtabs_from tabsize col x'
        | S _ =>
            let incr := (tabsize - col mod tabsize)%nat in
            repeat SP incr ++ expandtabs_from tabsize (col + incr) x'
        end
      else
        c :: expandtabs_from tabsize
               (if (Ascii.eqb c NL || Ascii.eqb c CR)%bool then 0 else S col)%nat x'
  end.

Definition expandtabs (x : list ascii) : list ascii := expandtabs_from 8 0 x.

(** [text.translate(unicode_whitespace_trans)]. *)
Definition translate_whitespace (x : list ascii) : list ascii :=
  map (fun c => if is_ws c then SP else c) x.

Definition _munge_whitespace (text : list ascii) : list ascii :=
  translate_whitespace (expandtabs text).

(** *** [wordsep_re]

    The classes of the pattern: [letter] is a [\w] that is no [\d],
    [word_punct] a [\w] or one of the seven marks of [is_word_punct]
    (the second is the double quote). *)
Definition is_letter (c : ascii) : bool := (is_word c && negb (is_digit c))%bool.

Definition is_word_punct (c : ascii) : bool :=
  (is_word c || Ascii.eqb c "!" || Ascii.eqb c "034" || Ascii.eqb c "'"
   || Ascii.eqb c "&" || Ascii.eqb c "." || Ascii.eqb c "," || Ascii.eqb c "?")%bool.

Definition is_hyphen (c : ascii) : bool := Ascii.eqb c "-".

(** The length of the run of hyphens [x] starts with. *)
Fixpoint hyphens (x : list ascii) : nat :=
  match x with
  | c :: x' => if is_hyphen c then S (hyphens x') else O
  | [] => O
  end.

(** [-{2,}] followed by [\w], at the start of [x]: the greedy run takes
    every hyphen, and giving one back leaves a hyphen, which is not [\w]. *)
Definition emdash (x : list ascii) : bool :=
  (Nat.leb 2 (hyphens x)
   && match skipn (hyphens x) x with c :: _ => is_word c | [] => false end)%bool.

(** [(?<=word_punct)]: [back] holds the characters before the position,
    the nearest first. *)
Definition after_word_punct (back : list ascii) : bool :=
  match back with b :: _ => is_word_punct b | [] => false end.

(** The first branch of the word alternative, at a hyphen [x] starts
    with: [-] with two letters, or letter-hyphen-letter, before it and
    [letter -? letter] after it. *)
Definition hyphen_break (back x : list ascii) : bool :=
  match x with
  | h :: x' =>
      (is_hyphen h
       && (match back with
           | b1 :: b2 :: _ => is_letter b1 && is_letter b2
           | _ => false
           end
           || match back with
              | b1 :: b2 :: b3 :: _ => is_letter b1 && is_hyphen b2 && is_letter b3
              | _ => false
              end)
       && match x' with
          | a :: x'' =>
              is_letter a
              && match x'' with
                 | b :: x3 =>
                     (is_hyphen b && match x3 with c :: _ => is_letter c | [] => false end)
                     || is_letter b
                 | [] => false
                 end
          | [] => false
          end)%bool
  | [] => false
  end.

(** The word alternative [nws+? (...)] after its first character: the
    number of further characters the match takes.  The lazy [+?] tries
    the three endings before each further character. *)
Fixpoint word_rest (back x : list ascii) : nat :=
  match x with
  | [] => O
  | d :: x' =>
      if hyphen_break back x then 1%nat
      else if is_ws d then O
      else if (after_word_punct back && emdash x)%bool then O
      else S (word_rest (d :: back) x')
  end.

(** The length of the run of [_whitespace] characters at the start. *)
Fixpoint ws_run (x : list ascii) : nat :=
  match x with
  | c :: x' => if is_ws c then S (ws_run x') else O
  | [] => O
  end.

(** The length of the match of [wordsep_re] at the start of [x], after
    the characters [back]. *)
Definition match_len (back x : list ascii) : nat :=
  match x with
  | [] => O
  | c :: x' =>
      if is_ws c then ws_run x
      else if (after_word_punct back && emdash x)%bool then hyphens x
      else S (word_rest (c :: back) x')
  end.

Definition flush (cur : list ascii) : list (list ascii) :=
  match cur with [] => [] | _ :: _ => [rev cur] end.

(** [wordsep_re.split(text)] without its empty strings: the pattern
    matches at every position, so the chunks are the successive matches.
    [take] characters of the current match remain, [cur] is what it has
    so far (reversed) and [back] the text before the position. *)
Fixpoint split_from (take : nat) (cur back x : list ascii) : list (list ascii) :=
  match x with
  | [] => flush cur
  | c :: x' =>
      match take with
      | S k => split_from k (c :: cur) (c :: back) x'
      | O => flush cur ++ split_from (pred (match_len back x)) [c] (c :: back) x'
      end
  end.

Definition _split (text : list ascii) : list (list ascii) := split_from 0 [] [] text.

Definition _split_chunks (text : list ascii) : list (list ascii) :=
  _split (_munge_whitespace text).

(** [x.strip() == '']. *)
Definition blank (x : list ascii) : bool := forallb isspace x.

(** [x[:e]] and [x[e:]]. *)
Definition slice_to (x : list ascii) (e : Z) : list ascii :=
  if e <? 0 then firstn (Z.to_nat (len x + e)) x else firstn (Z.to_nat e) x.
Definition slice_from (x : list ascii) (e : Z) : list ascii :=
  if e <? 0 then skipn (Z.to_nat (len x + e)) x else skipn (Z.to_nat e) x.

(** The highest index of [c] in [x], counted from [i]; [-1] when absent. *)
Fixpoint rfind_from (c : ascii) (i : Z) (x : list ascii) : Z :=
  match x with
  | [] => -1
  | d :: x' =>
      let r := rfind_from c (i + 1) x' in
      if 0 <=? r then r else if Ascii.eqb d c then i else -1
  end.

(** [x.rfind(c, 0, e)]. *)
Definition rfind (c : ascii) (x : list ascii) (e : Z) : Z := rfind_from c 0 (slice_to x e).

(** [_handle_long_word]: the new [cur_line] and [reversed_chunks] (here
    in reading order, the next chunk first). *)
Definition _handle_long_word (chunks cur_line : list (list ascii)) (cur_len width : Z)
  : list (list ascii) * list (list ascii) :=
  let space_left := if width <? 1 then 1 else width - cur_len in
  match chunks with
  | [] => (cur_line, chunks)
  | chunk :: rest =>
      let hyphen := rfind "-" chunk space_left in
      let end_ :=
        if ((space_left <? len chunk) && (0 <? hyphen)
            && existsb (fun c => negb (is_hyphen c)) (slice_to chunk hyphen))%bool
        then hyphen + 1 else space_left in
      (cur_line ++ [slice_to chunk end_], slice_from chunk end_ :: rest)
  end.

(** The inner [while chunks] of [_wrap_chunks]: chunks are moved to the
    current line while they fit. *)
Fixpoint fill (width : Z) (cur_line : list (list ascii)) (cur_len : Z)
  (chunks : list (list ascii)) : list (list ascii) * Z * list (list ascii) :=
  match chunks with
  | [] => (cur_line, cur_len, [])
  | ch :: rest =>
      if cur_len + len ch <=? width
      then fill width (cur_line ++ [ch]) (cur_len + len ch) rest
      else (cur_line, cur_len, chunks)
  end.

(** [del cur_line[-1]] when the last chunk of the line is blank. *)
Definition drop_last_blank (cur_line : list (list ascii)) : list (list ascii) :=
  match rev cur_line with
  | ch :: before => if blank ch then rev before else cur_line
  | [] => cur_line
  end.

(** One pass of the outer [while chunks] of [_wrap_chunks], for a
    non-empty [chunks]: the lines and the chunks after it. *)
Definition wrap_step (self_width : Z) (subsequent_indent : list ascii)
  (lines chunks : list (list ascii)) : list (list ascii) * list (list ascii) :=
  let indent := match lines with [] => initial_indent | _ :: _ => subsequent_indent end in
  let width := self_width - len indent in
  let chunks :=
    match chunks, lines with
    | ch :: rest, _ :: _ => if blank ch then rest else chunks
    | _, _ => chunks
    end in
  let '(cur_line, cur_len, chunks) := fill width [] 0 chunks in
  let '(cur_line, chunks) :=
    match chunks with
    | ch :: _ =>
        if width <? len ch then _handle_long_word chunks cur_line cur_len width
        else (cur_line, chunks)
    | [] => (cur_line, chunks)
    end in
  let cur_line := drop_last_blank cur_line in
  let lines :=
    match cur_line with
    | [] => lines
    | _ :: _ => lines ++ [indent ++ concat cur_line]
    end in
  (lines, chunks).

Fixpoint wrap_loop (bound : nat) (self_width : Z) (subsequent_indent : list ascii)
  (lines chunks : list (list ascii)) : option (list (list ascii)) :=
  match chunks with
  | [] => Some lines
  | _ :: _ =>
      match bound with
      | O => None
      | S b =>
          let '(lines', chunks') := wrap_step self_width subsequent_indent lines chunks in
          wrap_loop b self_width subsequent_indent lines' chunks'
      end
  end.

(** Every pass takes a character or a chunk away, so the loop makes at
    most this many passes. *)
Definition passes (chunks : list (list ascii)) : nat :=
  (length (concat chunks) + length chunks)%nat.

Definition _wrap_chunks (self_width : Z) (subsequent_indent : list ascii)
  (chunks : list (list ascii)) : result (list (list ascii)) :=
  if self_width <=? 0 then Raise ValueError
  else
    match wrap_loop (passes chunks) self_width subsequent_indent [] chunks with
    | Some lines => Ok lines
    | None => Raise LoopBound
    end.

(** [TextWrapper(subsequent_indent=..., width=...).wrap(text)]. *)
Definition wrap (subsequent_indent : list ascii) (width : Z) (text : list ascii)
  : result (list (list ascii)) :=
  _wrap_chunks width subsequent_indent (_split_chunks text).

(** [textwrap.wrap(text, width)]. *)
Definition textwrap_wrap (text : list ascii) (width : Z) : result (list (list ascii)) :=
  wrap [] width text.

End textwrap.
Import textwrap.

(** ** [argparse]: what [MyHelpFormatter] uses of it *)

Module argparse.

(** The values of an option's [default]: [None], a string, an integer,
    a truth value, or any other object, given by what [str] makes of it. *)
Inductive pyvalue : Set :=
| PyNone
| PyStr (x : list ascii)
| PyInt (z : Z)
| PyBool (b : bool)
| PyObject (str_ : list ascii).

Definition py_str (v : pyvalue) : list ascii :=
  match v with
  | PyNone => pystr "None"
  | PyStr x => x
  | PyInt z => pystr (NilZero.string_of_int (Z.to_int z))
  | PyBool true => pystr "True"
  | PyBool false => pystr "False"
  | PyObject str_ => str_
  end.

Definition SUPPRESS : list ascii := pystr "==SUPPRESS==".

(** [v != argparse.SUPPRESS] and [v is not None]. *)
Definition not_suppress (v : pyvalue) : bool :=
  match v with
  | PyStr x => if list_eq_dec ascii_dec x SUPPRESS then false else true
  | _ => true
  end.

Definition is_not_None (v : pyvalue) : bool :=
  match v with PyNone => false | _ => true end.

(** An [argparse.Action], as far as [_get_help_string] reads it.  The
    method is reached from [_format_action] under [if action.help], so
    [help] is a string. *)
Module Action.
Record t : Set := { help : list ascii; default : pyvalue }.
End Action.

(** [self._whitespace_matcher.sub(' ', text)]: every run of [\s] becomes
    one space; [in_run] tells that the run has begun. *)
Fixpoint whitespace_sub (in_run : bool) (x : list ascii) : list ascii :=
  match x with
  | [] => []
  | c :: x' =>
      if is_ws c then
        if in_run then whitespace_sub true x' else SP :: whitespace_sub true x'
      else c :: whitespace_sub false x'
  end.

(** [x.lstrip()], [x.strip()]. *)
Fixpoint lstrip (x : list ascii) : list ascii :=
  match x with
  | c :: x' => if isspace c then lstrip x' else x
  | [] => []
  end.

Definition strip (x : list ascii) : list ascii := rev (lstrip (rev (lstrip x))).

(** [argparse.HelpFormatter._split_lines]. *)
Definition HelpFormatter_split_lines (text : list ascii) (width : Z)
  : result (list (list ascii)) :=
  textwrap_wrap (strip (whitespace_sub false text)) width.

End argparse.
Import argparse.

(** ** [MyHelpFormatter] *)

Definition _get_help_string (action : Action.t) : list ascii :=
  let help_text := Action.help action in
  if (not_suppress (Action.default action)
      && negb (contains (pystr "default") (lower help_text))
      && is_not_None (Action.default action))%bool
  then help_text ++ pystr " (default: " ++ py_str (Action.default action) ++ pystr ")"
  else help_text.

(** Where [str.splitlines] breaks a line. *)
Definition is_linebreak (c : ascii) : bool :=
  (between 10 13 c || between 28 30 c || Nat.eqb (code c) 133)%bool.

(** [x.splitlines()]; [cur] is the line so far, reversed.  A carriage
    return followed by a newline is one break. *)
Fixpoint splitlines_from (cur x : list ascii) : list (list ascii) :=
  match x with
  | [] => flush cur
  | c :: x' =>
      if is_linebreak c then
        rev cur ::
          match x' with
          | d :: x'' =>
              if (Ascii.eqb c CR && Ascii.eqb d NL)%bool then splitlines_from [] x''
              else splitlines_from [] x'
          | [] => splitlines_from [] x'
          end
      else splitlines_from (c :: cur) x'
  end.

Definition splitlines (x : list ascii) : list (list ascii) := splitlines_from [] x.

(** [x.split()]. *)
Fixpoint split_whitespace_from (cur x : list ascii) : list (list ascii) :=
  match x with
  | [] => flush cur
  | c :: x' =>
      if isspace c then flush cur ++ split_whitespace_from [] x'
      else split_whitespace_from (c :: cur) x'
  end.

Definition split_whitespace (x : list ascii) : list (list ascii) :=
  split_whitespace_from [] x.

(** [x.split(sep)] for a non-empty [sep]. *)
Fixpoint split_sep_from (sep : list ascii) (skip : nat) (cur x : list ascii)
  : list (list ascii) :=
  match x with
  | [] => [rev cur]
  | c :: x' =>
      match skip with
      | S k => split_sep_from sep k cur x'
      | O =>
          if startswith sep x
          then rev cur :: split_sep_from sep (pred (length sep)) [] x'
          else split_sep_from sep 0 (c :: cur) x'
      end
  end.

Definition split_sep (sep x : list ascii) : list (list ascii) :=
  split_sep_from sep 0 [] x.

(** [x.find(c)] for a character [c], counted from [i]. *)
Fixpoint find_from (c : ascii) (i : Z) (x : list ascii) : Z :=
  match x with
  | [] => -1
  | d :: x' => if Ascii.eqb d c then i else find_from c (i + 1) x'
  end.

Definition find (c : ascii) (x : list ascii) : Z := find_from c 0 x.

(** The loop [for part in line_parts[1:]] of [_split_lines] with the
    [append] after it: the lines it adds to [wrapped_text_lines]. *)
Fixpoint pack (width wrap_column : Z) (join_ current_line : list ascii)
  (parts : list (list ascii)) : list (list ascii) :=
  match parts with
  | [] => [current_line]
  | part :: rest =>
      if len current_line + len join_ + 1 + len part <=? width
      then pack width wrap_column join_ (current_line ++ join_ ++ [SP] ++ part) rest
      else (current_line ++ join_)
             :: pack width wrap_column join_ (times SP wrap_column ++ part) rest
  end.

(** The body of [for line in text_lines]; [b] tells that the text starts
    with [B|]. *)
Definition split_line (b : bool) (width : Z) (line : list ascii)
  : result (list (list ascii)) :=
  if len line <=? width then Ok [line]
  else if b then
    match split_whitespace line with
    | [] => Raise IndexError
    | first :: parts =>
        Ok (pack width (2 + find "=" line) [] (pystr "  " ++ first) parts)
    end
  else
    match split_sep (pystr ", ") line with
    | [] => Raise IndexError
    | first :: parts => Ok (pack width 2 (pystr ",") first parts)
    end.

(** [MyHelpFormatter._split_lines]. *)
Definition _split_lines (text : list ascii) (width : Z) : result (list (list ascii)) :=
  if (startswith (pystr "B|") text || startswith (pystr "R|") text)%bool then
    wrapped ← mapM (split_line (startswith (pystr "B|") text) width)
                    (splitlines (skipn 2 text));
    Ok (concat wrapped)
  else HelpFormatter_split_lines text width.

(** ** [print_table] *)

Record options : Type := {
  alignments : list ascii;
  max_col_width : Z;
  col_separation : Z;
  indent : Z;
  row_colour : gmap nat (list ascii);
  sub_colour : list (list ascii * list ascii);
  row_extra_text : gmap nat (list ascii);
  leading_newline : bool;
  subsequent_indent : list ascii;
  return_str : bool;
  header_format : list ascii;
  hide_header : bool;
  fixed_col_widths : option (list Z);
  left_align_header : bool;
  bottom_align_header : bool;
  verbosity : Z
}.

(** The default arguments; [None] for a dictionary is the empty one. *)
Definition defaults : options := {|
  alignments := [];
  max_col_width := 30;
  col_separation := 3;
  indent := 2;
  row_colour := ∅;
  sub_colour := [];
  row_extra_text := ∅;
  leading_newline := false;
  subsequent_indent := [];
  return_str := false;
  header_format := pystr "underline";
  hide_header := false;
  fixed_col_widths := None;
  left_align_header := true;
  bottom_align_header := true;
  verbosity := 1
|}.

Definition enumerate {A : Type} (l : list A) : list (nat * A) :=
  combine (seq 0 (length l)) l.

(** The first lines of [print_table]: every row cut or padded to
    [column_count] cells. *)
Definition normalise (column_count : nat) (table : list (list (list ascii)))
  : list (list (list ascii)) :=
  map (fun x => let x := firstn column_count x in
                x ++ repeat [] (column_count - length x)%nat) table.

Definition resolve_alignments (alignments : list ascii) (column_count : nat)
  : list ascii :=
  firstn column_count
    (alignments ++ repeat "L"%char (column_count - length alignments)%nat).

(** One pass of [for row in table] over the column widths.  The rows are
    normalised, so [col_widths[i]] is in range. *)
Definition widen (max_col_width : Z) (col_widths : list Z) (row : list (list ascii))
  : list Z :=
  map (fun '(i, x) =>
         Z.min (Z.max (nth i col_widths 0) (len_without_format x)) max_col_width)
      (enumerate row).

Definition auto_col_widths (max_col_width : Z) (column_count : nat)
  (table : list (list (list ascii))) : list Z :=
  fold_left (widen max_col_width) table (repeat 0 column_count).

Definition resolve_col_widths (o : options) (column_count : nat)
  (table : list (list (list ascii))) : list Z :=
  match fixed_col_widths o with
  | Some widths => widths
  | None => auto_col_widths (max_col_width o) column_count table
  end.

(** The cells of a row wrapped, each at its width. *)
Definition wrap_row (o : options) (row : list (list ascii))
  : result (list (list (list ascii))) :=
  match fixed_col_widths o with
  | Some widths =>
      mapM (fun '(col, fixed_width) => wrap (subsequent_indent o) fixed_width col)
           (combine row widths)
  | None => mapM (wrap (subsequent_indent o) (max_col_width o)) row
  end.

(** [max(len(x) for x in wrapped_row)]. *)
Definition max_len (wrapped_row : list (list (list ascii))) : result nat :=
  match wrapped_row with
  | [] => Raise ValueError
  | _ :: _ => Ok (list_max (map (@length (list ascii)) wrapped_row))
  end.

Definition bottom_align (row_rows : nat) (wrapped_row : list (list (list ascii)))
  : list (list (list ascii)) :=
  map (fun x => repeat [] (row_rows - length x)%nat ++ x) wrapped_row.

Definition align (o : options) (i : nat) (value : list ascii) (col_width : Z)
  (alignment : ascii) : list ascii :=
  if (Ascii.eqb alignment "L" || (Nat.eqb i 0 && left_align_header o))%bool
  then ljust value col_width
  else if Ascii.eqb alignment "C" then center value col_width
  else rjust value col_width.

(** [zip(row_line, col_widths, alignments)] aligned. *)
Fixpoint aligned_row (o : options) (i : nat) (row_line : list (list ascii))
  (col_widths : list Z) (alignments : list ascii) : list (list ascii) :=
  match row_line, col_widths, alignments with
  | value :: row_line', col_width :: col_widths', alignment :: alignments' =>
      align o i value col_width alignment
        :: aligned_row o i row_line' col_widths' alignments'
  | _, _, _ => []
  end.

(** [re.sub('\033\[4m', '', row_str)]. *)
Fixpoint sub_underline (x : list ascii) : list ascii :=
  match x with
  | [] => []
  | c1 :: x' =>
      match x' with
      | c2 :: c3 :: c4 :: rest =>
          if (Ascii.eqb c1 ESC && Ascii.eqb c2 "[" && Ascii.eqb c3 "4"
              && Ascii.eqb c4 "m")%bool
          then sub_underline rest
          else c1 :: sub_underline x'
      | _ => c1 :: sub_underline x'
      end
  end.

(** The columns of physical line [j] joined: [row_str] as first assigned. *)
Definition joined (o : options) (col_widths : list Z) (alignments : list ascii)
  (i : nat) (wrapped_row : list (list (list ascii))) (j : nat) : list ascii :=
  let row_line := map (fun x => nth j x []) wrapped_row in
  join (times SP (col_separation o)) (aligned_row o i row_line col_widths alignments).

(** A string in a condition: true when not empty. *)
Definition truthy (x : list ascii) : bool :=
  match x with [] => false | _ :: _ => true end.

(** The header, row and substring styling of [row_str], in the order of
    the loop body. *)
Definition style (o : options) (i : nat) (row_str : list ascii) : list ascii :=
  let row_str :=
    if (Nat.eqb i 0 && truthy (header_format o))%bool
    then colour row_str (header_format o) else row_str in
  let row_str :=
    match row_colour o !! i with
    | Some c => colour row_str c
    | None => row_str
    end in
  fold_left (fun row_str '(text, colour_name) =>
               replace text (colour text colour_name) row_str)
            (sub_colour o) row_str.

(** [if i in row_extra_text: row_str += row_extra_text[i]]. *)
Definition add_extra (o : options) (i : nat) (row_str : list ascii) : list ascii :=
  match row_extra_text o !! i with
  | Some extra => row_str ++ extra
  | None => row_str
  end.

(** [if j < row_rows - 1 and UNDERLINE in row_str: ...]. *)
Definition strip_underline (row_rows j : nat) (row_str : list ascii) : list ascii :=
  if ((Z.of_nat j <? Z.of_nat row_rows - 1) && contains UNDERLINE row_str)%bool
  then sub_underline row_str else row_str.

(** The rest of the body of [for j in range(row_rows)], up to the line
    that is logged or added to [full_table_str]. *)
Definition finish (o : options) (i row_rows j : nat) (row_str : list ascii)
  : list ascii :=
  times SP (indent o) ++ strip_underline row_rows j (style o i (add_extra o i row_str)).

(** The physical lines of row [i]. *)
Definition row_lines (o : options) (col_widths : list Z) (alignments : list ascii)
  (i : nat) (row : list (list ascii)) : result (list (list ascii)) :=
  wrapped_row ← wrap_row o row;
  row_rows ← max_len wrapped_row;
  let wrapped_row :=
    if (Nat.eqb i 0 && bottom_align_header o)%bool
    then bottom_align row_rows wrapped_row else wrapped_row in
  Ok (map (fun j => finish o i row_rows j (joined o col_widths alignments i wrapped_row j))
          (seq 0 row_rows)).

(** [column_count = len(table[0])]. *)
Definition column_count (table : list (list (list ascii))) : result nat :=
  match table with
  | [] => Raise IndexError
  | header :: _ => Ok (length header)
  end.

(** The lines of the table in order, the hidden header left out. *)
Definition table_lines (table : list (list (list ascii))) (o : options)
  : result (list (list ascii)) :=
  column_count ← column_count table;
  let table := normalise column_count table in
  let alignments := resolve_alignments (alignments o) column_count in
  let col_widths := resolve_col_widths o column_count table in
  rows ← mapM (fun '(i, row) =>
                 if (hide_header o && Nat.eqb i 0)%bool then Ok []
                 else row_lines o col_widths alignments i row)
              (enumerate table);
  Ok (concat rows).

(** [print_table]: the lines sent to the log at [verbosity], in order,
    and the value returned.  What a raising call has logged before is
    not kept.

    The module [log] is not among the sources: [log.log] is taken as
    the sink that the lines go to one by one, each with [verbosity], and
    that decides whether to display them. *)
Definition print_table (table : list (list (list ascii))) (o : options)
  : result (list (list ascii) * option (list ascii)) :=
  lines ← table_lines table o;
  let blank_line := if leading_newline o then [[]] else [] in
  if return_str o
  then Ok (blank_line, Some (concat (map (fun l => l ++ [NL]) lines)))
  else Ok (blank_line ++ lines, None).

(** ** Other functions of [misc.py] *)

(** *** Sequences *)

Definition REV_COMP_DICT : gmap ascii ascii :=
  list_to_map
    [("A", "T"); ("T", "A"); ("G", "C"); ("C", "G");
     ("a", "t"); ("t", "a"); ("g", "c"); ("c", "g");
     ("R", "Y"); ("Y", "R"); ("S", "S"); ("W", "W");
     ("K", "M"); ("M", "K"); ("B", "V"); ("V", "B");
     ("D", "H"); ("H", "D"); ("N", "N");
     ("r", "y"); ("y", "r"); ("s", "s"); ("w", "w");
     ("k", "m"); ("m", "k"); ("b", "v"); ("v", "b");
     ("d", "h"); ("h", "d"); ("n", "n");
     (".", "."); ("-", "-"); ("?", "?")]%char.

(** [complement_base]: a [KeyError] gives [N]. *)
Definition complement_base (base : ascii) : ascii :=
  match REV_COMP_DICT !! base with
  | Some c => c
  | None => "N"%char
  end.

Definition reverse_complement (seq : list ascii) : list ascii :=
  rev (map complement_base seq).

(** [x[a:b]]: an index below zero counts from the end, and both are
    cut to the length. *)
Definition slice_index (x : list ascii) (i : Z) : nat :=
  Z.to_nat (if i <? 0 then Z.max 0 (len x + i) else Z.min i (len x)).

Definition slice (x : list ascii) (a b : Z) : list ascii :=
  firstn (slice_index x b - slice_index x a) (skipn (slice_index x a) x).

(** The loop of [add_line_breaks_to_sequence]; [bound] passes at most. *)
Fixpoint add_line_breaks_loop (bound : nat) (sequence : list ascii) (line_length pos : Z)
  (seq_with_breaks : list ascii) : result (list ascii) :=
  if pos <? len sequence then
    match bound with
    | O => Raise LoopBound
    | S b =>
        add_line_breaks_loop b sequence line_length (pos + line_length)
          (seq_with_breaks ++ slice sequence pos (pos + line_length) ++ [NL])
    end
  else Ok seq_with_breaks.

(** [add_line_breaks_to_sequence]; [BASES_PER_FASTA_LINE] is the constant
    of the module [settings], which is not among the sources.  With a
    line length of one or more the loop makes no more passes than the
    sequence has characters; with a line length below one, which only
    the constant can give, the loop of the source does not end, and the
    bound is used up. *)
Definition add_line_breaks_to_sequence (BASES_PER_FASTA_LINE : Z)
  (sequence : list ascii) (line_length : Z) : result (list ascii) :=
  match sequence with
  | [] => Ok [NL]
  | _ :: _ =>
      let line_length :=
        if line_length <=? 0 then BASES_PER_FASTA_LINE else line_length in
      add_line_breaks_loop (length sequence) sequence line_length 0 []
  end.

(** [line_iterator], as the list of what it yields.  Each pass of its
    loop finds the next newline and yields the text since the one
    before; [cur] is that text so far, reversed.  What follows the last
    newline is not yielded. *)
Fixpoint line_iterator_from (cur x : list ascii) : list (list ascii) :=
  match x with
  | [] => []
  | c :: x' =>
      if Ascii.eqb c NL then rev cur :: line_iterator_from [] x'
      else line_iterator_from (c :: cur) x'
  end.

Definition line_iterator (string_with_line_breaks : list ascii) : list (list ascii) :=
  line_iterator_from [] string_with_line_breaks.

(** *** FASTA records *)

(** [name.split()[0]]. *)
Definition first_word (name : list ascii) : result (list ascii) :=
  match split_whitespace name with
  | [] => Raise IndexError
  | word :: _ => Ok word
  end.

Record fasta_state : Type := {
  fasta_name : list ascii;
  fasta_sequence : list ascii;
  fasta_seqs : list (list ascii * list ascii * list ascii)
}.

(** [fasta_seqs.append(...)] under [if name]: the record is the first
    word of the name, the name and the sequence. *)
Definition fasta_flush (reset : bool) (st : fasta_state) : result fasta_state :=
  if truthy (fasta_name st) then
    word ← first_word (fasta_name st);
    Ok {| fasta_name := fasta_name st;
          fasta_sequence := if reset then [] else fasta_sequence st;
          fasta_seqs := fasta_seqs st ++ [(word, fasta_name st, fasta_sequence st)] |}
  else Ok st.

(** The body of [for line in fasta_file]. *)
Definition fasta_line (st : fasta_state) (line : list ascii) : result fasta_state :=
  match strip line with
  | [] => Ok st
  | c :: rest =>
      if Ascii.eqb c ">" then
        st ← fasta_flush true st;
        Ok {| fasta_name := rest;
              fasta_sequence := fasta_sequence st;
              fasta_seqs := fasta_seqs st |}
      else
        Ok {| fasta_name := fasta_name st;
              fasta_sequence := fasta_sequence st ++ c :: rest;
              fasta_seqs := fasta_seqs st |}
  end.

Fixpoint fasta_lines (st : fasta_state) (lines : list (list ascii)) : result fasta_state :=
  match lines with
  | [] => Ok st
  | line :: lines' => st ← fasta_line st line; fasta_lines st lines'
  end.

(** [load_fasta_with_full_header], on the lines that reading the file
    gives, each with its line break. *)
Definition load_fasta_with_full_header (lines : list (list ascii))
  : result (list (list ascii * list ascii * list ascii)) :=
  st ← fasta_lines {| fasta_name := []; fasta_sequence := []; fasta_seqs := [] |} lines;
  st ← fasta_flush false st;
  Ok (fasta_seqs st).

(** [load_fasta]: the same loop, the records without the full header. *)
Definition load_fasta (lines : list (list ascii))
  : result (list (list ascii * list ascii)) :=
  records ← load_fasta_with_full_header lines;
  Ok (map (fun '(word, _, sequence) => (word, sequence)) records).

(** *** Contig headers *)

(** [x[i]] of a list of strings. *)
Definition item (parts : list (list ascii)) (i : nat) : result (list ascii) :=
  match parts !! i with
  | Some part => Ok part
  | None => Raise IndexError
  end.

Definition str_eqb (x y : list ascii) : bool :=
  if list_eq_dec ascii_dec x y then true else false.

Definition is_header_spades_format (contig_name : list ascii) : bool :=
  let contig_name_parts := split_sep (pystr "_") contig_name in
  (Nat.ltb 5 (length contig_name_parts)
   && (str_eqb (nth 0 contig_name_parts []) (pystr "NODE")
       || str_eqb (nth 0 contig_name_parts []) (pystr "EDGE"))
   && str_eqb (nth 2 contig_name_parts []) (pystr "length")
   && str_eqb (nth 4 contig_name_parts []) (pystr "cov"))%bool.

Definition get_nice_header (header : list ascii) : result (list ascii) :=
  if is_header_spades_format header then
    part ← item (split_sep (pystr "_") header) 1;
    Ok (pystr "NODE_" ++ part)
  else item (split_whitespace header) 0.

(** *** Numbers *)

Definition digit_char (d : Z) : ascii := ascii_of_nat (48 + Z.to_nat d).

(** The decimal digits of a number that is not negative; [bound] digits
    at most. *)
Fixpoint digits_from (bound : nat) (n : Z) : list ascii :=
  match bound with
  | O => []
  | S b => (if n <? 10 then [] else digits_from b (n / 10)) ++ [digit_char (n mod 10)]
  end.

Definition digits (n : Z) : list ascii := digits_from (S (Z.to_nat (Z.log2 n))) n.

(** The commas of the format [,], on the digits in reverse: one after
    every third digit that has a digit after it; [k] digits passed since
    the last comma. *)
Fixpoint commas_rev (k : nat) (rev_digits : list ascii) : list ascii :=
  match rev_digits with
  | [] => []
  | d :: r =>
      match k with
      | 3%nat => ","%char :: d :: commas_rev 1 r
      | _ => d :: commas_rev (S k) r
      end
  end.

(** ['{:,}'.format(n)] for an integer. *)
Definition format_commas (n : Z) : list ascii :=
  (if n <? 0 then pystr "-" else []) ++ rev (commas_rev 0 (rev (digits (Z.abs n)))).

(** [int_to_str]; [None] is Python's, and [max_num] an integer. *)
Definition int_to_str (num : option Z) (max_num : Z) : list ascii :=
  let num_str :=
    match num with
    | None => pystr "n/a"
    | Some n => format_commas n
    end in
  let max_str := format_commas max_num in
  rjust num_str (len max_str).

Definition flip_number_order (num_1 num_2 : Z) : Z * Z * bool :=
  let flip :=
    if ((0 <? num_1) && (0 <? num_2))%bool then false
    else if ((num_1 <? 0) && (num_2 <? 0))%bool then true
    else if num_1 <? 0 then Z.abs num_2 <? Z.abs num_1
    else Z.abs num_1 <? Z.abs num_2 in
  if flip then (- num_2, - num_1, true) else (num_1, num_2, false).

(** *** Ranges *)

Definition range_overlap (x1 x2 y1 y2 : Z) : bool := ((x1 <? y2) && (y1 <? x2))%bool.

Definition range_is_contained (test_range : Z * Z) (other_ranges : list (Z * Z)) : bool :=
  let '(start, end_) := test_range in
  existsb (fun other_range => ((other_range.1 <=? start) && (end_ <=? other_range.2))%bool)
          other_ranges.

Definition range_overlap_size (test_range : Z * Z) (other_ranges : list (Z * Z)) : Z :=
  let '(start, end_) := test_range in
  fold_left
    (fun max_overlap other_range =>
       Z.max max_overlap (Z.min end_ other_range.2 - Z.max start other_range.1))
    other_ranges 0.

(** The first loop of [simplify_ranges]: ranges the right way round,
    the empty ones left out. *)
Definition fix_range (int_range : Z * Z) : list (Z * Z) :=
  if int_range.2 <? int_range.1 then [(int_range.2, int_range.1)]
  else if int_range.1 <? int_range.2 then [int_range]
  else [].

Definition fixed_ranges (ranges : list (Z * Z)) : list (Z * Z) := flat_map fix_range ranges.

(** [l.sort(key=lambda x: x[0])]: the sort is stable, elements with the
    same key keep their order.  [insert_by_key x l] puts [x], which
    stood before all of [l], before the first element whose key is not
    smaller. *)
Fixpoint insert_by_key (x : Z * Z) (l : list (Z * Z)) : list (Z * Z) :=
  match l with
  | [] => [x]
  | y :: l' => if x.1 <=? y.1 then x :: l else y :: insert_by_key x l'
  end.

Fixpoint sort_by_key (l : list (Z * Z)) : list (Z * Z) :=
  match l with
  | [] => []
  | x :: l' => insert_by_key x (sort_by_key l')
  end.

Definition starts_ends (ranges : list (Z * Z)) : list (Z * Z) :=
  sort_by_key (map (fun x => (x.1, 1)) (fixed_ranges ranges)
               ++ map (fun x => (x.2, -1)) (fixed_ranges ranges)).

(** The second loop: the running sum beside every position. *)
Fixpoint cumulative (current_sum : Z) (starts_ends : list (Z * Z)) : list (Z * Z) :=
  match starts_ends with
  | [] => []
  | start_end :: rest =>
      (start_end.1, current_sum + start_end.2) :: cumulative (current_sum + start_end.2) rest
  end.

(** The third loop. *)
Fixpoint combine_ranges (prev_depth start : Z) (combined : list (Z * Z))
  (cumulative_sum : list (Z * Z)) : list (Z * Z) :=
  match cumulative_sum with
  | [] => combined
  | (pos, depth) :: rest =>
      if prev_depth =? 0 then combine_ranges depth pos combined rest
      else if depth =? 0 then combine_ranges depth start (combined ++ [(start, pos)]) rest
      else combine_ranges depth start combined rest
  end.

Definition simplify_ranges (ranges : list (Z * Z)) : list (Z * Z) :=
  combine_ranges 0 0 [] (cumulative 0 (starts_ends ranges)).

(** *** Lists *)

Section remove_dupes.
Context {A : Type} `{Countable A}.

(** The comprehension of [remove_dupes_preserve_order], [seen] being the
    set it fills as it goes. *)
Fixpoint remove_dupes_from (seen : gset A) (lst : list A) : list A :=
  match lst with
  | [] => []
  | x :: lst' =>
      if decide (x ∈ seen) then remove_dupes_from seen lst'
      else x :: remove_dupes_from ({[ x ]} ∪ seen) lst'
  end.

Definition remove_dupes_preserve_order (lst : list A) : list A :=
  remove_dupes_from ∅ lst.

End remove_dupes.

(** *** File names and files *)

(** [os.path.basename] of [posixpath]: what follows the last slash. *)
Definition basename (p : list ascii) : list ascii :=
  slice_from p (rfind_from "/" 0 p + 1).

Definition endings_to_trim : list (list ascii) :=
  map pystr ["gz"; "fasta"; "fna"; "fa"; "fas"; "fsa"; "fastq"; "fq"]%string.

(** [x in endings_to_trim]. *)
Definition is_ending (x : list ascii) : bool := existsb (str_eqb x) endings_to_trim.

(** The loop of [strip_read_extensions], on the parts in reverse, the
    last one first: [name_parts[-1]] of no parts is an [IndexError]. *)
Fixpoint trim_endings (rev_parts : list (list ascii)) : result (list (list ascii)) :=
  match rev_parts with
  | [] => Raise IndexError
  | part :: before =>
      if is_ending (lower part) then trim_endings before else Ok (rev rev_parts)
  end.

Definition strip_read_extensions (read_file_name : list ascii) : result (list ascii) :=
  let base_name := basename read_file_name in
  let name_parts := split_sep (pystr ".") base_name in
  name_parts ← trim_endings (rev name_parts);
  Ok (join (pystr ".") name_parts).

(** What a function that can call [quit_with_error] comes to: it
    returns, or the message is logged to the standard error and the
    program ends with the given status. *)
Inductive outcome (A : Type) : Type :=
| Returns (a : A)
| Exits (status : Z) (message : list ascii).
Arguments Returns {A} a.
Arguments Exits {A} status message.

Definition quit_with_error {A : Type} (message : list ascii) : outcome A :=
  Exits 1 (pystr "Error: " ++ message).

(** The [magic_dict] of [get_compression_type], in its order. *)
Definition magic_dict : list (list ascii * list (list ascii)) :=
  [(pystr "gz", [["031"]; ["139"]; ["008"]]);
   (pystr "bz2", [["066"]; ["090"]; ["104"]]);
   (pystr "zip", [["080"]; ["075"]; ["003"]; ["004"]])]%char.

(** [get_compression_type], on the bytes of the file.  [max_len] is
    over the keys of the dictionary, and [startswith] of a tuple holds
    when one of its members is a prefix. *)
Definition get_compression_type (content : list ascii) : outcome (list ascii) :=
  let max_len := list_max (map (fun x => length x.1) magic_dict) in
  let file_start := firstn max_len content in
  let compression_type :=
    fold_left
      (fun compression_type '(file_type, magic_bytes) =>
         if existsb (fun prefix => startswith prefix file_start) magic_bytes
         then file_type else compression_type)
      magic_dict (pystr "plain") in
  if str_eqb compression_type (pystr "bz2")
  then quit_with_error (pystr "cannot use bzip2 format - use gzip instead")
  else if str_eqb compression_type (pystr "zip")
  then quit_with_error (pystr "cannot use zip format - use gzip instead")
  else Returns compression_type.

(** ** What the properties below speak of *)

(** A plain string: no escape character in it. *)
Definition plain (x : list ascii) : bool := negb (existsb (Ascii.eqb ESC) x).

(** No forced line break in the string. *)
Definition no_line_breaks (x : list ascii) : bool :=
  forallb (fun c => negb (is_linebreak c)) x.

(** The cells a table has in column [c], and the largest visible width
    among cells. *)
Definition column (c : nat) (table : list (list (list ascii))) : list (list ascii) :=
  omap (fun row : list (list ascii) => row !! c) table.

Definition max_visible (cells : list (list ascii)) : Z :=
  fold_right Z.max 0 (map len_without_format cells).

(** [x] cut into consecutive pieces of [w] characters, the last one
    shorter when [w] does not divide the length; [n] bounds the number
    of pieces. *)
Fixpoint chop_from (n w : nat) (x : list ascii) : list (list ascii) :=
  match n with
  | O => []
  | S n' =>
      match x with
      | [] => []
      | _ :: _ => firstn w x :: chop_from n' w (skipn w x)
      end
  end.

Definition chop (w : nat) (x : list ascii) : list (list ascii) :=
  chop_from (length x) w x.

(** The whitespace of the text is spaces only: no tab, no line break. *)
Definition spaces_only (x : list ascii) : bool :=
  forallb (fun c => (negb (is_ws c) || Ascii.eqb c SP)%bool) x.



(** Options for a table with narrow columns and a note after row 1. *)
Definition noted : options := {|
  alignments := pystr "LR";
  max_col_width := 8;
  col_separation := 3;
  indent := 2;
  row_colour := ∅;
  sub_colour := [];
  row_extra_text := {[ 1%nat := pystr " <-" ]};
  leading_newline := false;
  subsequent_indent := [];
  return_str := false;
  header_format := pystr "underline";
  hide_header := false;
  fixed_col_widths := None;
  left_align_header := true;
  bottom_align_header := true;
  verbosity := 1
|}.

(** A cell in which an underline escape sits inside the pieces of
    another one. *)
Definition nested_underline : list ascii :=
  ESC :: pystr "[" ++ UNDERLINE ++ pystr "4m".

(** An escape character with another one right after it, or after the
    [[] or the [[4] that follows it: where taking an underline escape
    out can close a new one. *)
Definition broken_escape (x : list ascii) : bool :=
  (contains [ESC; ESC] x || contains [ESC; "["%char; ESC] x
   || contains [ESC; "["%char; "4"%char; ESC] x)%bool.

(** Options for a table with narrow columns in which the text [4m] is
    underlined wherever it stands. *)
Definition marked : options := {|
  alignments := [];
  max_col_width := 8;
  col_separation := 3;
  indent := 2;
  row_colour := ∅;
  sub_colour := [(pystr "4m", pystr "underline")];
  row_extra_text := ∅;
  leading_newline := false;
  subsequent_indent := [];
  return_str := false;
  header_format := pystr "underline";
  hide_header := false;
  fixed_col_widths := None;
  left_align_header := true;
  bottom_align_header := true;
  verbosity := 1
|}.

(** The physical lines of row [i] as they are once styled, before the
    underline escape is stripped from them and the indent put in front:
    [row_lines] without these two steps. *)
Definition styled_lines (o : options) (col_widths : list Z) (alignments : list ascii)
  (i : nat) (row : list (list ascii)) : result (list (list ascii)) :=
  wrapped_row ← wrap_row o row;
  row_rows ← max_len wrapped_row;
  let wrapped_row :=
    if (Nat.eqb i 0 && bottom_align_header o)%bool
    then bottom_align row_rows wrapped_row else wrapped_row in
  Ok (map (fun j => style o i (add_extra o i (joined o col_widths alignments i wrapped_row j)))
          (seq 0 row_rows)).

(** The default options with the header hidden. *)
Definition headerless : options := {|
  alignments := [];
  max_col_width := 30;
  col_separation := 3;
  indent := 2;
  row_colour := ∅;
  sub_colour := [];
  row_extra_text := ∅;
  leading_newline := false;
  subsequent_indent := [];
  return_str := false;
  header_format := pystr "underline";
  hide_header := true;
  fixed_col_widths := None;
  left_align_header := true;
  bottom_align_header := true;
  verbosity := 1
|}.

(** The widths the cells are wrapped at are all one or more, and there
    is one at least. *)
Definition widths_usable (o : options) : Prop :=
  match fixed_col_widths o with
  | None => 1 <= max_col_width o
  | Some widths => widths <> [] /\ Forall (fun w => 1 <= w) widths
  end.

(** A base that [REV_COMP_DICT] has a complement for. *)
Definition valid_base (base : ascii) : bool :=
  match REV_COMP_DICT !! base with Some _ => true | None => false end.

(** No line feed in the string; no space character in it. *)
Definition no_newline (x : list ascii) : bool :=
  forallb (fun c => negb (Ascii.eqb c NL)) x.

Definition no_space (x : list ascii) : bool :=
  forallb (fun c => negb (isspace c)) x.

(** The lines as one string, a line feed after each. *)
Definition terminated (lines : list (list ascii)) : list ascii :=
  concat (map (fun line => line ++ [NL]) lines).

(** The lines a sequence is written in: pieces of [w] characters, and
    one empty line for the empty sequence. *)
Definition sequence_lines (w : nat) (sequence : list ascii) : list (list ascii) :=
  match sequence with
  | [] => [[]]
  | _ :: _ => chop w sequence
  end.

(** The string ends in a character that is no space character. *)
Definition ends_in_word (x : list ascii) : Prop :=
  exists y c, x = y ++ [c] /\ isspace c = false.

(** A name that [load_fasta] holds between two lines: none yet, or one
    that ends in a word. *)
Definition named (x : list ascii) : Prop := x = [] \/ ends_in_word x.

(** A record as [load_fasta_with_full_header] gives it: the name is the
    first word of the header, it is not empty and has no space character. *)
Definition record_ok (record : list ascii * list ascii * list ascii) : Prop :=
  record.1.1 <> [] /\ no_space record.1.1 = true
  /\ first_word record.1.2 = Ok record.1.1.

(** A character of a sequence: no space character and not [>]. *)
Definition sequence_char (c : ascii) : bool :=
  (negb (isspace c) && negb (Ascii.eqb c ">"))%bool.

(** A record with a name that is one word and a sequence of sequence
    characters. *)
Definition one_word_record (record : list ascii * list ascii) : bool :=
  (truthy record.1 && no_space record.1 && forallb sequence_char record.2)%bool.

(** A record written as FASTA: the name after a [>] on a line, then the
    sequence with the line breaks of [add_line_breaks_to_sequence]. *)
Definition record_text (BASES_PER_FASTA_LINE line_length : Z)
  (record : list ascii * list ascii) : result (list ascii) :=
  seq_with_breaks ← add_line_breaks_to_sequence BASES_PER_FASTA_LINE record.2 line_length;
  Ok (">"%char :: record.1 ++ NL :: seq_with_breaks).

Definition records_text (BASES_PER_FASTA_LINE line_length : Z)
  (records : list (list ascii * list ascii)) : result (list ascii) :=
  texts ← mapM (record_text BASES_PER_FASTA_LINE line_length) records;
  Ok (concat texts).

(** The lines that reading a text gives, each with its line feed; the
    text ends in one. *)
Definition file_lines (text : list ascii) : list (list ascii) :=
  map (fun line => line ++ [NL]) (line_iterator text).

(** No character [c] in the string. *)
Definition without (c : ascii) (x : list ascii) : bool :=
  forallb (fun d => negb (Ascii.eqb d c)) x.

(** The directory part of a path: nothing, or a string that ends in a
    slash. *)
Definition directory (dir : list ascii) : Prop :=
  dir = [] \/ exists d, dir = d ++ ["/"%char].

(** A part of a file name: no dot and no slash in it. *)
Definition name_part (x : list ascii) : bool :=
  (without "." x && without "/" x)%bool.

(** The position [p] lies in one of the ranges, the end of a range not
    included; a range given the wrong way round is read the right way
    round. *)
Definition covered (ranges : list (Z * Z)) (p : Z) : Prop :=
  exists r, In r ranges /\ Z.min r.1 r.2 <= p < Z.max r.1 r.2.

(** Ranges that are not empty, in ascending order and apart: each one
    ends before the next one starts. *)
Fixpoint apart (ranges : list (Z * Z)) : Prop :=
  match ranges with
  | [] => True
  | r :: rest =>
      r.1 < r.2
      /\ match rest with [] => True | r' :: _ => r.2 < r'.1 end
      /\ apart rest
  end.

(** Of a list of positions with steps: the sum of the steps at the
    positions up to [p], and the sum of all steps. *)
Definition depth_at (events : list (Z * Z)) (p : Z) : Z :=
  fold_right (fun ev acc => (if ev.1 <=? p then ev.2 else 0) + acc) 0 events.

Definition total (events : list (Z * Z)) : Z :=
  fold_right (fun ev acc => ev.2 + acc) 0 events.

(** The number of ranges that [p] lies in. *)
Definition cover_count (ranges : list (Z * Z)) (p : Z) : Z :=
  fold_right
    (fun r acc => (if ((r.1 <=? p) && (p <? r.2))%bool then 1 else 0) + acc) 0 ranges.

(** The positions do not go down along the list. *)
Fixpoint sorted_pos (events : list (Z * Z)) : Prop :=
  match events with
  | [] => True
  | ev :: rest => Forall (fun y => ev.1 <= y.1) rest /\ sorted_pos rest
  end.

(** The order of the events of [simplify_ranges] once sorted: an
    earlier position, or the same position and a step that is not
    smaller. *)
Definition before (x y : Z * Z) : Prop := x.1 < y.1 \/ (x.1 = y.1 /\ y.2 <= x.2).

Fixpoint sorted_lex (events : list (Z * Z)) : Prop :=
  match events with
  | [] => True
  | ev :: rest => Forall (before ev) rest /\ sorted_lex rest
  end.

(** The steps do not go up along the list. *)
Fixpoint steps_down (events : list (Z * Z)) : Prop :=
  match events with
  | [] => True
  | ev :: rest => Forall (fun y => y.2 <= ev.2) rest /\ steps_down rest
  end.

(** The characters of a string that are no space characters, in their
    order. *)
Definition nonspace (x : list ascii) : list ascii :=
  List.filter (fun c => negb (isspace c)) x.






(** * Properties *)

(** ** Style encoder *)

Lemma colour_with_code (text name code_ : list ascii) :
  colour_code name = code_ -> code_ <> [] ->
  colour text name = code_ ++ text ++ END_FORMATTING.
Proof.
  intros Hc Hne. unfold colour. rewrite Hc.
  destruct code_; [congruence | reflexivity].
Qed.

(** C10: each named wrapper returns what [colour] returns for the
    corresponding space-separated style name, for every text. *)
Theorem C10_wrappers_agree_with_colour (t : list ascii) :
  green t = colour t (pystr "green")
  /\ red t = colour t (pystr "red")
  /\ dim t = colour t (pystr "dim")
  /\ bold t = colour t (pystr "bold")
  /\ underline t = colour t (pystr "underline")
  /\ bold_green t = colour t (pystr "bold green")
  /\ bold_red t = colour t (pystr "bold red")
  /\ bold_underline t = colour t (pystr "bold underline")
  /\ dim_underline t = colour t (pystr "dim underline")
  /\ bold_yellow t = colour t (pystr "bold yellow")
  /\ bold_yellow_underline t = colour t (pystr "bold yellow underline")
  /\ bold_red_underline t = colour t (pystr "bold red underline").
Proof.
  repeat split;
    (erewrite colour_with_code; [ | vm_compute; reflexivity | discriminate ]);
    reflexivity.
Qed.

(** ** Visible-width measurer *)

Lemma plain_cons (c : ascii) (x : list ascii) :
  plain (c :: x) = true -> Ascii.eqb c ESC = false /\ plain x = true.
Proof.
  unfold plain. simpl. rewrite negb_orb, andb_true_iff.
  intros [Hc Hx]. split; [ | exact Hx ].
  rewrite Ascii.eqb_sym. now apply negb_true_iff.
Qed.

Lemma remove_formatting_plain_app (x y : list ascii) :
  plain x = true -> remove_formatting (x ++ y) = x ++ remove_formatting y.
Proof.
  induction x as [ | c x IH ]; intros Hp; [ reflexivity | ].
  apply plain_cons in Hp as [Hc Hx].
  cbn [app remove_formatting]. rewrite Hc. cbn [andb].
  now rewrite IH.
Qed.

Lemma remove_formatting_plain (x : list ascii) :
  plain x = true -> remove_formatting x = x.
Proof.
  intros Hp. rewrite <- (app_nil_r x) at 1.
  rewrite remove_formatting_plain_app by exact Hp.
  cbn. apply app_nil_r.
Qed.

(** Stripping the formatting of a plain string coloured red gives the
    string back. *)
Lemma remove_formatting_red (x : list ascii) :
  plain x = true -> remove_formatting (colour x (pystr "red")) = x.
Proof.
  intros Hp.
  rewrite (colour_with_code x (pystr "red") RED) by (vm_compute; congruence).
  change (remove_formatting (x ++ END_FORMATTING) = x).
  rewrite remove_formatting_plain_app by exact Hp.
  cbn. apply app_nil_r.
Qed.

(** C8: colouring a plain string red leaves its visible width as it is. *)
Theorem C8_red_keeps_visible_width (x : list ascii) :
  plain x = true ->
  len_without_format (colour x (pystr "red")) = len_without_format x.
Proof.
  intros Hp. unfold len_without_format.
  now rewrite remove_formatting_red, remove_formatting_plain.
Qed.

Lemma C8_red_keeps_visible_width_witness :
  plain (pystr "alpha") = true
  /\ len_without_format (colour (pystr "alpha") (pystr "red")) = 5.
Proof.
  split; [ reflexivity | ].
  rewrite (C8_red_keeps_visible_width (pystr "alpha")); reflexivity.
Defined.

(** ** Help formatter *)

Lemma not_suppress_iff (v : pyvalue) : not_suppress v = true <-> v <> PyStr SUPPRESS.
Proof.
  destruct v as [ | x | z | b | str_ ]; unfold not_suppress;
    try (split; [ intros _ H; discriminate H | reflexivity ]).
  destruct (list_eq_dec ascii_dec x SUPPRESS) as [-> | Hne]; split; intros H;
    [ discriminate H | now destruct H | congruence | reflexivity ].
Qed.

Lemma is_not_None_iff (v : pyvalue) : is_not_None v = true <-> v <> PyNone.
Proof. destruct v; cbn; split; congruence. Qed.

Lemma app_neq (x y : list ascii) : y <> [] -> x ++ y <> x.
Proof.
  intros Hy H. rewrite <- (app_nil_r x) in H at 2.
  now apply app_inv_head in H.
Qed.

(** C9: the default-value suffix is appended exactly when the default is
    neither the suppression marker nor [None] and the lowercased help
    text has no [default] in it; otherwise the help text comes back
    unchanged. *)
Theorem C9_default_suffix (action : Action.t) :
  let help_text := Action.help action in
  let value := Action.default action in
  let suffix := pystr " (default: " ++ py_str value ++ pystr ")" in
  let wanted :=
    value <> PyStr SUPPRESS /\ value <> PyNone
    /\ contains (pystr "default") (lower help_text) = false in
  (_get_help_string action = help_text ++ suffix <-> wanted)
  /\ (_get_help_string action = help_text <-> ~ wanted).
Proof.
  destruct action as [help_text value]. cbn zeta. unfold _get_help_string.
  cbn [Action.help Action.default].
  pose proof (not_suppress_iff value) as Hs.
  pose proof (is_not_None_iff value) as Hn.
  assert (Hsuffix : pystr " (default: " ++ py_str value ++ pystr ")" <> [])
    by discriminate.
  pose proof (app_neq help_text _ Hsuffix) as Hneq.
  destruct (not_suppress value), (is_not_None value),
    (contains (pystr "default") (lower help_text)); cbn [andb negb];
    (split; split; intros H);
    first [ reflexivity | destruct (Hneq H) | symmetry in H; destruct (Hneq H)
          | intuition congruence ].
Qed.

(** ** Column widths *)

Lemma len_without_format_nonneg (x : list ascii) : 0 <= len_without_format x.
Proof. unfold len_without_format, len. lia. Qed.

Lemma max_visible_nonneg (cells : list (list ascii)) : 0 <= max_visible cells.
Proof. unfold max_visible. induction cells; cbn; lia. Qed.

Lemma widen_from (M : Z) (ws : list Z) (row : list (list ascii)) (k c : nat) :
  (c < length row)%nat ->
  nth c (map (fun '(i, x) => Z.min (Z.max (nth i ws 0) (len_without_format x)) M)
             (combine (seq k (length row)) row)) 0
  = Z.min (Z.max (nth (k + c) ws 0) (len_without_format (nth c row []))) M.
Proof.
  revert k c. induction row as [ | x row IH ]; intros k c Hc; cbn in Hc; [ lia | ].
  destruct c as [ | c ]; cbn.
  - now rewrite Nat.add_0_r.
  - rewrite IH by lia. now rewrite Nat.add_succ_r.
Qed.

Lemma nth_widen (M : Z) (ws : list Z) (row : list (list ascii)) (c : nat) :
  (c < length row)%nat ->
  nth c (widen M ws row) 0
  = Z.min (Z.max (nth c ws 0) (len_without_format (nth c row []))) M.
Proof. intros Hc. unfold widen, enumerate. now rewrite widen_from. Qed.

Lemma length_widen (M : Z) (ws : list Z) (row : list (list ascii)) :
  length (widen M ws row) = length row.
Proof.
  unfold widen, enumerate.
  rewrite length_map, length_combine, length_seq. lia.
Qed.

Lemma length_normalise_row (n : nat) (row : list (list ascii)) :
  length (firstn n row ++ repeat [] (n - length (firstn n row))) = n.
Proof. rewrite length_app, repeat_length, length_firstn. lia. Qed.

Lemma nth_auto_col_widths (M : Z) (c : nat) (rows : list (list (list ascii)))
  (ws : list Z) :
  Forall (fun row => c < length row)%nat rows ->
  nth c (fold_left (widen M) rows ws) 0
  = fold_left (fun a row => Z.min (Z.max a (len_without_format (nth c row []))) M)
      rows (nth c ws 0).
Proof.
  intros Hrows. revert ws.
  induction Hrows as [ | row rows Hrow _ IH ]; intros ws; [ reflexivity | ].
  cbn [fold_left]. rewrite IH. now rewrite nth_widen.
Qed.

Lemma fold_min_max (M : Z) (xs : list Z) (a : Z) :
  fold_left (fun a x => Z.min (Z.max a x) M) xs (Z.min a M)
  = Z.min (fold_left Z.max xs a) M.
Proof.
  revert a. induction xs as [ | x xs IH ]; intros a; [ reflexivity | ].
  cbn [fold_left]. rewrite <- IH. f_equal. lia.
Qed.

Lemma fold_left_max (xs : list Z) (a : Z) :
  0 <= a -> fold_left Z.max xs a = Z.max a (fold_right Z.max 0 xs).
Proof.
  revert a. induction xs as [ | x xs IH ]; intros a Ha; cbn; [ lia | ].
  rewrite IH by lia. lia.
Qed.

Lemma fold_left_over_map {A B C : Type} (f : A -> B -> A) (g : C -> B)
  (l : list C) (a : A) :
  fold_left f (map g l) a = fold_left (fun a x => f a (g x)) l a.
Proof. revert a. induction l as [ | x l IH ]; intros a; cbn; [ reflexivity | apply IH ]. Qed.

(** The cell at [c] of a normalised row is the cell of the row, or the
    empty padding. *)
Lemma nth_normalise_row (n c : nat) (row : list (list ascii)) :
  (c < n)%nat ->
  nth c (firstn n row ++ repeat [] (n - length (firstn n row))) []
  = match row !! c with Some x => x | None => [] end.
Proof.
  intros Hc. destruct (row !! c) as [x | ] eqn:Hl.
  - assert (c < length row)%nat by (eapply lookup_lt_Some; eauto).
    rewrite app_nth1 by (rewrite length_firstn; lia).
    rewrite nth_firstn. destruct (Nat.ltb_spec c n); [ | lia ].
    rewrite nth_lookup, Hl. reflexivity.
  - apply lookup_ge_None in Hl.
    rewrite app_nth2 by (rewrite length_firstn; lia).
    apply nth_repeat.
Qed.

Lemma max_visible_column (n c : nat) (table : list (list (list ascii))) :
  (c < n)%nat ->
  fold_right Z.max 0
    (map (fun row => len_without_format (nth c row [])) (normalise n table))
  = max_visible (column c table).
Proof.
  intros Hc. unfold normalise, column.
  induction table as [ | row table IH ]; [ reflexivity | ].
  cbn [map fold_right omap list_omap]. rewrite IH, nth_normalise_row by exact Hc.
  destruct (row !! c) as [x | ]; [ reflexivity | ].
  pose proof (max_visible_nonneg (omap (fun row : list (list ascii) => row !! c) table)).
  change (len_without_format []) with 0. unfold column in *. lia.
Qed.

(** C6: without fixed widths, the width of every column is the smaller
    of [max_col_width] and the largest visible width among the cells of
    that column, over all rows. *)
Theorem C6_auto_widths (o : options) (header : list (list ascii))
  (rest : list (list (list ascii))) (c : nat) :
  fixed_col_widths o = None ->
  (c < length header)%nat ->
  resolve_col_widths o (length header) (normalise (length header) (header :: rest)) !! c
  = Some (Z.min (max_col_width o) (max_visible (column c (header :: rest)))).
Proof.
  intros Hauto Hc. unfold resolve_col_widths. rewrite Hauto.
  set (n := length header). set (table := header :: rest).
  assert (Hrows : Forall (fun row => c < length row)%nat (normalise n table)).
  { unfold normalise. apply Forall_map, Forall_forall. intros row _.
    rewrite length_normalise_row. exact Hc. }
  assert (Hlen : length (auto_col_widths (max_col_width o) n (normalise n table)) = n).
  { unfold auto_col_widths. generalize (repeat_length 0 n).
    generalize (repeat 0 n) as ws. clear Hrows.
    assert (Hn : Forall (fun row => length row = n) (normalise n table)).
    { unfold normalise. apply Forall_map, Forall_forall. intros row _.
      apply length_normalise_row. }
    induction Hn as [ | row rows Hrow _ IH ]; intros ws Hws; [ exact Hws | ].
    cbn [fold_left]. apply IH. now rewrite length_widen. }
  destruct (lookup_lt_is_Some_2
              (auto_col_widths (max_col_width o) n (normalise n table)) c)
    as [w Hw]; [ rewrite Hlen; exact Hc | ].
  rewrite Hw. f_equal. apply (nth_lookup_Some _ _ 0) in Hw. rewrite <- Hw.
  unfold auto_col_widths.
  rewrite nth_auto_col_widths by exact Hrows.
  rewrite nth_repeat.
  rewrite <- (max_visible_column n c table Hc).
  rewrite <- (fold_left_over_map (fun a x => Z.min (Z.max a x) (max_col_width o))
                (fun row => len_without_format (nth c row []))).
  unfold table at 1. unfold normalise at 1. cbn [map fold_left].
  pose proof (len_without_format_nonneg
                (nth c (firstn n header ++ repeat [] (n - length (firstn n header))) [])) as H0.
  rewrite Z.max_r by exact H0.
  rewrite fold_min_max, fold_left_max by exact H0.
  unfold table, normalise. cbn [map fold_right]. lia.
Qed.

Lemma C6_auto_widths_witness :
  resolve_col_widths defaults 2
    (normalise 2 [[pystr "Name"; pystr "Count"]; [pystr "alpha"; pystr "10"];
                  [pystr "beta"; pystr "2000"]]) !! 1%nat
  = Some 5.
Proof.
  exact (eq_trans
           (C6_auto_widths defaults [pystr "Name"; pystr "Count"]
              [[pystr "alpha"; pystr "10"]; [pystr "beta"; pystr "2000"]] 1
              eq_refl (Nat.lt_succ_diag_r 1))
           eq_refl).
Defined.

(** ** List-per-line wrapping *)

(** C3: the lines the help formatter makes of the scenario's text at
    width 10.  There are three of them and the tokens are packed while
    they fit, but the first line, with the comma put after it, is 11
    characters wide. *)
Theorem C3_list_per_line_scenario :
  _split_lines (pystr "R|opt1, opt2, opt3, opt4") 10
  = Ok [pystr "opt1, opt2,"; pystr "  opt3,"; pystr "  opt4"]
  /\ len_without_format (pystr "opt1, opt2,") = 11.
Proof. split; vm_compute; reflexivity. Qed.

(** ** The chunks of [_split] *)

Lemma concat_flush (cur : list ascii) : concat (flush cur) = rev cur.
Proof. destruct cur; [ reflexivity | cbn [flush concat]; apply app_nil_r ]. Qed.

(** The chunks are the text cut in pieces: joined they give it back. *)
Lemma concat_split_from (x : list ascii) :
  forall (take : nat) (cur back : list ascii),
    concat (split_from take cur back x) = rev cur ++ x.
Proof.
  induction x as [ | c x IH ]; intros take cur back; cbn [split_from].
  - rewrite concat_flush. symmetry. apply app_nil_r.
  - destruct take as [ | k ].
    + rewrite concat_app, concat_flush, IH. reflexivity.
    + rewrite IH. cbn [rev]. now rewrite <- app_assoc.
Qed.

Lemma concat_split (text : list ascii) : concat (_split text) = text.
Proof. unfold _split. now rewrite concat_split_from. Qed.

Lemma Forall_flush (cur : list ascii) : Forall (fun ch => ch <> []) (flush cur).
Proof.
  destruct cur as [ | c cur ]; constructor; [ | constructor ].
  cbn [rev]. intros H. apply app_eq_nil in H as [_ H]. discriminate H.
Qed.

(** No chunk is empty. *)
Lemma split_from_nonempty (x : list ascii) :
  forall (take : nat) (cur back : list ascii),
    Forall (fun ch => ch <> []) (split_from take cur back x).
Proof.
  induction x as [ | c x IH ]; intros take cur back; cbn [split_from].
  - apply Forall_flush.
  - destruct take; [ apply Forall_app; split; [ apply Forall_flush | ] | ]; apply IH.
Qed.

Lemma split_nonempty (text : list ascii) : Forall (fun ch => ch <> []) (_split text).
Proof. apply split_from_nonempty. Qed.

(** A text that ends in no space character has a last chunk that is
    not blank. *)
Lemma last_chunk_not_blank (chunks before : list (list ascii)) (ch : list ascii)
  (text : list ascii) :
  Forall (fun ch => ch <> []) chunks ->
  concat chunks = text ->
  rev chunks = ch :: before ->
  isspace (last text SP) = false ->
  blank ch = false.
Proof.
  intros Hne Hcat Hrev Hlast.
  apply (f_equal (@rev (list ascii))) in Hrev. rewrite rev_involutive in Hrev.
  cbn [rev] in Hrev. subst chunks.
  apply Forall_app in Hne as [_ Hne]. inversion_clear Hne as [ | ? ? Hch _ ].
  rewrite concat_app in Hcat. cbn [concat] in Hcat. rewrite app_nil_r in Hcat.
  subst text. apply exists_last in Hch as [ini [z ->]].
  rewrite app_assoc, last_last in Hlast.
  unfold blank. rewrite forallb_app. cbn [forallb]. rewrite Hlast.
  now rewrite andb_false_r.
Qed.

(** ** Texts that [_munge_whitespace] leaves as they are *)

Lemma spaces_only_inv (c : ascii) (x : list ascii) :
  spaces_only (c :: x) = true ->
  (is_ws c = false \/ c = SP) /\ spaces_only x = true.
Proof.
  unfold spaces_only. cbn [forallb]. rewrite andb_true_iff, orb_true_iff.
  intros [[H | H] Hx]; (split; [ | exact Hx ]).
  - left. now apply negb_true_iff.
  - right. now apply Ascii.eqb_eq.
Qed.

Lemma expandtabs_spaces_only (x : list ascii) :
  spaces_only x = true ->
  forall (tabsize col : nat), expandtabs_from tabsize col x = x.
Proof.
  induction x as [ | c x IH ]; intros Hx tabsize col; [ reflexivity | ].
  apply spaces_only_inv in Hx as [Hc Hx]. cbn [expandtabs_from].
  assert (Ht : Ascii.eqb c TAB = false).
  { destruct Hc as [Hc | ->]; [ | reflexivity ].
    destruct (Ascii.eqb_spec c TAB) as [-> | _]; [ discriminate Hc | reflexivity ]. }
  rewrite Ht. now rewrite IH.
Qed.

Lemma munge_spaces_only (x : list ascii) :
  spaces_only x = true -> _munge_whitespace x = x.
Proof.
  intros Hx. unfold _munge_whitespace, expandtabs.
  rewrite expandtabs_spaces_only by exact Hx.
  unfold translate_whitespace.
  induction x as [ | c x IH ]; [ reflexivity | ].
  apply spaces_only_inv in Hx as [Hc Hx]. cbn [map]. rewrite IH by exact Hx.
  destruct Hc as [-> | ->]; reflexivity.
Qed.

(** ** Plain wrapping of a text that fits *)

Lemma len_app (x y : list ascii) : len (x ++ y) = len x + len y.
Proof. unfold len. rewrite length_app. lia. Qed.

Lemma len_nonneg (x : list ascii) : 0 <= len x.
Proof. unfold len. lia. Qed.

(** Chunks that fit together are all taken to the line. *)
Lemma fill_all (width : Z) (chunks : list (list ascii)) :
  forall (cur_line : list (list ascii)) (cur_len : Z),
    cur_len + len (concat chunks) <= width ->
    fill width cur_line cur_len chunks
    = (cur_line ++ chunks, cur_len + len (concat chunks), []).
Proof.
  induction chunks as [ | ch chunks IH ]; intros cur_line cur_len Hfit; cbn [fill concat].
  - rewrite app_nil_r. f_equal. f_equal. change (len []) with 0. lia.
  - cbn [concat] in Hfit. rewrite len_app in Hfit.
    pose proof (len_nonneg (concat chunks)).
    destruct (Z.leb_spec (cur_len + len ch) width); [ | lia ].
    rewrite IH by lia. rewrite <- app_assoc, len_app. cbn [app].
    f_equal. f_equal. lia.
Qed.

Lemma drop_last_blank_keeps (chunks : list (list ascii)) (text : list ascii) :
  Forall (fun ch => ch <> []) chunks ->
  concat chunks = text ->
  isspace (last text SP) = false ->
  drop_last_blank chunks = chunks.
Proof.
  intros Hne Hcat Hlast. unfold drop_last_blank.
  destruct (rev chunks) as [ | ch before ] eqn:Hrev; [ reflexivity | ].
  now rewrite (last_chunk_not_blank chunks before ch text).
Qed.

Lemma wrap_loop_nil (bound : nat) (w : Z) (subsequent_indent : list ascii)
  (lines : list (list ascii)) :
  wrap_loop bound w subsequent_indent lines [] = Some lines.
Proof. destruct bound; reflexivity. Qed.

(** A text in which every run of whitespace is one space is left as
    it is by the substitution of [argparse], and a text that neither
    starts nor ends in a space character by [strip]. *)
Lemma whitespace_sub_single (x : list ascii) :
  spaces_only x = true -> contains [SP; SP] x = false ->
  forall in_run : bool,
    (in_run = true -> startswith [SP] x = false) ->
    whitespace_sub in_run x = x.
Proof.
  induction x as [ | c x IH ]; intros Hs Hc in_run Hrun; [ reflexivity | ].
  apply spaces_only_inv in Hs as [Hcw Hs].
  assert (Htail : contains [SP; SP] x = false).
  { cbn [contains] in Hc. now apply orb_false_iff in Hc as [_ Hc]. }
  cbn [whitespace_sub]. destruct Hcw as [Hcw | ->].
  - rewrite Hcw. f_equal. apply IH; [ exact Hs | exact Htail | discriminate ].
  - change (is_ws SP) with true. cbv iota. destruct in_run.
    + specialize (Hrun eq_refl). discriminate Hrun.
    + f_equal. apply IH; [ exact Hs | exact Htail | ]. intros _.
      cbn [contains] in Hc. apply orb_false_iff in Hc as [Hc _]. exact Hc.
Qed.

Lemma strip_keeps (x : list ascii) :
  isspace (hd SP x) = false -> isspace (last x SP) = false -> strip x = x.
Proof.
  assert (Hkeep : forall y : list ascii, isspace (hd SP y) = false -> lstrip y = y).
  { intros [ | c y ]; cbn [hd lstrip]; [ reflexivity | ]. now intros ->. }
  assert (Hrev : hd SP (rev x) = last x SP).
  { induction x as [ | c x' _ ] using rev_ind; [ reflexivity | ].
    now rewrite rev_app_distr, last_last. }
  intros Hh Hl. unfold strip. rewrite (Hkeep x Hh).
  rewrite Hkeep by now rewrite Hrev. apply rev_involutive.
Qed.

(** C1, as the code has it: a text no longer than the width, counted
    with its escape sequences, that is not empty, has no whitespace but
    spaces and does not end in a space character, is wrapped to the one
    line that is the text: by the wrapping of [print_table], whatever
    the continuation indent, and by the help formatter on a help text
    without sentinel, when the text does not start with a space character
    either and has no two spaces in a row. *)
Theorem C1_fitting_text_unchanged (subsequent_indent x : list ascii) (w : Z) :
  len x <= w ->
  x <> [] ->
  spaces_only x = true ->
  isspace (last x SP) = false ->
  wrap subsequent_indent w x = Ok [x]
  /\ (isspace (hd SP x) = false ->
      contains [SP; SP] x = false ->
      startswith (pystr "B|") x = false ->
      startswith (pystr "R|") x = false ->
      _split_lines x w = Ok [x]).
Proof.
  intros Hfit Hx Hsp Hlast.
  assert (Hwrap : forall indent_ : list ascii, wrap indent_ w x = Ok [x]).
  { intros indent_. unfold wrap, _split_chunks.
    rewrite munge_spaces_only by exact Hsp.
    pose proof (concat_split x) as Hcat. pose proof (split_nonempty x) as Hne.
    assert (Hpos : 0 < len x).
    { destruct x; [ congruence | unfold len; cbn [length]; lia ]. }
    unfold _wrap_chunks. destruct (Z.leb_spec w 0); [ lia | ].
    destruct (_split x) as [ | ch chunks ] eqn:Hsplit; [ cbn in Hcat; congruence | ].
    unfold passes. cbn [length]. rewrite Nat.add_succ_r. cbn [wrap_loop].
    unfold wrap_step. change (len initial_indent) with 0. rewrite Z.sub_0_r.
    rewrite fill_all by (rewrite Hcat; lia). cbn [app].
    rewrite (drop_last_blank_keeps (ch :: chunks) x Hne Hcat Hlast).
    rewrite Hcat, wrap_loop_nil. reflexivity. }
  split; [ apply Hwrap | ].
  intros Hfirst Hsingle HB HR. unfold _split_lines. rewrite HB, HR. cbn [orb].
  unfold HelpFormatter_split_lines, textwrap_wrap.
  rewrite (whitespace_sub_single x Hsp Hsingle false) by discriminate.
  rewrite (strip_keeps x Hfirst Hlast). apply Hwrap.
Qed.

Lemma C1_fitting_text_unchanged_witness :
  wrap [] 30 (ESC :: pystr "[31malpha beta" ++ END_FORMATTING)
  = Ok [ESC :: pystr "[31malpha beta" ++ END_FORMATTING]
  /\ _split_lines (ESC :: pystr "[31malpha beta" ++ END_FORMATTING) 30
     = Ok [ESC :: pystr "[31malpha beta" ++ END_FORMATTING].
Proof.
  destruct (C1_fitting_text_unchanged []
              (ESC :: pystr "[31malpha beta" ++ END_FORMATTING) 30)
    as [Htable Hhelp];
    [ vm_compute; discriminate | discriminate | reflexivity | reflexivity | ].
  split; [ exact Htable | apply Hhelp; reflexivity ].
Defined.

(** C1 as it is stated does not hold: a coloured text of visible width
    2 is cut at width 5, where its 11 characters do not fit; the empty
    text gives no line; a space at the end is dropped; a tab is made
    spaces.  None of the four texts has a line break.  The help
    formatter, on a help text without sentinel, also makes one space of
    two and drops a space at the start. *)
Lemma C1_counterexample :
  let coloured := ESC :: pystr "[31mab" ++ END_FORMATTING in
  (len_without_format coloured = 2 /\ no_line_breaks coloured = true
   /\ wrap [] 5 coloured
      = Ok [ESC :: pystr "[31m"; pystr "ab" ++ ESC :: pystr "[0"; pystr "m"]
   /\ wrap [] 5 coloured <> Ok [coloured])
  /\ (len_without_format [] = 0 /\ wrap [] 5 [] = Ok [])
  /\ (len_without_format (pystr "ab ") = 3 /\ wrap [] 5 (pystr "ab ") = Ok [pystr "ab"])
  /\ (len_without_format (TAB :: pystr "b") = 2
      /\ no_line_breaks (TAB :: pystr "b") = true
      /\ wrap [] 10 (TAB :: pystr "b") = Ok [pystr "        b"])
  /\ (len_without_format (pystr "a  b") = 4
      /\ no_line_breaks (pystr "a  b") = true
      /\ _split_lines (pystr "a  b") 10 = Ok [pystr "a b"])
  /\ (len_without_format (pystr " ab") = 3
      /\ no_line_breaks (pystr " ab") = true
      /\ _split_lines (pystr " ab") 10 = Ok [pystr "ab"]).
Proof. vm_compute. repeat split; try reflexivity. intros H; discriminate H. Qed.

(** ** The sentinel modes on a line that fits *)

Lemma splitlines_from_no_breaks (x : list ascii) :
  no_line_breaks x = true ->
  forall cur : list ascii, splitlines_from cur x = flush (rev x ++ cur).
Proof.
  induction x as [ | c x IH ]; intros Hx cur; [ reflexivity | ].
  unfold no_line_breaks in Hx. cbn [forallb] in Hx.
  apply andb_true_iff in Hx as [Hc Hx]. apply negb_true_iff in Hc.
  cbn [splitlines_from rev]. rewrite Hc, IH by exact Hx. now rewrite <- app_assoc.
Qed.

(** In the modes of the [B|] and [R|] sentinels too, a line no longer
    than the width, counted with its escape sequences, is left as it is. *)
Lemma split_lines_fits (b : bool) (line : list ascii) (w : Z) :
  no_line_breaks line = true -> line <> [] -> len line <= w ->
  _split_lines (pystr (if b then "B|" else "R|") ++ line) w = Ok [line].
Proof.
  intros Hbreaks Hline Hfit. unfold _split_lines.
  assert (Hstart : (startswith (pystr "B|") (pystr (if b then "B|" else "R|") ++ line)
                    || startswith (pystr "R|") (pystr (if b then "B|" else "R|") ++ line))%bool
                   = true) by (destruct b; reflexivity).
  rewrite Hstart.
  assert (Hskip : skipn 2 (pystr (if b then "B|" else "R|") ++ line) = line)
    by (destruct b; reflexivity).
  rewrite Hskip. unfold splitlines. rewrite splitlines_from_no_breaks by exact Hbreaks.
  rewrite app_nil_r.
  destruct (rev line) as [ | c r ] eqn:Hrev.
  - apply (f_equal (@rev ascii)) in Hrev. rewrite rev_involutive in Hrev.
    cbn in Hrev. congruence.
  - cbn [flush]. rewrite <- Hrev, rev_involutive. cbn [mapM].
    unfold split_line. destruct (Z.leb_spec (len line) w); [ | lia ].
    reflexivity.
Qed.

(** ** Plain wrapping of a long word *)

Lemma is_ws_isspace (c : ascii) : is_ws c = true -> isspace c = true.
Proof.
  unfold is_ws, isspace. destruct (between 9 13 c); [ reflexivity | ].
  cbn [orb]. intros H. apply Nat.eqb_eq in H. unfold between. rewrite H. reflexivity.
Qed.










Lemma rfind_from_absent (c : ascii) (x : list ascii) :
  forallb (fun d => negb (Ascii.eqb d c)) x = true ->
  forall i : Z, rfind_from c i x = -1.
Proof.
  induction x as [ | d x IH ]; intros H i; [ reflexivity | ].
  cbn [forallb] in H. apply andb_true_iff in H as [Hd Hx].
  cbn [rfind_from]. rewrite IH by exact Hx. cbn.
  apply negb_true_iff in Hd. now rewrite Hd.
Qed.




Lemma chop_from_nil (n w : nat) : chop_from n w [] = [].
Proof. destruct n; reflexivity. Qed.

Lemma chop_from_cons (n w : nat) (x : list ascii) :
  x <> [] -> chop_from (S n) w x = firstn w x :: chop_from n w (skipn w x).
Proof. destruct x; [ congruence | reflexivity ]. Qed.


(** What [chop] makes: the pieces joined are the text, no piece is
    longer than [w], and a text longer than [w] gives two pieces or more. *)
Lemma concat_chop_from (w : nat) :
  (0 < w)%nat ->
  forall (n : nat) (x : list ascii),
    (length x <= n)%nat -> concat (chop_from n w x) = x.
Proof.
  intros Hw n. induction n as [ | n IH ]; intros x Hn.
  - destruct x; [ reflexivity | cbn in Hn; lia ].
  - destruct x as [ | c x' ] eqn:Ex; [ reflexivity | ]. rewrite <- Ex in *.
    assert (Hchop : chop_from (S n) w x = firstn w x :: chop_from n w (skipn w x))
      by (rewrite Ex; reflexivity).
    rewrite Hchop. cbn [concat]. rewrite IH.
    + apply firstn_skipn.
    + rewrite length_skipn. rewrite Ex in *. cbn [length] in *. lia.
Qed.

Lemma chop_from_short (w : nat) (n : nat) (x : list ascii) :
  Forall (fun piece => (length piece <= w)%nat) (chop_from n w x).
Proof.
  revert x. induction n as [ | n IH ]; intros x; [ constructor | ].
  destruct x as [ | c x' ] eqn:Ex; [ constructor | ]. rewrite <- Ex.
  assert (Hchop : chop_from (S n) w x = firstn w x :: chop_from n w (skipn w x))
    by (rewrite Ex; reflexivity).
  rewrite Hchop. constructor; [ | apply IH ].
  rewrite length_firstn. lia.
Qed.





(** ** [_wrap_chunks] returns *)

Lemma passes_cons (ch : list ascii) (chunks : list (list ascii)) :
  passes (ch :: chunks) = (length ch + 1 + passes chunks)%nat.
Proof. unfold passes. cbn [concat length]. rewrite length_app. lia. Qed.

Lemma passes_app (a b : list (list ascii)) : passes (a ++ b) = (passes a + passes b)%nat.
Proof.
  induction a as [ | ch a IH ]; [ reflexivity | ].
  cbn [app]. rewrite !passes_cons, IH. lia.
Qed.

(** What the inner loop does: it takes a prefix of the chunks, and the
    chunk it stops at does not fit. *)
Lemma fill_spec (width : Z) (chunks : list (list ascii)) :
  forall (cur_line : list (list ascii)) (cur_len : Z),
  exists taken rest : list (list ascii),
    fill width cur_line cur_len chunks
    = (cur_line ++ taken, cur_len + len (concat taken), rest)
    /\ chunks = taken ++ rest
    /\ match rest with
       | [] => True
       | ch :: _ => width < cur_len + len (concat taken) + len ch
       end.
Proof.
  induction chunks as [ | ch chunks IH ]; intros cur_line cur_len.
  - exists [], []. cbn. rewrite app_nil_r, Z.add_0_r. auto.
  - cbn [fill]. destruct (Z.leb_spec (cur_len + len ch) width) as [Hfit | Hstop].
    + destruct (IH (cur_line ++ [ch]) (cur_len + len ch)) as (taken & rest & Hf & Hc & Hr).
      exists (ch :: taken), rest. rewrite Hf, Hc. cbn [concat app].
      rewrite len_app, <- app_assoc, Z.add_assoc. cbn [app]. repeat split.
      destruct rest; [ exact I | ]. lia.
    + exists [], (ch :: chunks). cbn [concat app]. change (len []) with 0.
      rewrite app_nil_r, !Z.add_0_r. repeat split. exact Hstop.
Qed.

Lemma length_slice_from (x : list ascii) (e : Z) :
  (length (slice_from x e) <= length x)%nat.
Proof. unfold slice_from. destruct (e <? 0); rewrite length_skipn; lia. Qed.

Lemma length_slice_from_lt (x : list ascii) (e : Z) :
  1 <= e -> x <> [] -> (length (slice_from x e) < length x)%nat.
Proof.
  intros He Hx. unfold slice_from. destruct (Z.ltb_spec e 0); [ lia | ].
  rewrite length_skipn. destruct x; [ congruence | cbn [length]; lia ].
Qed.

(** Where [_handle_long_word] cuts, when called on a line with room. *)
Lemma long_word_leaves_less (ch : list ascii) (rest cur_line : list (list ascii))
  (cur_len width : Z) :
  (passes (snd (_handle_long_word (ch :: rest) cur_line cur_len width))
   <= passes (ch :: rest))%nat
  /\ (cur_len = 0 -> ch <> [] ->
      (passes (snd (_handle_long_word (ch :: rest) cur_line cur_len width))
       < passes (ch :: rest))%nat).
Proof.
  unfold _handle_long_word. cbn [snd]. rewrite !passes_cons. split.
  - match goal with
    | |- context [slice_from ch ?e] => pose proof (length_slice_from ch e)
    end. lia.
  - intros -> Hch. rewrite Z.sub_0_r.
    set (space_left := if width <? 1 then 1 else width).
    assert (Hs : 1 <= space_left)
      by (unfold space_left; destruct (Z.ltb_spec width 1); lia).
    set (hyphen := rfind "-" ch space_left).
    match goal with |- context [slice_from ch ?e] => set (end_ := e) end.
    assert (He : 1 <= end_).
    { unfold end_. destruct (space_left <? len ch); cbn [andb]; [ | exact Hs ].
      destruct (Z.ltb_spec 0 hyphen); cbn [andb]; [ | exact Hs ].
      destruct (existsb _ _); lia. }
    pose proof (length_slice_from_lt ch end_ He Hch). lia.
Qed.

(** Every pass of the outer loop leaves less to do. *)
Lemma wrap_step_progress (w : Z) (subsequent_indent : list ascii)
  (lines chunks : list (list ascii)) :
  1 <= w -> chunks <> [] ->
  (passes (snd (wrap_step w subsequent_indent lines chunks)) < passes chunks)%nat.
Proof.
  intros Hw Hchunks. unfold wrap_step.
  set (indent_ := match lines with [] => initial_indent | _ :: _ => subsequent_indent end).
  set (width := w - len indent_).
  set (chunks1 := match chunks with
                  | [] => chunks
                  | ch :: rest =>
                      match lines with
                      | [] => chunks
                      | _ :: _ => if blank ch then rest else chunks
                      end
                  end).
  assert (Hdrop : (passes chunks1 < passes chunks)%nat
                  \/ (chunks1 = chunks
                      /\ match chunks with
                         | ch :: _ => ch = [] -> width = w
                         | [] => True
                         end)).
  { unfold chunks1. destruct chunks as [ | ch rest ]; [ congruence | ].
    destruct lines as [ | l lines' ].
    - right. split; [ reflexivity | ]. intros _. unfold width, indent_.
      change (len initial_indent) with 0. lia.
    - destruct (blank ch) eqn:Hb.
      + left. rewrite passes_cons. lia.
      + right. split; [ reflexivity | ]. intros ->. discriminate Hb. }
  destruct (fill_spec width chunks1 [] 0) as (taken & chunks2 & Hfill & Hsplit & Hstop).
  rewrite Hfill. cbn [app]. rewrite Z.add_0_l in *.
  assert (Hle : (passes chunks1 <= passes chunks)%nat)
    by (destruct Hdrop as [ H | [ -> _ ] ]; lia).
  assert (H12 : (passes chunks1 = passes taken + passes chunks2)%nat)
    by (rewrite Hsplit; apply passes_app).
  assert (Hpos : (0 < passes chunks)%nat)
    by (destruct chunks; [ congruence | rewrite passes_cons; lia ]).
  destruct chunks2 as [ | ch rest2 ].
  { cbn [snd]. exact Hpos. }
  assert (Htaken : taken <> [] -> (0 < passes taken)%nat)
    by (destruct taken; [ congruence | rewrite passes_cons; lia ]).
  destruct (Z.ltb_spec width (len ch)) as [Hlong | Hfits].
  - destruct (long_word_leaves_less ch rest2 taken (len (concat taken)) width)
      as [Hweak Hstrict].
    destruct (_handle_long_word (ch :: rest2) taken (len (concat taken)) width)
      as [cur_line chunks3] eqn:Hh.
    cbn [snd] in *.
    destruct taken as [ | t taken' ].
    + change (passes []) with 0%nat in H12.
      destruct Hdrop as [ Hlt | [ Heq Hempty ] ]; [ lia | ].
      cbn [app] in Hsplit. rewrite Heq in Hsplit. rewrite Hsplit in Hempty.
      assert (Hch : ch <> []).
      { intros ->. specialize (Hempty eq_refl). change (len []) with 0 in Hlong. lia. }
      specialize (Hstrict eq_refl Hch). lia.
    + specialize (Htaken ltac:(discriminate)). lia.
  - cbn [snd].
    destruct taken as [ | t taken' ].
    + change (len (concat [])) with 0 in Hstop. lia.
    + specialize (Htaken ltac:(discriminate)). lia.
Qed.

Lemma wrap_loop_terminates (w : Z) (subsequent_indent : list ascii) :
  1 <= w ->
  forall (bound : nat) (lines chunks : list (list ascii)),
    (passes chunks <= bound)%nat ->
    exists out, wrap_loop bound w subsequent_indent lines chunks = Some out.
Proof.
  intros Hw bound. induction bound as [ | bound IH ]; intros lines chunks Hb.
  - destruct chunks as [ | ch chunks ]; [ now exists lines | ].
    rewrite passes_cons in Hb. lia.
  - destruct chunks as [ | ch chunks ]; [ now exists lines | ].
    cbn [wrap_loop].
    pose proof (wrap_step_progress w subsequent_indent lines (ch :: chunks) Hw
                  ltac:(discriminate)) as Hp.
    destruct (wrap_step w subsequent_indent lines (ch :: chunks)) as [lines' chunks'].
    cbn [snd] in Hp. apply IH. lia.
Qed.

(** At a width of one or more, [wrap] returns lines: it raises nothing
    and its loop ends within its bound. *)
Lemma wrap_returns (subsequent_indent : list ascii) (w : Z) (text : list ascii) :
  1 <= w -> exists lines, wrap subsequent_indent w text = Ok lines.
Proof.
  intros Hw. unfold wrap, _wrap_chunks. destruct (Z.leb_spec w 0); [ lia | ].
  destruct (wrap_loop_terminates w subsequent_indent Hw
              (passes (_split_chunks text)) [] (_split_chunks text) (Nat.le_refl _))
    as [out ->].
  now exists out.
Qed.

Lemma wrap_raises (subsequent_indent : list ascii) (w : Z) (text : list ascii) :
  w <= 0 -> wrap subsequent_indent w text = Raise ValueError.
Proof.
  intros Hw. unfold wrap, _wrap_chunks. destruct (Z.leb_spec w 0); [ reflexivity | lia ].
Qed.

(** ** Rows of the table *)

Lemma mapM_result_ok {A B : Type} (f : A -> result B) (l : list A) :
  Forall (fun x => exists y, f x = Ok y) l ->
  exists ys, mapM f l = Ok ys /\ length ys = length l.
Proof.
  induction 1 as [ | x l [y Hy] _ [ys [IH Hlen]] ].
  - now exists [].
  - exists (y :: ys). cbn [mapM]. rewrite Hy, IH. cbn. now rewrite Hlen.
Qed.

Lemma nth_map_seq {A : Type} (f : nat -> A) (n j : nat) (d : A) :
  (j < n)%nat -> nth j (map f (seq 0 n)) d = f j.
Proof.
  intros Hj. rewrite (nth_indep _ d (f 0%nat)) by (rewrite length_map, length_seq; exact Hj).
  rewrite (map_nth f). now rewrite seq_nth.
Qed.

(** The lines of a row, one for each [j] below [row_rows]. *)
Lemma row_lines_inv (o : options) (col_widths : list Z) (alignments_ : list ascii)
  (i : nat) (row lines : list (list ascii)) :
  row_lines o col_widths alignments_ i row = Ok lines ->
  exists (wrapped : list (list (list ascii))) (row_rows : nat),
    wrap_row o row = Ok wrapped
    /\ max_len wrapped = Ok row_rows
    /\ length lines = row_rows
    /\ forall j : nat, (j < row_rows)%nat ->
         nth j lines []
         = finish o i row_rows j
             (joined o col_widths alignments_ i
                (if (Nat.eqb i 0 && bottom_align_header o)%bool
                 then bottom_align row_rows wrapped else wrapped) j).
Proof.
  unfold row_lines.
  destruct (wrap_row o row) as [wrapped | e] eqn:Hwrap; [ | discriminate ].
  cbn [mbind result_bind].
  destruct (max_len wrapped) as [row_rows | e] eqn:Hmax; [ | discriminate ].
  cbn [mbind result_bind]. intros [= <-].
  exists wrapped, row_rows.
  split; [ reflexivity | ]. split; [ exact Hmax | ].
  split; [ now rewrite length_map, length_seq | ].
  intros j Hj. now rewrite nth_map_seq.
Qed.

(** C4, as the code has it: the entry of [row_extra_text] for row [i]
    is put after the joined columns of every physical line of the row,
    the last and the others alike, before the line is styled. *)
Theorem C4_extra_on_every_line (o : options) (col_widths : list Z)
  (alignments_ : list ascii) (i : nat) (row lines : list (list ascii))
  (extra : list ascii) :
  row_extra_text o !! i = Some extra ->
  row_lines o col_widths alignments_ i row = Ok lines ->
  exists (wrapped : list (list (list ascii))) (row_rows : nat),
    wrap_row o row = Ok wrapped
    /\ max_len wrapped = Ok row_rows
    /\ length lines = row_rows
    /\ forall j : nat, (j < row_rows)%nat ->
         nth j lines []
         = times SP (indent o)
             ++ strip_underline row_rows j
                  (style o i
                     (joined o col_widths alignments_ i
                        (if (Nat.eqb i 0 && bottom_align_header o)%bool
                         then bottom_align row_rows wrapped else wrapped) j
                      ++ extra)).
Proof.
  intros Hextra Hlines.
  destruct (row_lines_inv _ _ _ _ _ _ Hlines)
    as (wrapped & row_rows & Hwrap & Hmax & Hlen & Hnth).
  exists wrapped, row_rows.
  split; [ exact Hwrap | ]. split; [ exact Hmax | ]. split; [ exact Hlen | ].
  intros j Hj. rewrite (Hnth j Hj). unfold finish, add_extra. now rewrite Hextra.
Qed.

Lemma C4_extra_on_every_line_witness :
  exists (wrapped : list (list (list ascii))) (row_rows : nat),
    wrap_row noted [pystr "alpha beta gamma"; pystr "10"] = Ok wrapped
    /\ max_len wrapped = Ok row_rows
    /\ length [pystr "  alpha         10 <-"; pystr "  beta             <-";
               pystr "  gamma            <-"] = row_rows
    /\ forall j : nat, (j < row_rows)%nat ->
         nth j [pystr "  alpha         10 <-"; pystr "  beta             <-";
                pystr "  gamma            <-"] []
         = times SP (indent noted)
             ++ strip_underline row_rows j
                  (style noted 1
                     (joined noted [8; 5] (pystr "LR") 1
                        (if (Nat.eqb 1 0 && bottom_align_header noted)%bool
                         then bottom_align row_rows wrapped else wrapped) j
                      ++ pystr " <-")).
Proof.
  apply (C4_extra_on_every_line noted [8; 5] (pystr "LR") 1
           [pystr "alpha beta gamma"; pystr "10"]);
    [ reflexivity | vm_compute; reflexivity ].
Defined.

(** C4 as it is stated does not hold: the second row wraps into three
    physical lines and the note is after each of them, not after the
    last only. *)
Lemma C4_counterexample :
  table_lines [[pystr "Name"; pystr "Count"]; [pystr "alpha beta gamma"; pystr "10"]]
    noted
  = Ok [pystr "  " ++ UNDERLINE ++ pystr "Name       Count" ++ END_FORMATTING;
        pystr "  alpha         10 <-";
        pystr "  beta             <-";
        pystr "  gamma            <-"].
Proof. vm_compute. reflexivity. Qed.

(** ** Underline on wrapped rows *)

(** What [sub_underline] does at the head of a text: it passes over an
    underline escape and keeps any other character. *)
Lemma sub_underline_head (y : list ascii) :
  y = []
  \/ (exists y', y = ESC :: y' /\ startswith UNDERLINE y = true)
  \/ (exists d y', y = d :: y' /\ startswith UNDERLINE y = false
                   /\ sub_underline y = d :: sub_underline y').
Proof.
  destruct y as [ | c1 [ | c2 [ | c3 [ | c4 rest ] ] ] ]; [ now left | | | | ].
  1-3: right; right; eexists _, _; split; [ reflexivity | ]; split; [ | reflexivity ];
       cbn; now rewrite ?andb_false_r.
  cbn [sub_underline].
  destruct (Ascii.eqb c1 ESC && Ascii.eqb c2 "[" && Ascii.eqb c3 "4" && Ascii.eqb c4 "m")%bool
    eqn:Hp.
  - right; left. apply andb_true_iff in Hp as [Hp H4]. apply andb_true_iff in Hp as [Hp H3].
    apply andb_true_iff in Hp as [H1 H2].
    apply Ascii.eqb_eq in H1, H2, H3, H4. subst. eexists. split; reflexivity.
  - right; right. eexists _, _. split; [ reflexivity | ]. split; [ | reflexivity ].
    cbn [startswith UNDERLINE pystr list_ascii_of_string].
    rewrite (Ascii.eqb_sym ESC), (Ascii.eqb_sym "["), (Ascii.eqb_sym "4"),
      (Ascii.eqb_sym "m").
    rewrite andb_true_r, !andb_assoc. exact Hp.
Qed.

Lemma startswith_app (p x : list ascii) :
  startswith p x = true -> exists rest, x = p ++ rest.
Proof.
  revert x. induction p as [ | a p IH ]; intros x H; [ now exists x | ].
  destruct x as [ | b x ]; [ discriminate H | ]. cbn [startswith] in H.
  apply andb_true_iff in H as [Hab H]. apply Ascii.eqb_eq in Hab. subst b.
  destruct (IH x H) as [rest ->]. now exists rest.
Qed.

Lemma contains_tail (sub x : list ascii) (c : ascii) :
  contains sub (c :: x) = false -> contains sub x = false.
Proof. cbn [contains]. intros H. now apply orb_false_iff in H as [_ H]. Qed.

Lemma contains_head (sub x : list ascii) :
  contains sub x = false -> startswith sub x = false.
Proof. destruct x; cbn [contains]; intros H; now apply orb_false_iff in H as [H _]. Qed.

Lemma broken_escape_tail (c : ascii) (x : list ascii) :
  broken_escape (c :: x) = false -> broken_escape x = false.
Proof.
  unfold broken_escape. rewrite !orb_false_iff. intros [[H1 H2] H3].
  repeat split; eapply contains_tail; eassumption.
Qed.

Lemma broken_escape_skipn (n : nat) (x : list ascii) :
  broken_escape x = false -> broken_escape (skipn n x) = false.
Proof.
  revert x. induction n as [ | n IH ]; intros x H; [ exact H | ].
  destruct x as [ | c x ]; [ exact H | ]. cbn [skipn].
  apply IH. eapply broken_escape_tail; eassumption.
Qed.

(** After an escape character that opens no underline escape, and with
    no broken escape about, what is left of the text does not start with
    the rest of an underline escape. *)
Lemma no_new_underline (x' : list ascii) :
  startswith UNDERLINE (ESC :: x') = false ->
  broken_escape (ESC :: x') = false ->
  startswith (pystr "[4m") (sub_underline x') = false.
Proof.
  intros Hstart Hbroken. unfold broken_escape in Hbroken.
  rewrite !orb_false_iff in Hbroken. destruct Hbroken as [[H1 H2] H3].
  apply contains_head in H1, H2, H3.
  destruct (sub_underline_head x') as [ -> | [ (y & -> & _) | (d1 & x1 & -> & _ & ->) ] ];
    [ reflexivity | cbn in H1; discriminate H1 | ].
  cbn [pystr list_ascii_of_string startswith].
  destruct (Ascii.eqb_spec "[" d1) as [ <- | ]; [ cbn [andb] | reflexivity ].
  destruct (sub_underline_head x1) as [ -> | [ (y & -> & _) | (d2 & x2 & -> & _ & ->) ] ];
    [ reflexivity | cbn in H2; discriminate H2 | ].
  cbn [startswith].
  destruct (Ascii.eqb_spec "4" d2) as [ <- | ]; [ cbn [andb] | reflexivity ].
  destruct (sub_underline_head x2) as [ -> | [ (y & -> & _) | (d3 & x3 & -> & _ & ->) ] ];
    [ reflexivity | cbn in H3; discriminate H3 | ].
  cbn [startswith].
  destruct (Ascii.eqb_spec "m" d3) as [ <- | ]; [ | reflexivity ].
  cbn in Hstart. discriminate Hstart.
Qed.

(** Where no escape is broken, one pass of the substitution leaves no
    underline escape. *)
Lemma sub_underline_clean (n : nat) :
  forall x : list ascii,
    (length x <= n)%nat -> broken_escape x = false ->
    contains UNDERLINE (sub_underline x) = false.
Proof.
  induction n as [ | n IH ]; intros x Hn Hbroken.
  - destruct x; [ reflexivity | cbn in Hn; lia ].
  - destruct (sub_underline_head x) as [ -> | [ (y & -> & Hs) | (d & y & -> & Hs & Hsub) ] ];
      [ reflexivity | | ].
    + apply startswith_app in Hs as [rest Hrest]. rewrite Hrest in *.
      change (sub_underline (UNDERLINE ++ rest)) with (sub_underline rest).
      apply IH; [ rewrite length_app in Hn; cbn [length UNDERLINE pystr] in Hn; lia | ].
      apply (broken_escape_skipn 4 _ Hbroken).
    + rewrite Hsub. cbn [contains]. apply orb_false_iff. split.
      * cbn [UNDERLINE startswith].
        destruct (Ascii.eqb_spec ESC d) as [ <- | ]; [ cbn [andb] | reflexivity ].
        now apply no_new_underline.
      * apply IH; [ cbn [length] in Hn; lia | ].
        eapply broken_escape_tail; eassumption.
Qed.

Lemma contains_after_spaces (n : nat) (x : list ascii) :
  contains UNDERLINE (repeat SP n ++ x) = contains UNDERLINE x.
Proof. induction n as [ | n IH ]; [ reflexivity | ]. cbn [repeat app contains]. exact IH. Qed.

(** A physical line [j] of a row that is not its last one is printed
    without underline escape when the styled line has no broken escape. *)
Lemma finish_no_underline (o : options) (i row_rows j : nat) (row_str : list ascii) :
  (j + 1 < row_rows)%nat ->
  broken_escape (style o i (add_extra o i row_str)) = false ->
  contains UNDERLINE (finish o i row_rows j row_str) = false.
Proof.
  intros Hj Hclean. unfold finish, times. rewrite contains_after_spaces.
  unfold strip_underline.
  destruct (Z.ltb_spec (Z.of_nat j) (Z.of_nat row_rows - 1)); [ | lia ]. cbn [andb].
  destruct (contains UNDERLINE (style o i (add_extra o i row_str))) eqn:Hc; [ | exact Hc ].
  eapply sub_underline_clean; [ reflexivity | exact Hclean ].
Qed.

(** C2, as the code has it: on every physical line of a wrapped row
    but the last, no underline escape is printed, provided the line as
    it is styled has no broken escape, an escape character with another
    one right after it or after the [[] or [[4] that follows it. *)
Theorem C2_underline_stripped (o : options) (col_widths : list Z)
  (alignments_ : list ascii) (i : nat) (row lines styled : list (list ascii))
  (j : nat) :
  row_lines o col_widths alignments_ i row = Ok lines ->
  styled_lines o col_widths alignments_ i row = Ok styled ->
  (j + 1 < length lines)%nat ->
  broken_escape (nth j styled []) = false ->
  contains UNDERLINE (nth j lines []) = false.
Proof.
  intros Hlines Hstyled Hj Hclean.
  destruct (row_lines_inv _ _ _ _ _ _ Hlines)
    as (wrapped & row_rows & Hwrap & Hmax & Hlen & Hnth).
  unfold styled_lines in Hstyled. rewrite Hwrap in Hstyled.
  cbn [mbind result_bind] in Hstyled. rewrite Hmax in Hstyled.
  cbn [mbind result_bind] in Hstyled. injection Hstyled as <-.
  rewrite nth_map_seq in Hclean by lia.
  rewrite Hnth by lia. apply finish_no_underline; [ lia | exact Hclean ].
Qed.

Lemma C2_underline_stripped_witness :
  contains UNDERLINE
    (nth 0 [pystr "  alpha           " ++ END_FORMATTING;
            pystr "  " ++ UNDERLINE ++ pystr "beta       Count" ++ END_FORMATTING] [])
  = false.
Proof.
  eapply (C2_underline_stripped noted [8; 5] (pystr "LR") 0
            [pystr "alpha beta"; pystr "Count"]);
    [ vm_compute; reflexivity | vm_compute; reflexivity | cbn; lia
    | vm_compute; reflexivity ].
Defined.

(** C2 as it is stated does not hold.  With the default options, the
    second row of the first table wraps into two physical lines, and
    the first of them is printed with the underline escape in it: the
    one pass of the substitution takes the inner escape of the cell
    away and what is around it closes to a new one.  In the second
    table no cell has an escape character: the header wraps into two
    lines, its underline escape has [4m] in it, which the substring
    styling underlines, and stripping leaves an underline escape at the
    start of the first line. *)
Lemma C2_counterexample :
  (table_lines
     [[pystr "Name"; pystr "Note"];
      [nested_underline; pystr "the quick brown fox jumps over the lazy dog"]]
     defaults
   = Ok [pystr "  " ++ UNDERLINE ++ pystr "Name   Note                          "
           ++ END_FORMATTING;
         pystr "  " ++ UNDERLINE ++ pystr "   the quick brown fox jumps over";
         pystr "         the lazy dog                  "]
   /\ contains UNDERLINE
        (pystr "  " ++ UNDERLINE ++ pystr "   the quick brown fox jumps over") = true)
  /\ (table_lines [[pystr "alpha beta"; pystr "Count"]; [pystr "x 4m"; pystr "1"]] marked
      = Ok [pystr "  " ++ UNDERLINE ++ END_FORMATTING ++ pystr "alpha           "
              ++ END_FORMATTING;
            pystr "  " ++ ESC :: pystr "[" ++ UNDERLINE ++ pystr "4m" ++ END_FORMATTING
              ++ pystr "beta       Count" ++ END_FORMATTING;
            pystr "  x " ++ UNDERLINE ++ pystr "4m" ++ END_FORMATTING ++ pystr "       1    "]
      /\ contains UNDERLINE
           (pystr "  " ++ UNDERLINE ++ END_FORMATTING ++ pystr "alpha           "
              ++ END_FORMATTING) = true).
Proof. vm_compute. repeat split; reflexivity. Qed.

(** ** Tables that fail and tables that do not *)

Lemma wrap_row_nil (o : options) : wrap_row o [] = Ok [].
Proof. unfold wrap_row. destruct (fixed_col_widths o); reflexivity. Qed.

(** A row without cells has no tallest cell. *)
Lemma row_lines_nil (o : options) (col_widths : list Z) (alignments_ : list ascii)
  (i : nat) :
  row_lines o col_widths alignments_ i [] = Raise ValueError.
Proof. unfold row_lines. now rewrite wrap_row_nil. Qed.

Lemma normalise_zero (table : list (list (list ascii))) :
  normalise 0 table = map (fun _ => []) table.
Proof. unfold normalise. apply map_ext. intros row. reflexivity. Qed.

(** A row with a cell, wrapped at usable widths, gives its lines. *)
Lemma row_lines_returns (o : options) (col_widths : list Z) (alignments_ : list ascii)
  (i : nat) (row : list (list ascii)) :
  widths_usable o -> row <> [] ->
  exists lines, row_lines o col_widths alignments_ i row = Ok lines.
Proof.
  intros Hw Hrow. unfold row_lines.
  assert (Hwrapped : exists wrapped, wrap_row o row = Ok wrapped /\ wrapped <> []).
  { unfold wrap_row, widths_usable in *.
    destruct (fixed_col_widths o) as [widths | ].
    - destruct Hw as [Hne Hall].
      destruct (mapM_result_ok
                  (fun '(col, fixed_width) => wrap (subsequent_indent o) fixed_width col)
                  (combine row widths)) as (ys & Hys & Hlen).
      + apply Forall_forall. intros [col fixed_width] Hin.
        apply in_combine_r in Hin. rewrite Forall_forall in Hall.
        apply wrap_returns. now apply Hall.
      + exists ys. split; [ exact Hys | ].
        intros ->. cbn [length] in Hlen. rewrite length_combine in Hlen.
        destruct row; [ congruence | ]. destruct widths; [ congruence | ].
        cbn [length] in Hlen. lia.
    - destruct (mapM_result_ok (wrap (subsequent_indent o) (max_col_width o)) row)
        as (ys & Hys & Hlen).
      + apply Forall_forall. intros col _. now apply wrap_returns.
      + exists ys. split; [ exact Hys | ].
        intros ->. destruct row; [ congruence | discriminate Hlen ]. }
  destruct Hwrapped as (wrapped & -> & Hne). cbn [mbind result_bind].
  destruct wrapped as [ | x wrapped ]; [ congruence | ].
  cbn [max_len mbind result_bind]. eauto.
Qed.

(** C7, as the code has it: a table with no rows fails, with an
    [IndexError]; a table whose rows have no columns fails with a
    [ValueError] as soon as a row of it is printed, and prints nothing,
    with no failure, when its only row is a hidden header; a table with
    a row and a column in it whose cells are wrapped at widths of one or
    more does not fail. *)
Theorem C7_table_shape_failures :
  (forall o : options, print_table [] o = Raise IndexError)
  /\ (forall (o : options) (rest : list (list (list ascii))),
        hide_header o = false \/ rest <> [] ->
        print_table ([] :: rest) o = Raise ValueError)
  /\ (forall o : options,
        hide_header o = true ->
        print_table [[]] o
        = if return_str o
          then Ok (if leading_newline o then [[]] else [], Some [])
          else Ok ((if leading_newline o then [[]] else []) ++ [], None))
  /\ (forall (o : options) (header : list (list ascii))
             (rest : list (list (list ascii))),
        header <> [] -> widths_usable o ->
        exists out, print_table (header :: rest) o = Ok out).
Proof.
  split; [ reflexivity | ]. split; [ | split ].
  - intros o rest Hprinted. unfold print_table, table_lines.
    cbn [column_count mbind result_bind length].
    rewrite normalise_zero. unfold enumerate. cbn [map length seq combine mapM].
    rewrite andb_true_r.
    destruct (hide_header o) eqn:Hh.
    + destruct Hprinted as [ Hf | Hrest ]; [ discriminate Hf | ].
      destruct rest as [ | row rest ]; [ congruence | ].
      cbn [map length seq combine mapM mbind result_bind Nat.eqb].
      rewrite andb_false_r, row_lines_nil. reflexivity.
    + rewrite row_lines_nil. reflexivity.
  - intros o Hh. unfold print_table, table_lines.
    cbn [column_count mbind result_bind length].
    unfold enumerate. cbn. rewrite Hh. cbn. reflexivity.
  - intros o header rest Hheader Hw. unfold print_table, table_lines.
    cbn [column_count mbind result_bind].
    set (n := length header). set (table := normalise n (header :: rest)).
    destruct (mapM_result_ok
                (fun '(i, row) =>
                   if (hide_header o && Nat.eqb i 0)%bool then Ok []
                   else row_lines o (resolve_col_widths o n table)
                          (resolve_alignments (alignments o) n) i row)
                (enumerate table)) as (rows & -> & _).
    + apply Forall_forall. intros [i row] Hin.
      destruct (hide_header o && Nat.eqb i 0)%bool; [ eauto | ].
      apply row_lines_returns; [ exact Hw | ].
      unfold enumerate in Hin. apply in_combine_r in Hin.
      unfold table, normalise in Hin. apply in_map_iff in Hin as (row0 & <- & _).
      intros Hnil. apply (f_equal (@length (list ascii))) in Hnil.
      rewrite length_normalise_row in Hnil. cbn [length] in Hnil.
      unfold n in Hnil. destruct header; [ congruence | discriminate Hnil ].
    + cbn [mbind result_bind]. destruct (return_str o); eauto.
Qed.

Lemma C7_table_shape_failures_witness :
  print_table [[]; []] headerless = Raise ValueError
  /\ print_table [[]] headerless = Ok ([], None)
  /\ exists out, print_table [[pystr "Name"]; [pystr "alpha"]] defaults = Ok out.
Proof.
  destruct C7_table_shape_failures as (_ & Hzero & Hhidden & Hgood).
  split; [ | split ].
  - apply Hzero. right. discriminate.
  - exact (Hhidden headerless eq_refl).
  - apply Hgood; [ discriminate | ]. unfold widths_usable. cbn. lia.
Defined.

(** C7 as it is stated does not hold: the table with no rows fails, and
    the table whose only row, a hidden header, has no columns gives its
    empty output without a word. *)
Lemma C7_counterexample :
  print_table [] defaults = Raise IndexError
  /\ print_table [[]] headerless = Ok ([], None)
  /\ print_table [[]] defaults = Raise ValueError.
Proof. vm_compute. repeat split; reflexivity. Qed.

(** * Further properties *)

(** ** Reverse complement *)

Lemma complement_base_valid (c : ascii) : valid_base (complement_base c) = true.
Proof. destruct c as [[] [] [] [] [] [] [] []]; vm_compute; reflexivity. Qed.

Lemma complement_base_twice (c : ascii) :
  complement_base (complement_base c) = c <-> valid_base c = true.
Proof.
  destruct c as [[] [] [] [] [] [] [] []]; vm_compute; split; intros H;
    solve [ reflexivity | discriminate H ].
Qed.

Lemma reverse_complement_twice (seq : list ascii) :
  reverse_complement (reverse_complement seq)
  = map (fun c => complement_base (complement_base c)) seq.
Proof.
  unfold reverse_complement. rewrite map_rev, rev_involutive. apply map_map.
Qed.

(** The reverse complement of the reverse complement of a sequence is
    the sequence again exactly when every base of it is one the
    dictionary knows; any other base has come back as [N]. *)
Theorem reverse_complement_involution (seq : list ascii) :
  reverse_complement (reverse_complement seq) = seq <-> forallb valid_base seq = true.
Proof.
  rewrite reverse_complement_twice. induction seq as [ | c seq IH ]; [ easy | ].
  cbn [map forallb]. rewrite andb_true_iff, <- IH, <- complement_base_twice.
  split.
  - intros Heq. injection Heq as Hc Hs. now split.
  - intros [Hc Hs]. now rewrite Hc, Hs.
Qed.

(** The reverse complement of two sequences put together is the reverse
    complements put together the other way round, and whatever the
    sequence, its reverse complement is made of bases of the dictionary
    and is as long. *)
Theorem reverse_complement_app (a b : list ascii) :
  reverse_complement (a ++ b) = reverse_complement b ++ reverse_complement a
  /\ forallb valid_base (reverse_complement a) = true
  /\ length (reverse_complement a) = length a.
Proof.
  unfold reverse_complement. split; [ | split ].
  - now rewrite map_app, rev_app_distr.
  - apply forallb_forall. intros c Hc. apply in_rev, in_map_iff in Hc as (c0 & <- & _).
    apply complement_base_valid.
  - now rewrite length_rev, length_map.
Qed.

(** ** Segment numbers *)

(** For two segment numbers that are not zero, a pair and the pair read
    the other way, on the other strand, come to the same pair, and one
    of the two is flipped and not the other, unless they are the same
    pair. *)
Theorem flip_number_order_canonical (num_1 num_2 : Z) :
  num_1 <> 0 -> num_2 <> 0 ->
  (flip_number_order num_1 num_2).1 = (flip_number_order (- num_2) (- num_1)).1
  /\ ((flip_number_order num_1 num_2).2 = negb (flip_number_order (- num_2) (- num_1)).2
      \/ num_1 = - num_2).
Proof.
  intros H1 H2. unfold flip_number_order.
  repeat match goal with
         | |- context [ ?a <? ?b ] => destruct (Z.ltb_spec a b)
         end; cbn [andb fst snd negb]; split; try (f_equal; lia); try (now left); try lia;
    right; lia.
Qed.

Lemma flip_number_order_canonical_witness :
  (flip_number_order (-7) 3).1 = (flip_number_order (-3) 7).1
  /\ ((flip_number_order (-7) 3).2 = negb (flip_number_order (-3) 7).2 \/ -7 = - 3).
Proof. apply (flip_number_order_canonical (-7) 3); discriminate. Defined.

(** For two numbers that are not zero, the pair that comes out is not
    flipped again, and it is the pair that went in exactly when the
    flag says that nothing was flipped. *)
Theorem flip_number_order_stable (num_1 num_2 : Z) :
  num_1 <> 0 -> num_2 <> 0 ->
  let '(a, b, flipped) := flip_number_order num_1 num_2 in
  flip_number_order a b = (a, b, false)
  /\ (flipped = false <-> (a, b) = (num_1, num_2)).
Proof.
  intros H1 H2. unfold flip_number_order.
  repeat match goal with
         | |- context [ ?a <? ?b ] => destruct (Z.ltb_spec a b)
         end; cbn [andb]; try lia;
    (split;
     [ repeat match goal with
              | |- context [ ?a <? ?b ] => destruct (Z.ltb_spec a b)
              end; cbn [andb]; try reflexivity; lia
     | split; intros Heq; try reflexivity; try discriminate Heq; inversion Heq; lia ]).
Qed.

Lemma flip_number_order_stable_witness :
  flip_number_order 3 7 = (3, 7, false)
  /\ (true = false <-> (3, 7) = (-7, -3)).
Proof. exact (flip_number_order_stable (-7) (-3) ltac:(discriminate) ltac:(discriminate)). Defined.

(** With a zero the pair can be flipped again and again. *)
Example flip_number_order_zero :
  flip_number_order 0 5 = (-5, 0, true) /\ flip_number_order (-5) 0 = (0, 5, true).
Proof. split; reflexivity. Qed.

(** ** Ranges *)

(** Two ranges that are not empty overlap, as [range_overlap] tells it,
    exactly when a position lies in both, and exactly when the size of
    their overlap is more than zero. *)
Theorem range_overlap_shared_position (x1 x2 y1 y2 : Z) :
  x1 < x2 -> y1 < y2 ->
  (range_overlap x1 x2 y1 y2 = true <-> exists p, (x1 <= p < x2) /\ (y1 <= p < y2))
  /\ (range_overlap x1 x2 y1 y2 = true <-> 0 < range_overlap_size (x1, x2) [(y1, y2)]).
Proof.
  intros Hx Hy. unfold range_overlap, range_overlap_size. cbn [fold_left fst snd].
  rewrite andb_true_iff, !Z.ltb_lt. split; split.
  - intros [H1 H2]. exists (Z.max x1 y1). lia.
  - intros (p & Hp1 & Hp2). lia.
  - lia.
  - lia.
Qed.

Lemma range_overlap_shared_position_witness :
  (range_overlap 0 10 5 20 = true <-> exists p, (0 <= p < 10) /\ (5 <= p < 20))
  /\ (range_overlap 0 10 5 20 = true <-> 0 < range_overlap_size (0, 10) [(5, 20)]).
Proof. apply range_overlap_shared_position; lia. Defined.

Lemma overlap_fold_bounds (start end_ : Z) (other_ranges : list (Z * Z)) :
  forall m : Z,
    let size :=
      fold_left
        (fun max_overlap other_range =>
           Z.max max_overlap (Z.min end_ other_range.2 - Z.max start other_range.1))
        other_ranges m in
    m <= size
    /\ size <= Z.max m (end_ - start)
    /\ (Exists (fun o => o.1 <= start /\ end_ <= o.2) other_ranges -> end_ - start <= size).
Proof.
  induction other_ranges as [ | o others IH ]; intros m; cbn [fold_left].
  - split; [ lia | ]. split; [ lia | ]. intros H. inversion H.
  - destruct (IH (Z.max m (Z.min end_ o.2 - Z.max start o.1))) as (Hlo & Hhi & Hin).
    cbn zeta in *. split; [ lia | ]. split; [ lia | ].
    intros Hex. inversion_clear Hex as [ ? ? Ho | ? ? Hrest ]; [ lia | now apply Hin ].
Qed.

(** The size of the largest overlap is never below zero and never above
    the length of the tested range; it is that length when the range is
    contained in one of the others. *)
Theorem range_overlap_size_bounds (start end_ : Z) (other_ranges : list (Z * Z)) :
  0 <= range_overlap_size (start, end_) other_ranges <= Z.max 0 (end_ - start)
  /\ (start <= end_ -> range_is_contained (start, end_) other_ranges = true ->
      range_overlap_size (start, end_) other_ranges = end_ - start).
Proof.
  unfold range_overlap_size, range_is_contained.
  destruct (overlap_fold_bounds start end_ other_ranges 0) as (Hlo & Hhi & Hin).
  cbn zeta in *. split; [ lia | ].
  intros Hse Hc. apply existsb_exists in Hc as (o & Ho & Hc).
  apply andb_true_iff in Hc as [H1 H2]. apply Z.leb_le in H1, H2.
  assert (Hex : Exists (fun o => o.1 <= start /\ end_ <= o.2) other_ranges)
    by (apply Exists_exists; exists o; auto).
  specialize (Hin Hex). lia.
Qed.

Lemma range_overlap_size_bounds_witness :
  0 <= range_overlap_size (3, 8) [(0, 5); (2, 9)] <= Z.max 0 (8 - 3)
  /\ (3 <= 8 -> range_is_contained (3, 8) [(0, 5); (2, 9)] = true ->
      range_overlap_size (3, 8) [(0, 5); (2, 9)] = 8 - 3).
Proof. apply (range_overlap_size_bounds 3 8 [(0, 5); (2, 9)]). Defined.

(** ** Lists without duplicates *)

Lemma remove_dupes_from_spec {A : Type} `{Countable A} (lst : list A) :
  forall seen : gset A,
    base.NoDup (remove_dupes_from seen lst)
    /\ (forall x, x ∈ remove_dupes_from seen lst <-> x ∈ lst /\ x ∉ seen)
    /\ sublist (remove_dupes_from seen lst) lst.
Proof.
  induction lst as [ | y lst IH ]; intros seen; cbn [remove_dupes_from].
  - split; [ constructor | ]. split; [ | constructor ].
    intros x. rewrite elem_of_nil. tauto.
  - destruct (decide (y ∈ seen)) as [Hy | Hy].
    + destruct (IH seen) as (Hnd & Hin & Hsub). split; [ exact Hnd | ].
      split; [ | now constructor ].
      intros x. rewrite Hin, elem_of_cons. split; [ tauto | ].
      intros [[-> | Hx] Hs]; [ contradiction | tauto ].
    + destruct (IH ({[ y ]} ∪ seen)) as (Hnd & Hin & Hsub). split; [ | split ].
      * apply NoDup_cons_2; [ | exact Hnd ]. rewrite Hin.
        rewrite elem_of_union, elem_of_singleton. tauto.
      * intros x. rewrite !elem_of_cons, Hin, elem_of_union, elem_of_singleton.
        destruct (decide (x = y)) as [-> | Hne]; tauto.
      * now constructor.
Qed.

(** What [remove_dupes_preserve_order] returns has no element twice,
    has the elements of the list and no other, and has them in the
    order of the list. *)
Theorem remove_dupes_no_dupes {A : Type} `{Countable A} (lst : list A) :
  base.NoDup (remove_dupes_preserve_order lst)
  /\ (forall x, x ∈ remove_dupes_preserve_order lst <-> x ∈ lst)
  /\ sublist (remove_dupes_preserve_order lst) lst.
Proof.
  destruct (remove_dupes_from_spec lst ∅) as (Hnd & Hin & Hsub).
  split; [ exact Hnd | ]. split; [ | exact Hsub ].
  intros x. unfold remove_dupes_preserve_order. rewrite Hin.
  pose proof (not_elem_of_empty (C := gset A) x). tauto.
Qed.

Lemma remove_dupes_from_filter {A : Type} `{Countable A} (lst : list A) :
  forall seen : gset A,
    remove_dupes_from seen lst
    = base.filter (fun y => y ∉ seen) (remove_dupes_from ∅ lst).
Proof.
  induction lst as [ | x lst IH ]; intros seen; [ reflexivity | ].
  cbn [remove_dupes_from].
  destruct (decide (x ∈ ∅)) as [Hx | _]; [ now apply not_elem_of_empty in Hx | ].
  rewrite (IH ({[ x ]} ∪ ∅)). rewrite filter_cons.
  destruct (decide (x ∈ seen)) as [Hs | Hs].
  - destruct (decide (x ∉ seen)) as [ ? | _ ]; [ contradiction | ].
    rewrite (IH seen), list_filter_filter. apply list_filter_iff.
    intros y. rewrite elem_of_union, elem_of_singleton.
    pose proof (not_elem_of_empty (C := gset A) y).
    split; [ | tauto ]. intros Hy. split; [ exact Hy | ].
    intros [-> | ?]; tauto.
  - destruct (decide (x ∉ seen)) as [ _ | ? ]; [ | contradiction ].
    rewrite (IH ({[ x ]} ∪ seen)), list_filter_filter. f_equal.
    apply list_filter_iff. intros y. rewrite !elem_of_union, elem_of_singleton.
    pose proof (not_elem_of_empty (C := gset A) y). tauto.
Qed.

Lemma filter_all {A : Type} (P : A -> Prop) `{forall x, Decision (P x)} (l : list A) :
  (forall x, x ∈ l -> P x) -> base.filter P l = l.
Proof.
  induction l as [ | x l IH ]; intros Hl; [ reflexivity | ].
  rewrite filter_cons_True by (apply Hl; left).
  f_equal. apply IH. intros y Hy. apply Hl. now right.
Qed.

(** It is the first of equal elements that is kept: the head of a list
    stays, and of what follows, freed of its duplicates, the elements
    that differ from it.  A list that has no element twice comes back
    as it is, so that doing it twice is doing it once. *)
Theorem remove_dupes_keeps_first {A : Type} `{Countable A} (x : A) (lst : list A) :
  remove_dupes_preserve_order (x :: lst)
  = x :: base.filter (fun y => y <> x) (remove_dupes_preserve_order lst)
  /\ (base.NoDup lst -> remove_dupes_preserve_order lst = lst)
  /\ remove_dupes_preserve_order (remove_dupes_preserve_order lst)
     = remove_dupes_preserve_order lst.
Proof.
  assert (Hfix : forall l : list A, base.NoDup l -> remove_dupes_preserve_order l = l).
  { unfold remove_dupes_preserve_order. intros l Hl.
    induction Hl as [ | z l Hz Hl IH ]; [ reflexivity | ].
    cbn [remove_dupes_from].
    destruct (decide (z ∈ ∅)) as [ Hx | _ ]; [ now apply not_elem_of_empty in Hx | ].
    f_equal. rewrite remove_dupes_from_filter, IH.
    apply filter_all. intros y Hy. rewrite elem_of_union, elem_of_singleton.
    pose proof (not_elem_of_empty (C := gset A) y).
    intros [-> | ?]; tauto. }
  split; [ | split ].
  - unfold remove_dupes_preserve_order. cbn [remove_dupes_from].
    destruct (decide (x ∈ ∅)) as [ Hx | _ ]; [ now apply not_elem_of_empty in Hx | ].
    f_equal. rewrite remove_dupes_from_filter. apply list_filter_iff.
    intros y. rewrite elem_of_union, elem_of_singleton.
    pose proof (not_elem_of_empty (C := gset A) y). tauto.
  - apply Hfix.
  - apply Hfix. apply remove_dupes_no_dupes.
Qed.

Lemma remove_dupes_keeps_first_witness :
  remove_dupes_preserve_order [3; 1; 3; 2; 1] = [3; 1; 2]
  /\ remove_dupes_preserve_order [3; 1; 2] = [3; 1; 2].
Proof.
  split.
  - vm_compute. reflexivity.
  - apply (proj1 (proj2 (remove_dupes_keeps_first 0 [3; 1; 2]))).
    repeat (apply NoDup_cons_2; [ intros Hx; repeat (apply elem_of_cons in Hx as [Hx | Hx]; [ discriminate Hx | ]); now apply elem_of_nil in Hx | ]).
    constructor.
Defined.

(** ** Lines and line breaks *)

Lemma no_newline_rev (x : list ascii) : no_newline (rev x) = no_newline x.
Proof.
  unfold no_newline. induction x as [ | c x IH ]; [ reflexivity | ].
  cbn [rev forallb]. rewrite forallb_app, IH. cbn [forallb].
  rewrite andb_true_r. apply andb_comm.
Qed.

Lemma line_iterator_from_line (line : list ascii) :
  no_newline line = true ->
  forall cur rest : list ascii,
    line_iterator_from cur (line ++ NL :: rest)
    = (rev cur ++ line) :: line_iterator_from [] rest.
Proof.
  induction line as [ | c line IH ]; intros Hl cur rest.
  - cbn. rewrite app_nil_r. reflexivity.
  - cbn [no_newline forallb] in Hl. apply andb_true_iff in Hl as [Hc Hl].
    apply negb_true_iff in Hc. cbn [app line_iterator_from]. rewrite Hc.
    rewrite (IH Hl). cbn [rev]. rewrite <- app_assoc. reflexivity.
Qed.

Lemma line_iterator_from_tail (t : list ascii) :
  no_newline t = true -> forall cur : list ascii, line_iterator_from cur t = [].
Proof.
  induction t as [ | c t IH ]; intros Ht cur; [ reflexivity | ].
  cbn [no_newline forallb] in Ht. apply andb_true_iff in Ht as [Hc Ht].
  apply negb_true_iff in Hc. cbn [line_iterator_from]. rewrite Hc. now apply IH.
Qed.

Lemma line_iterator_terminated (lines : list (list ascii)) (t : list ascii) :
  Forall (fun line => no_newline line = true) lines ->
  no_newline t = true ->
  line_iterator (terminated lines ++ t) = lines.
Proof.
  intros Hlines Ht. unfold line_iterator.
  induction Hlines as [ | line lines Hline Hlines IH ].
  - now apply line_iterator_from_tail.
  - unfold terminated. cbn [map concat]. rewrite <- !app_assoc. cbn [app].
    rewrite (line_iterator_from_line line Hline). cbn [rev app]. f_equal. exact IH.
Qed.

Lemma line_iterator_from_parts (x : list ascii) :
  forall cur : list ascii,
    no_newline cur = true ->
    exists t,
      rev cur ++ x = terminated (line_iterator_from cur x) ++ t
      /\ no_newline t = true
      /\ Forall (fun line => no_newline line = true) (line_iterator_from cur x).
Proof.
  induction x as [ | c x IH ]; intros cur Hcur.
  - exists (rev cur). cbn. rewrite app_nil_r, no_newline_rev. auto.
  - cbn [line_iterator_from]. destruct (Ascii.eqb c NL) eqn:Ec.
    + apply Ascii.eqb_eq in Ec. subst c.
      destruct (IH [] eq_refl) as (t & Ht & Hn & Hall). exists t.
      cbn [rev app] in Ht. split; [ | split ].
      * unfold terminated in *. cbn [map concat]. rewrite <- !app_assoc. cbn [app].
        rewrite <- Ht. reflexivity.
      * exact Hn.
      * constructor; [ now rewrite no_newline_rev | exact Hall ].
    + destruct (IH (c :: cur)) as (t & Ht & Hn & Hall).
      { cbn [no_newline forallb]. rewrite Ec. exact Hcur. }
      exists t. cbn [rev] in Ht. rewrite <- app_assoc in Ht. auto.
Qed.

(** What [line_iterator] yields is the lines that end in a line feed,
    in their order and without it: the string is these lines, a line
    feed after each, and then a rest that has no line feed and is not
    yielded. *)
Theorem line_iterator_decomposes (string_with_line_breaks : list ascii) :
  exists t,
    string_with_line_breaks
    = terminated (line_iterator string_with_line_breaks) ++ t
    /\ no_newline t = true
    /\ Forall (fun line => no_newline line = true)
         (line_iterator string_with_line_breaks).
Proof. exact (line_iterator_from_parts string_with_line_breaks [] eq_refl). Qed.

(** Lines without a line feed, written with a line feed after each and
    any text without one after the last, are what [line_iterator]
    yields from the string. *)
Theorem line_iterator_of_lines (lines : list (list ascii)) (t : list ascii) :
  Forall (fun line => no_newline line = true) lines ->
  no_newline t = true ->
  line_iterator (terminated lines ++ t) = lines.
Proof. apply line_iterator_terminated. Qed.

Lemma line_iterator_of_lines_witness :
  line_iterator (terminated [pystr "ab"; []; pystr "c"] ++ pystr "d")
  = [pystr "ab"; []; pystr "c"].
Proof.
  apply line_iterator_of_lines; [ | reflexivity ].
  repeat constructor.
Defined.

Lemma slice_piece (sequence : list ascii) (pos line_length : Z) :
  0 <= pos < len sequence -> 0 < line_length ->
  slice sequence pos (pos + line_length)
  = firstn (Z.to_nat line_length) (skipn (Z.to_nat pos) sequence).
Proof.
  intros Hp HL. unfold slice, slice_index.
  rewrite (proj2 (Z.ltb_ge pos 0)) by lia.
  rewrite (proj2 (Z.ltb_ge (pos + line_length) 0)) by lia.
  rewrite (Z.min_l pos) by lia.
  destruct (Z.le_gt_cases (pos + line_length) (len sequence)).
  - rewrite Z.min_l by lia. f_equal. lia.
  - rewrite Z.min_r by lia.
    rewrite !firstn_all2; [ reflexivity | | ]; rewrite length_skipn; unfold len in *; lia.
Qed.

Lemma add_line_breaks_loop_chop (sequence : list ascii) (line_length : Z) :
  0 < line_length ->
  forall (bound : nat) (pos : Z) (seq_with_breaks : list ascii),
    0 <= pos ->
    (length (skipn (Z.to_nat pos) sequence) <= bound)%nat ->
    add_line_breaks_loop bound sequence line_length pos seq_with_breaks
    = Ok (seq_with_breaks
          ++ terminated (chop_from bound (Z.to_nat line_length)
                           (skipn (Z.to_nat pos) sequence))).
Proof.
  intros HL. induction bound as [ | b IH ]; intros pos acc Hpos Hb.
  - cbn [add_line_breaks_loop chop_from]. rewrite length_skipn in Hb.
    rewrite (proj2 (Z.ltb_ge _ _)) by (unfold len; lia).
    unfold terminated. cbn. rewrite app_nil_r. reflexivity.
  - cbn [add_line_breaks_loop]. destruct (pos <? len sequence) eqn:E.
    + apply Z.ltb_lt in E.
      assert (Hskip : skipn (Z.to_nat (pos + line_length)) sequence
                      = skipn (Z.to_nat line_length) (skipn (Z.to_nat pos) sequence)).
      { rewrite skipn_skipn. f_equal. lia. }
      assert (Hne : skipn (Z.to_nat pos) sequence <> []).
      { intros H0. apply (f_equal (@length ascii)) in H0.
        rewrite length_skipn in H0. cbn in H0. unfold len in E. lia. }
      rewrite IH; [ | lia | ].
      * rewrite slice_piece by lia. rewrite (chop_from_cons b _ _ Hne), Hskip.
        unfold terminated. cbn [map concat]. rewrite <- !app_assoc. reflexivity.
      * rewrite Hskip, length_skipn. lia.
    + apply Z.ltb_ge in E. rewrite skipn_all2 by (unfold len in E; lia).
      rewrite chop_from_nil. unfold terminated. cbn. rewrite app_nil_r. reflexivity.
Qed.

Lemma chop_from_forallb (P : ascii -> bool) (n w : nat) (x : list ascii) :
  forallb P x = true -> Forall (fun piece => forallb P piece = true) (chop_from n w x).
Proof.
  revert x. induction n as [ | n IH ]; intros x Hx; [ constructor | ].
  destruct x as [ | c x' ] eqn:Ex; [ constructor | ]. rewrite <- Ex in *.
  assert (Hchop : chop_from (S n) w x = firstn w x :: chop_from n w (skipn w x))
    by (rewrite Ex; reflexivity).
  rewrite Hchop. rewrite <- (firstn_skipn w x), forallb_app in Hx.
  apply andb_true_iff in Hx as [H1 H2]. constructor; [ exact H1 | now apply IH ].
Qed.

Lemma chop_from_pieces (n w : nat) (x : list ascii) :
  (0 < w)%nat -> Forall (fun piece => piece <> []) (chop_from n w x).
Proof.
  intros Hw. revert x. induction n as [ | n IH ]; intros x; [ constructor | ].
  destruct x as [ | c x' ]; [ constructor | ].
  cbn [chop_from]. constructor; [ | apply IH ].
  destruct w; [ lia | discriminate ].
Qed.

Lemma sequence_lines_chop (w : nat) (sequence : list ascii) :
  sequence <> [] -> sequence_lines w sequence = chop w sequence.
Proof. destruct sequence; [ congruence | reflexivity ]. Qed.

Lemma add_line_breaks_lines (BASES_PER_FASTA_LINE : Z) (sequence : list ascii)
  (line_length : Z) :
  0 < (if line_length <=? 0 then BASES_PER_FASTA_LINE else line_length) ->
  add_line_breaks_to_sequence BASES_PER_FASTA_LINE sequence line_length
  = Ok (terminated
          (sequence_lines
             (Z.to_nat (if line_length <=? 0 then BASES_PER_FASTA_LINE else line_length))
             sequence)).
Proof.
  set (L := if line_length <=? 0 then BASES_PER_FASTA_LINE else line_length).
  intros HL. destruct sequence as [ | c s ] eqn:Es; [ reflexivity | ].
  rewrite <- Es.
  assert (Hrun : add_line_breaks_to_sequence BASES_PER_FASTA_LINE sequence line_length
                 = add_line_breaks_loop (length sequence) sequence L 0 [])
    by (rewrite Es; reflexivity).
  rewrite Hrun.
  rewrite (add_line_breaks_loop_chop sequence L HL (length sequence) 0 []
             (Z.le_refl 0) (Nat.le_refl _)).
  cbn [Z.to_nat skipn app]. fold (chop (Z.to_nat L) sequence).
  rewrite sequence_lines_chop by (rewrite Es; discriminate). reflexivity.
Qed.

Lemma sequence_lines_forallb (P : ascii -> bool) (w : nat) (sequence : list ascii) :
  forallb P sequence = true ->
  Forall (fun piece => forallb P piece = true) (sequence_lines w sequence).
Proof.
  intros Hs. destruct sequence as [ | c s ] eqn:Es.
  - repeat constructor.
  - rewrite <- Es in *. rewrite sequence_lines_chop by (rewrite Es; discriminate).
    now apply chop_from_forallb.
Qed.

Lemma concat_sequence_lines (w : nat) (sequence : list ascii) :
  (0 < w)%nat -> concat (sequence_lines w sequence) = sequence.
Proof.
  intros Hw. destruct sequence as [ | c s ] eqn:Es; [ reflexivity | ].
  rewrite <- Es. rewrite sequence_lines_chop by (rewrite Es; discriminate).
  apply concat_chop_from; [ exact Hw | lia ].
Qed.

(** A sequence without a line feed, wrapped at a line length of one or
    more, is split into lines that end in a line feed each, none longer
    than the line length and all but the last of that length; the
    lines that [line_iterator] reads back, joined, are the sequence.
    The empty sequence gives one empty line. *)
Theorem add_line_breaks_round_trip (BASES_PER_FASTA_LINE : Z) (sequence : list ascii)
  (line_length : Z) :
  0 < (if line_length <=? 0 then BASES_PER_FASTA_LINE else line_length) ->
  no_newline sequence = true ->
  exists seq_with_breaks,
    add_line_breaks_to_sequence BASES_PER_FASTA_LINE sequence line_length
    = Ok seq_with_breaks
    /\ seq_with_breaks = terminated (line_iterator seq_with_breaks)
    /\ line_iterator seq_with_breaks
       = sequence_lines
           (Z.to_nat (if line_length <=? 0 then BASES_PER_FASTA_LINE else line_length))
           sequence
    /\ concat (line_iterator seq_with_breaks) = sequence
    /\ Forall (fun line =>
                 len line <= (if line_length <=? 0 then BASES_PER_FASTA_LINE
                              else line_length))
         (line_iterator seq_with_breaks).
Proof.
  intros HL Hseq. rewrite (add_line_breaks_lines _ _ _ HL).
  set (L := if line_length <=? 0 then BASES_PER_FASTA_LINE else line_length) in *.
  exists (terminated (sequence_lines (Z.to_nat L) sequence)).
  assert (Hit : line_iterator (terminated (sequence_lines (Z.to_nat L) sequence))
                = sequence_lines (Z.to_nat L) sequence).
  { rewrite <- (app_nil_r (terminated _)).
    apply line_iterator_terminated; [ | reflexivity ].
    now apply sequence_lines_forallb. }
  rewrite Hit. split; [ reflexivity | ]. split; [ reflexivity | ].
  split; [ reflexivity | ]. split.
  - apply concat_sequence_lines. lia.
  - destruct sequence as [ | c s ].
    + constructor; [ change (0 <= L); lia | constructor ].
    + eapply Forall_impl; [ | apply chop_from_short ].
      intros piece Hp. cbn beta in Hp. unfold len. lia.
Qed.

Lemma add_line_breaks_round_trip_witness :
  exists seq_with_breaks,
    add_line_breaks_to_sequence 70 (pystr "ACGTACGTAC") 4 = Ok seq_with_breaks
    /\ seq_with_breaks = terminated (line_iterator seq_with_breaks)
    /\ line_iterator seq_with_breaks = sequence_lines 4 (pystr "ACGTACGTAC")
    /\ concat (line_iterator seq_with_breaks) = pystr "ACGTACGTAC"
    /\ Forall (fun line => len line <= 4) (line_iterator seq_with_breaks).
Proof.
  apply (add_line_breaks_round_trip 70 (pystr "ACGTACGTAC") 4); [ reflexivity | reflexivity ].
Defined.

(** ** FASTA records *)

Lemma forallb_weaken (P Q : ascii -> bool) (x : list ascii) :
  (forall c, P c = true -> Q c = true) -> forallb P x = true -> forallb Q x = true.
Proof.
  intros HPQ. induction x as [ | c x IH ]; [ reflexivity | ]. cbn [forallb].
  rewrite !andb_true_iff. intros [Hc Hx]. auto.
Qed.

Lemma no_space_no_newline (x : list ascii) : no_space x = true -> no_newline x = true.
Proof.
  apply forallb_weaken. intros c Hc. apply negb_true_iff in Hc. apply negb_true_iff.
  destruct (Ascii.eqb c NL) eqn:Ec; [ | reflexivity ].
  apply Ascii.eqb_eq in Ec. subst c. discriminate Hc.
Qed.

Lemma sequence_char_no_space (x : list ascii) :
  forallb sequence_char x = true -> no_space x = true.
Proof.
  apply forallb_weaken. intros c Hc. unfold sequence_char in Hc.
  now apply andb_true_iff in Hc as [Hc _].
Qed.

Lemma no_space_rev (x : list ascii) : no_space (rev x) = no_space x.
Proof.
  unfold no_space. induction x as [ | c x IH ]; [ reflexivity | ].
  cbn [rev forallb]. rewrite forallb_app, IH. cbn [forallb].
  rewrite andb_true_r. apply andb_comm.
Qed.

Lemma lstrip_no_space (x : list ascii) : no_space x = true -> lstrip x = x.
Proof.
  destruct x as [ | c x ]; [ reflexivity | ]. cbn [no_space forallb lstrip].
  intros Hx. apply andb_true_iff in Hx as [Hc _]. apply negb_true_iff in Hc.
  now rewrite Hc.
Qed.

Lemma lstrip_NL (x : list ascii) : lstrip (NL :: x) = lstrip x.
Proof. reflexivity. Qed.

Lemma strip_line (x : list ascii) : no_space x = true -> strip (x ++ [NL]) = x.
Proof.
  intros Hx. unfold strip. destruct x as [ | c x ]; [ reflexivity | ].
  assert (Hc : isspace c = false).
  { cbn [no_space forallb] in Hx. apply andb_true_iff in Hx as [Hc _].
    now apply negb_true_iff in Hc. }
  cbn [app lstrip]. rewrite Hc. change (c :: x ++ [NL]) with ((c :: x) ++ [NL]).
  rewrite rev_app_distr. change (rev [NL] ++ rev (c :: x)) with (NL :: rev (c :: x)).
  rewrite lstrip_NL, lstrip_no_space by (now rewrite no_space_rev).
  apply rev_involutive.
Qed.

Lemma split_whitespace_from_word (x : list ascii) :
  no_space x = true ->
  forall cur : list ascii, split_whitespace_from cur x = flush (rev x ++ cur).
Proof.
  induction x as [ | c x IH ]; intros Hx cur; [ reflexivity | ].
  cbn [no_space forallb] in Hx. apply andb_true_iff in Hx as [Hc Hx].
  apply negb_true_iff in Hc. cbn [split_whitespace_from rev].
  rewrite Hc, (IH Hx), <- app_assoc. reflexivity.
Qed.

Lemma first_word_one_word (name : list ascii) :
  name <> [] -> no_space name = true -> first_word name = Ok name.
Proof.
  intros Hn Hs. unfold first_word, split_whitespace.
  rewrite (split_whitespace_from_word name Hs), app_nil_r. unfold flush.
  destruct (rev name) as [ | c r ] eqn:E.
  - apply (f_equal (@rev ascii)) in E. rewrite rev_involutive in E. contradiction.
  - rewrite <- E, rev_involutive. reflexivity.
Qed.

Lemma lstrip_starts (x : list ascii) :
  lstrip x = [] \/ exists c r, lstrip x = c :: r /\ isspace c = false.
Proof.
  induction x as [ | c x IH ]; [ now left | ]. cbn [lstrip].
  destruct (isspace c) eqn:Ec; [ exact IH | right; eauto ].
Qed.

Lemma strip_ends (x : list ascii) : named (strip x).
Proof.
  unfold strip.
  destruct (lstrip_starts (rev (lstrip x))) as [-> | (c & r & -> & Hc)];
    [ now left | right ].
  exists (rev r), c. cbn [rev]. auto.
Qed.

Lemma split_whitespace_from_nil (x : list ascii) :
  forall cur : list ascii,
    split_whitespace_from cur x = [] -> cur = [] /\ forallb isspace x = true.
Proof.
  induction x as [ | c x IH ]; intros cur; cbn [split_whitespace_from forallb].
  - destruct cur; [ auto | discriminate ].
  - destruct (isspace c) eqn:Ec.
    + intros Happ. apply app_eq_nil in Happ as [H1 H2].
      destruct cur; [ | discriminate H1 ]. apply IH in H2 as [_ H2]. auto.
    + intros Hs. apply IH in Hs as [Hc _]. discriminate Hc.
Qed.

Lemma flush_words (cur : list ascii) :
  no_space cur = true ->
  Forall (fun w => w <> [] /\ no_space w = true) (flush cur).
Proof.
  intros Hcur. destruct cur as [ | c cur' ] eqn:Ec; [ constructor | ].
  cbn [flush]. constructor; [ | constructor ]. split.
  - cbn [rev]. intros H0. apply app_eq_nil in H0 as [_ H0]. discriminate H0.
  - now rewrite no_space_rev.
Qed.

Lemma split_whitespace_from_words (x : list ascii) :
  forall cur : list ascii,
    no_space cur = true ->
    Forall (fun w => w <> [] /\ no_space w = true) (split_whitespace_from cur x).
Proof.
  induction x as [ | c x IH ]; intros cur Hcur; cbn [split_whitespace_from].
  - now apply flush_words.
  - destruct (isspace c) eqn:Ec.
    + apply Forall_app. split; [ now apply flush_words | now apply IH ].
    + apply IH. cbn [no_space forallb]. now rewrite Ec.
Qed.

Lemma first_word_returns (name : list ascii) :
  ends_in_word name ->
  exists w, first_word name = Ok w /\ w <> [] /\ no_space w = true.
Proof.
  intros (y & c & -> & Hc). unfold first_word.
  pose proof (split_whitespace_from_words (y ++ [c]) [] eq_refl) as Hw.
  fold (split_whitespace (y ++ [c])) in Hw.
  destruct (split_whitespace (y ++ [c])) as [ | w ws ] eqn:E.
  - apply split_whitespace_from_nil in E as [_ Hall]. rewrite forallb_app in Hall.
    apply andb_true_iff in Hall as [_ H2]. cbn [forallb] in H2. rewrite Hc in H2.
    discriminate H2.
  - inversion_clear Hw as [ | ? ? Hw1 _ ]. exists w. tauto.
Qed.

Lemma fasta_flush_returns (reset : bool) (st : fasta_state) :
  named (fasta_name st) -> Forall record_ok (fasta_seqs st) ->
  exists st',
    fasta_flush reset st = Ok st'
    /\ fasta_name st' = fasta_name st
    /\ Forall record_ok (fasta_seqs st').
Proof.
  intros Hn Hall. unfold fasta_flush.
  destruct (fasta_name st) as [ | c name ] eqn:En; cbn [truthy].
  - exists st. rewrite En. auto.
  - destruct Hn as [Hn | Hn]; [ discriminate Hn | ].
    destruct (first_word_returns _ Hn) as (w & Hw & Hne & Hs). rewrite Hw.
    cbn [mbind result_bind]. eexists. split; [ reflexivity | ].
    cbn [fasta_name fasta_seqs]. split; [ reflexivity | ].
    apply Forall_app. split; [ exact Hall | ].
    constructor; [ | constructor ]. unfold record_ok. cbn [fst snd]. auto.
Qed.

Lemma fasta_line_returns (st : fasta_state) (line : list ascii) :
  named (fasta_name st) -> Forall record_ok (fasta_seqs st) ->
  exists st',
    fasta_line st line = Ok st'
    /\ named (fasta_name st')
    /\ Forall record_ok (fasta_seqs st').
Proof.
  intros Hn Hall. unfold fasta_line. pose proof (strip_ends line) as He.
  destruct (strip line) as [ | c rest ]; [ exists st; auto | ].
  destruct (Ascii.eqb c ">").
  - destruct (fasta_flush_returns true st Hn Hall) as (st' & -> & _ & Hall').
    cbn [mbind result_bind]. eexists. split; [ reflexivity | ].
    cbn [fasta_name fasta_seqs]. split; [ | exact Hall' ].
    destruct He as [He | (y & c' & Ey & Hc')]; [ discriminate He | ].
    destruct rest as [ | r rest' ]; [ now left | right ].
    destruct y as [ | y0 y' ]; [ discriminate Ey | ].
    cbn [app] in Ey. injection Ey as _ Ey. exists y', c'. auto.
  - eexists. split; [ reflexivity | ]. cbn [fasta_name fasta_seqs]. auto.
Qed.

Lemma fasta_lines_returns (lines : list (list ascii)) :
  forall st : fasta_state,
    named (fasta_name st) -> Forall record_ok (fasta_seqs st) ->
    exists st',
      fasta_lines st lines = Ok st'
      /\ named (fasta_name st')
      /\ Forall record_ok (fasta_seqs st').
Proof.
  induction lines as [ | line lines IH ]; intros st Hn Hall.
  - exists st. auto.
  - cbn [fasta_lines].
    destruct (fasta_line_returns st line Hn Hall) as (st1 & -> & Hn1 & Hall1).
    cbn [mbind result_bind]. now apply IH.
Qed.

(** Reading FASTA lines does not fail, whatever the lines are: a name
    that is kept ends in a word, so that its first word exists.  Every
    record has a name that is not empty, has no space character and is
    the first word of the header; [load_fasta] gives the same records
    without the headers. *)
Theorem load_fasta_returns (lines : list (list ascii)) :
  exists records,
    load_fasta_with_full_header lines = Ok records
    /\ load_fasta lines = Ok (map (fun record => (record.1.1, record.2)) records)
    /\ Forall (fun record =>
                 record.1.1 <> [] /\ no_space record.1.1 = true
                 /\ first_word record.1.2 = Ok record.1.1) records.
Proof.
  assert (Hfull : exists records,
             load_fasta_with_full_header lines = Ok records
             /\ Forall record_ok records).
  { unfold load_fasta_with_full_header.
    destruct (fasta_lines_returns lines
                {| fasta_name := []; fasta_sequence := []; fasta_seqs := [] |})
      as (st & -> & Hn & Hall); [ now left | constructor | ].
    cbn [mbind result_bind].
    destruct (fasta_flush_returns false st Hn Hall) as (st' & -> & _ & Hall').
    cbn [mbind result_bind]. eauto. }
  destruct Hfull as (records & Hfull & Hall). exists records.
  split; [ exact Hfull | ]. split; [ | exact Hall ].
  unfold load_fasta. rewrite Hfull. cbn [mbind result_bind]. f_equal.
  apply map_ext. intros [[word header] sequence]. reflexivity.
Qed.

Lemma fasta_pieces (pieces rest : list (list ascii)) :
  Forall (fun piece => forallb sequence_char piece = true) pieces ->
  forall st : fasta_state,
    fasta_lines st (map (fun piece => piece ++ [NL]) pieces ++ rest)
    = fasta_lines {| fasta_name := fasta_name st;
                     fasta_sequence := fasta_sequence st ++ concat pieces;
                     fasta_seqs := fasta_seqs st |} rest.
Proof.
  induction 1 as [ | p ps Hp Hps IH ]; intros st.
  - cbn [map app concat]. rewrite app_nil_r. destruct st; reflexivity.
  - cbn [map app fasta_lines concat].
    assert (Hl : fasta_line st (p ++ [NL])
                 = Ok {| fasta_name := fasta_name st;
                         fasta_sequence := fasta_sequence st ++ p;
                         fasta_seqs := fasta_seqs st |}).
    { unfold fasta_line. rewrite strip_line by now apply sequence_char_no_space.
      destruct p as [ | c p' ].
      - rewrite app_nil_r. destruct st; reflexivity.
      - cbn [forallb] in Hp. apply andb_true_iff in Hp as [Hc _].
        unfold sequence_char in Hc. apply andb_true_iff in Hc as [_ Hc].
        apply negb_true_iff in Hc. rewrite Hc. reflexivity. }
    rewrite Hl. cbn [mbind result_bind]. rewrite IH.
    cbn [fasta_name fasta_sequence fasta_seqs]. rewrite <- app_assoc. reflexivity.
Qed.

Lemma fasta_records (w : nat) (records : list (list ascii * list ascii)) :
  (0 < w)%nat ->
  Forall (fun record => one_word_record record = true) records ->
  forall st : fasta_state,
    (fasta_name st = [] -> fasta_sequence st = []) ->
    no_space (fasta_name st) = true ->
    (st' ← fasta_lines st
            (flat_map (fun record =>
                         (">"%char :: record.1 ++ [NL])
                         :: map (fun piece => piece ++ [NL]) (sequence_lines w record.2))
               records);
     st'' ← fasta_flush false st';
     Ok (fasta_seqs st''))
    = Ok (fasta_seqs st
          ++ (if truthy (fasta_name st)
              then [(fasta_name st, fasta_name st, fasta_sequence st)] else [])
          ++ map (fun record => (record.1, record.1, record.2)) records).
Proof.
  intros Hw. induction 1 as [ | [n s] records Hr Hrecords IH ]; intros st Hseq Hname.
  - cbn [flat_map fasta_lines mbind result_bind map]. unfold fasta_flush.
    destruct (fasta_name st) as [ | c name ] eqn:En; cbn [truthy].
    + cbn [mbind result_bind app]. now rewrite app_nil_r.
    + rewrite first_word_one_word by (rewrite <- ?En; congruence).
      cbn [mbind result_bind fasta_seqs]. now rewrite app_nil_r.
  - unfold one_word_record in Hr. cbn [fst snd] in Hr.
    apply andb_true_iff in Hr as [Hr Hs]. apply andb_true_iff in Hr as [Hn Hns].
    cbn [flat_map fst snd]. rewrite <- app_comm_cons. cbn [fasta_lines].
    assert (Hl : fasta_line st (">"%char :: n ++ [NL])
                 = Ok {| fasta_name := n;
                         fasta_sequence := [];
                         fasta_seqs :=
                           fasta_seqs st
                           ++ (if truthy (fasta_name st)
                               then [(fasta_name st, fasta_name st, fasta_sequence st)]
                               else []) |}).
    { unfold fasta_line. change (">"%char :: n ++ [NL]) with ((">"%char :: n) ++ [NL]).
      rewrite strip_line by exact Hns.
      change (Ascii.eqb ">" ">") with true. cbv iota. unfold fasta_flush.
      destruct (fasta_name st) as [ | c name ] eqn:En; cbn [truthy].
      - cbn [mbind result_bind]. rewrite (Hseq eq_refl), app_nil_r. reflexivity.
      - rewrite first_word_one_word by (rewrite <- ?En; congruence).
        cbn [mbind result_bind fasta_sequence fasta_seqs]. reflexivity. }
    rewrite Hl. cbn [mbind result_bind].
    rewrite fasta_pieces by now apply sequence_lines_forallb.
    cbn [fasta_name fasta_sequence fasta_seqs app].
    rewrite (concat_sequence_lines w s Hw).
    rewrite IH; cbn [fasta_name fasta_sequence fasta_seqs].
    + rewrite Hn. cbn [map fst snd]. rewrite <- !app_assoc. reflexivity.
    + intros ->. discriminate Hn.
    + exact Hns.
Qed.

Lemma terminated_app (a b : list (list ascii)) :
  terminated (a ++ b) = terminated a ++ terminated b.
Proof. unfold terminated. now rewrite map_app, concat_app. Qed.

Lemma record_text_lines (BASES_PER_FASTA_LINE line_length : Z)
  (record : list ascii * list ascii) :
  0 < (if line_length <=? 0 then BASES_PER_FASTA_LINE else line_length) ->
  record_text BASES_PER_FASTA_LINE line_length record
  = Ok (terminated
          ((">"%char :: record.1)
           :: sequence_lines
                (Z.to_nat (if line_length <=? 0 then BASES_PER_FASTA_LINE
                           else line_length)) record.2)).
Proof.
  intros HL. unfold record_text. rewrite (add_line_breaks_lines _ _ _ HL).
  cbn [mbind result_bind]. unfold terminated at 2. cbn [map concat].
  rewrite <- app_assoc. reflexivity.
Qed.

Lemma records_text_lines (BASES_PER_FASTA_LINE line_length : Z)
  (records : list (list ascii * list ascii)) :
  0 < (if line_length <=? 0 then BASES_PER_FASTA_LINE else line_length) ->
  mapM (record_text BASES_PER_FASTA_LINE line_length) records
  = Ok (map (fun record =>
               terminated
                 ((">"%char :: record.1)
                  :: sequence_lines
                       (Z.to_nat (if line_length <=? 0 then BASES_PER_FASTA_LINE
                                  else line_length)) record.2))
          records).
Proof.
  intros HL. induction records as [ | [n s] records IH ]; [ reflexivity | ].
  cbn [mapM]. rewrite (record_text_lines _ _ _ HL). cbn [mbind result_bind].
  rewrite IH. reflexivity.
Qed.

Lemma records_file_lines (BASES_PER_FASTA_LINE line_length : Z)
  (records : list (list ascii * list ascii)) :
  0 < (if line_length <=? 0 then BASES_PER_FASTA_LINE else line_length) ->
  Forall (fun record => one_word_record record = true) records ->
  exists text,
    records_text BASES_PER_FASTA_LINE line_length records = Ok text
    /\ file_lines text
       = flat_map (fun record =>
                     (">"%char :: record.1 ++ [NL])
                     :: map (fun piece => piece ++ [NL])
                          (sequence_lines
                             (Z.to_nat (if line_length <=? 0 then BASES_PER_FASTA_LINE
                                        else line_length)) record.2))
           records.
Proof.
  intros HL Hrecords. unfold records_text. rewrite (records_text_lines _ _ _ HL).
  cbn [mbind result_bind]. eexists. split; [ reflexivity | ].
  set (w := Z.to_nat (if line_length <=? 0 then BASES_PER_FASTA_LINE else line_length)).
  unfold file_lines.
  assert (Hcat : forall rs : list (list ascii * list ascii),
             concat (map (fun record => terminated ((">"%char :: record.1)
                                                   :: sequence_lines w record.2)) rs)
             = terminated (flat_map (fun record => (">"%char :: record.1)
                                                   :: sequence_lines w record.2) rs)).
  { induction rs as [ | r rs IHrs ]; [ reflexivity | ].
    cbn [map concat flat_map]. rewrite IHrs.
    change ((">"%char :: r.1) :: sequence_lines w r.2
            ++ flat_map (fun record => (">"%char :: record.1)
                                       :: sequence_lines w record.2) rs)
      with (((">"%char :: r.1) :: sequence_lines w r.2)
            ++ flat_map (fun record => (">"%char :: record.1)
                                       :: sequence_lines w record.2) rs).
    now rewrite terminated_app. }
  rewrite Hcat, <- (app_nil_r (terminated _)).
  rewrite line_iterator_terminated; [ | | reflexivity ].
  - clear. induction records as [ | r rs IHrs ]; [ reflexivity | ].
    cbn [flat_map map]. rewrite map_app, IHrs. reflexivity.
  - clear - Hrecords. induction Hrecords as [ | [n s] rs Hr Hrs IHrs ]; [ constructor | ].
    unfold one_word_record in Hr. cbn [fst snd] in Hr.
    apply andb_true_iff in Hr as [Hr Hs]. apply andb_true_iff in Hr as [_ Hns].
    cbn [flat_map fst snd]. constructor; [ | apply Forall_app; split; [ | exact IHrs ] ].
    + apply no_space_no_newline in Hns. cbn [no_newline forallb]. exact Hns.
    + eapply Forall_impl; [ | apply (sequence_lines_forallb sequence_char w s Hs) ].
      intros piece Hp. cbn beta in Hp.
      now apply no_space_no_newline, sequence_char_no_space.
Qed.

Lemma without_headers (records : list (list ascii * list ascii)) :
  map (fun '(word, _, sequence) => (word, sequence))
    (map (fun record : list ascii * list ascii => (record.1, record.1, record.2)) records)
  = records.
Proof.
  induction records as [ | [n s] rs IHrs ]; [ reflexivity | ].
  cbn [map fst snd]. now rewrite IHrs.
Qed.

(** Records written as FASTA, the sequences with the line breaks of
    [add_line_breaks_to_sequence] at a line length of one or more, are
    read back as they were, when their names are one word and their
    sequences have no space character and no [>]. *)
Theorem load_fasta_reads_back (BASES_PER_FASTA_LINE line_length : Z)
  (records : list (list ascii * list ascii)) :
  0 < (if line_length <=? 0 then BASES_PER_FASTA_LINE else line_length) ->
  Forall (fun record => one_word_record record = true) records ->
  exists text,
    records_text BASES_PER_FASTA_LINE line_length records = Ok text
    /\ load_fasta (file_lines text) = Ok records
    /\ load_fasta_with_full_header (file_lines text)
       = Ok (map (fun record => (record.1, record.1, record.2)) records).
Proof.
  intros HL Hrecords.
  destruct (records_file_lines _ _ _ HL Hrecords) as (text & Htext & Hlines).
  exists text. split; [ exact Htext | ]. rewrite Hlines.
  set (w := Z.to_nat (if line_length <=? 0 then BASES_PER_FASTA_LINE else line_length)).
  assert (Hfull :
    load_fasta_with_full_header
      (flat_map (fun record =>
                   (">"%char :: record.1 ++ [NL])
                   :: map (fun piece => piece ++ [NL]) (sequence_lines w record.2))
         records)
    = Ok (map (fun record => (record.1, record.1, record.2)) records)).
  { unfold load_fasta_with_full_header.
    rewrite (fasta_records w records); [ reflexivity | unfold w; lia | exact Hrecords | | ];
      reflexivity. }
  split; [ | exact Hfull ].
  unfold load_fasta. rewrite Hfull. cbn [mbind result_bind]. f_equal.
  apply without_headers.
Qed.

Lemma load_fasta_reads_back_witness :
  exists text,
    records_text 70 3 [(pystr "contig_1", pystr "ACGTACG"); (pystr "2", [])] = Ok text
    /\ load_fasta (file_lines text)
       = Ok [(pystr "contig_1", pystr "ACGTACG"); (pystr "2", [])]
    /\ load_fasta_with_full_header (file_lines text)
       = Ok (map (fun record => (record.1, record.1, record.2))
               [(pystr "contig_1", pystr "ACGTACG"); (pystr "2", [])]).
Proof.
  apply (load_fasta_reads_back 70 3); [ reflexivity | ].
  repeat constructor.
Defined.

(** ** Compressed files *)

(** The compression of a file is told from its first byte alone: the
    magic numbers are tried one byte at a time.  A file that starts
    with one of the bytes of the zip or of the bzip2 magic number ends
    the program, one that starts with a byte of the gzip magic number is
    taken for gzip, and any other file, the empty one too, for plain. *)
Theorem get_compression_type_first_byte (content : list ascii) :
  get_compression_type content
  = match content with
    | [] => Returns (pystr "plain")
    | b :: _ =>
        if existsb (Ascii.eqb b) ["080"; "075"; "003"; "004"]%char
        then quit_with_error (pystr "cannot use zip format - use gzip instead")
        else if existsb (Ascii.eqb b) ["066"; "090"; "104"]%char
        then quit_with_error (pystr "cannot use bzip2 format - use gzip instead")
        else if existsb (Ascii.eqb b) ["031"; "139"; "008"]%char
        then Returns (pystr "gz")
        else Returns (pystr "plain")
    end.
Proof.
  destruct content as [ | b rest ]; [ reflexivity | ].
  destruct b as [[] [] [] [] [] [] [] []]; vm_compute; reflexivity.
Qed.

(** ** Splitting at a character *)

Lemma split_sep_from_part (c : ascii) (a : list ascii) :
  without c a = true ->
  forall cur rest : list ascii,
    split_sep_from [c] 0 cur (a ++ c :: rest)
    = (rev cur ++ a) :: split_sep_from [c] 0 [] rest.
Proof.
  induction a as [ | d a IH ]; intros Ha cur rest.
  - cbn [app split_sep_from startswith]. rewrite Ascii.eqb_refl.
    cbn [andb length pred]. rewrite app_nil_r. reflexivity.
  - cbn [without forallb] in Ha. apply andb_true_iff in Ha as [Hd Ha].
    apply negb_true_iff in Hd. cbn [app split_sep_from startswith].
    rewrite Ascii.eqb_sym, Hd. cbn [andb]. rewrite (IH Ha). cbn [rev].
    rewrite <- app_assoc. reflexivity.
Qed.

Lemma split_sep_from_last (c : ascii) (a : list ascii) :
  without c a = true ->
  forall cur : list ascii, split_sep_from [c] 0 cur a = [rev cur ++ a].
Proof.
  induction a as [ | d a IH ]; intros Ha cur.
  - cbn [split_sep_from]. now rewrite app_nil_r.
  - cbn [without forallb] in Ha. apply andb_true_iff in Ha as [Hd Ha].
    apply negb_true_iff in Hd. cbn [split_sep_from startswith].
    rewrite Ascii.eqb_sym, Hd. cbn [andb]. rewrite (IH Ha). cbn [rev].
    rewrite <- app_assoc. reflexivity.
Qed.

Lemma split_sep_join (c : ascii) (parts : list (list ascii)) :
  parts <> [] ->
  Forall (fun part => without c part = true) parts ->
  split_sep [c] (join [c] parts) = parts.
Proof.
  induction parts as [ | p ps IH ]; [ congruence | ]. intros _ Hall.
  inversion_clear Hall as [ | ? ? Hp Hps ]. unfold split_sep in *.
  destruct ps as [ | q qs ].
  - cbn [join]. now rewrite split_sep_from_last.
  - change (join [c] (p :: q :: qs)) with (p ++ c :: join [c] (q :: qs)).
    rewrite (split_sep_from_part c p Hp). cbn [rev app]. f_equal.
    apply IH; [ discriminate | exact Hps ].
Qed.

Lemma split_sep_from_not_nil (sep : list ascii) (x : list ascii) :
  forall (skip : nat) (cur : list ascii), split_sep_from sep skip cur x <> [].
Proof.
  induction x as [ | d x IH ]; intros skip cur; cbn [split_sep_from]; [ discriminate | ].
  destruct skip; [ | apply IH ].
  destruct (startswith sep (d :: x)); [ discriminate | apply IH ].
Qed.

Lemma without_app (c : ascii) (x y : list ascii) :
  without c (x ++ y) = (without c x && without c y)%bool.
Proof. apply forallb_app. Qed.

Lemma without_join (c : ascii) (sep : list ascii) (parts : list (list ascii)) :
  without c sep = true ->
  Forall (fun part => without c part = true) parts ->
  without c (join sep parts) = true.
Proof.
  intros Hsep. induction 1 as [ | p ps Hp Hps IH ]; [ reflexivity | ].
  destruct ps as [ | q qs ]; [ exact Hp | ].
  change (join sep (p :: q :: qs)) with (p ++ sep ++ join sep (q :: qs)).
  now rewrite !without_app, Hp, Hsep, IH.
Qed.

(** ** Headers of contigs *)

Lemma split_whitespace_from_blank (x : list ascii) :
  forallb isspace x = true -> split_whitespace_from [] x = [].
Proof.
  induction x as [ | c x IH ]; [ reflexivity | ]. cbn [forallb split_whitespace_from].
  intros H. apply andb_true_iff in H as [Hc Hx]. rewrite Hc. now apply IH.
Qed.

(** [get_nice_header] fails on a header that is blank, with an
    [IndexError], and on no other: any other header gives a name that
    is not empty. *)
Theorem get_nice_header_blank (header : list ascii) :
  (forallb isspace header = true -> get_nice_header header = Raise IndexError)
  /\ (forallb isspace header = false ->
      exists name, get_nice_header header = Ok name /\ name <> []).
Proof.
  unfold get_nice_header. split.
  - intros Hb.
    assert (Hu : without "_" header = true).
    { revert Hb. apply forallb_weaken. intros c Hc.
      destruct (Ascii.eqb c "_") eqn:Ec; [ | reflexivity ].
      apply Ascii.eqb_eq in Ec. subst c. discriminate Hc. }
    unfold is_header_spades_format, split_sep.
    rewrite (split_sep_from_last "_" header Hu). cbn [length Nat.ltb Nat.leb andb].
    unfold split_whitespace. now rewrite split_whitespace_from_blank.
  - intros Hb. destruct (is_header_spades_format header) eqn:Es.
    + unfold is_header_spades_format in Es.
      apply andb_true_iff in Es as [Es _]. apply andb_true_iff in Es as [Es _].
      apply andb_true_iff in Es as [Es _]. apply Nat.ltb_lt in Es.
      destruct (split_sep (pystr "_") header) as [ | p0 [ | p1 ps ] ];
        [ cbn in Es; lia | cbn in Es; lia | ].
      exists (pystr "NODE_" ++ p1). split; [ reflexivity | discriminate ].
    + pose proof (split_whitespace_from_words header [] eq_refl) as Hw.
      fold (split_whitespace header) in Hw.
      destruct (split_whitespace header) as [ | w ws ] eqn:E.
      * apply split_whitespace_from_nil in E as [_ E]. congruence.
      * inversion_clear Hw as [ | ? ? Hw1 _ ]. exists w. split; [ reflexivity | tauto ].
Qed.

(** A header in the format of SPAdes, [NODE] or [EDGE], then the number
    of the contig, [length], the length, [cov] and the rest, with
    underscores between them, gives [NODE_] and the number. *)
Theorem get_nice_header_spades (kind number length_ rest : list ascii) :
  kind = pystr "NODE" \/ kind = pystr "EDGE" ->
  without "_" number = true ->
  without "_" length_ = true ->
  get_nice_header
    (kind ++ pystr "_" ++ number ++ pystr "_length_" ++ length_ ++ pystr "_cov_" ++ rest)
  = Ok (pystr "NODE_" ++ number).
Proof.
  intros Hkind Hn Hl.
  assert (Hk : without "_" kind = true) by (destruct Hkind as [-> | ->]; reflexivity).
  assert (Hsplit :
    split_sep (pystr "_")
      (kind ++ pystr "_" ++ number ++ pystr "_length_" ++ length_ ++ pystr "_cov_" ++ rest)
    = kind :: number :: pystr "length" :: length_ :: pystr "cov"
      :: split_sep (pystr "_") rest).
  { unfold split_sep.
    change (pystr "_") with ["_"%char].
    change (kind ++ ["_"%char] ++ number ++ pystr "_length_" ++ length_
            ++ pystr "_cov_" ++ rest)
      with (kind ++ "_"%char :: number ++ "_"%char :: pystr "length"
            ++ "_"%char :: length_ ++ "_"%char :: pystr "cov" ++ "_"%char :: rest).
    rewrite (split_sep_from_part "_" kind Hk).
    rewrite (split_sep_from_part "_" number Hn).
    rewrite (split_sep_from_part "_" (pystr "length") eq_refl).
    rewrite (split_sep_from_part "_" length_ Hl).
    rewrite (split_sep_from_part "_" (pystr "cov") eq_refl).
    reflexivity. }
  unfold get_nice_header, is_header_spades_format. rewrite Hsplit.
  pose proof (split_sep_from_not_nil (pystr "_") rest 0 []) as Hne.
  fold (split_sep (pystr "_") rest) in Hne.
  destruct (split_sep (pystr "_") rest) as [ | p ps ]; [ congruence | ].
  cbn [length nth]. 
  assert (Hfirst : (str_eqb kind (pystr "NODE") || str_eqb kind (pystr "EDGE"))%bool = true)
    by (destruct Hkind as [-> | ->]; reflexivity).
  rewrite Hfirst. reflexivity.
Qed.

Lemma get_nice_header_spades_witness :
  get_nice_header
    (pystr "EDGE" ++ pystr "_" ++ pystr "5" ++ pystr "_length_" ++ pystr "150905"
     ++ pystr "_cov_" ++ pystr "4.42519")
  = Ok (pystr "NODE_" ++ pystr "5").
Proof. apply get_nice_header_spades; [ now right | reflexivity | reflexivity ]. Defined.

(** ** Names of read files *)

Lemma rfind_from_last (c : ascii) (pre name : list ascii) :
  without c name = true ->
  forall i : Z, 0 <= i -> rfind_from c i (pre ++ c :: name) = i + len pre.
Proof.
  intros Hn. induction pre as [ | d pre IH ]; intros i Hi; cbn [app rfind_from].
  - rewrite (rfind_from_absent c name Hn). cbn. rewrite Ascii.eqb_refl.
    unfold len. cbn. lia.
  - rewrite IH by lia. pose proof (len_nonneg pre) as Hp.
    rewrite (proj2 (Z.leb_le 0 (i + 1 + len pre))) by lia.
    unfold len. cbn [length]. lia.
Qed.

Lemma basename_of (dir name : list ascii) :
  directory dir -> without "/" name = true -> basename (dir ++ name) = name.
Proof.
  intros [-> | (d & ->)] Hn; unfold basename.
  - cbn [app]. now rewrite (rfind_from_absent "/" name Hn).
  - rewrite <- app_assoc. cbn [app]. rewrite (rfind_from_last "/" d name Hn) by lia.
    pose proof (len_nonneg d) as Hd. unfold slice_from.
    rewrite (proj2 (Z.ltb_ge (0 + len d + 1) 0)) by lia.
    replace (Z.to_nat (0 + len d + 1)) with (length (d ++ ["/"%char]))
      by (rewrite length_app; unfold len; cbn; lia).
    change (d ++ "/"%char :: name) with (d ++ ["/"%char] ++ name).
    rewrite app_assoc. apply drop_app_length.
Qed.

Lemma str_eqb_eq (x y : list ascii) : str_eqb x y = true -> x = y.
Proof. unfold str_eqb. destruct (list_eq_dec ascii_dec x y); [ auto | discriminate ]. Qed.

Lemma name_part_lower (c : ascii) :
  (negb (Ascii.eqb (lower_char c) ".") && negb (Ascii.eqb (lower_char c) "/"))%bool = true ->
  (negb (Ascii.eqb c ".") && negb (Ascii.eqb c "/"))%bool = true.
Proof.
  destruct c as [[] [] [] [] [] [] [] []]; vm_compute; intros H;
    first [ reflexivity | discriminate H ].
Qed.

Lemma is_ending_name_part (x : list ascii) :
  is_ending (lower x) = true -> name_part x = true.
Proof.
  intros He.
  assert (Hl : forallb (fun c => (negb (Ascii.eqb c ".") && negb (Ascii.eqb c "/"))%bool)
                 (lower x) = true).
  { unfold is_ending in He. apply existsb_exists in He as (w & Hw & He).
    apply str_eqb_eq in He. rewrite He. clear He.
    unfold endings_to_trim in Hw. cbn [map] in Hw.
    repeat (destruct Hw as [<- | Hw]; [ reflexivity | ]). destruct Hw. }
  assert (Hx : forallb (fun c => (negb (Ascii.eqb c ".") && negb (Ascii.eqb c "/"))%bool)
                 x = true).
  { clear He. induction x as [ | c x IH ]; [ reflexivity | ].
    cbn [lower map forallb] in Hl. apply andb_true_iff in Hl as [Hc Hl].
    cbn [forallb]. rewrite (name_part_lower c Hc). now apply IH. }
  unfold name_part, without. clear - Hx.
  induction x as [ | c x IH ]; [ reflexivity | ].
  cbn [forallb] in *. apply andb_true_iff in Hx as [Hc Hx].
  apply andb_true_iff in Hc as [H1 H2]. specialize (IH Hx).
  apply andb_true_iff in IH as [I1 I2]. now rewrite H1, H2, I1, I2.
Qed.

Lemma trim_endings_over (exts before : list (list ascii)) :
  Forall (fun e => is_ending (lower e) = true) exts ->
  trim_endings (exts ++ before) = trim_endings before.
Proof.
  induction 1 as [ | e exts He Hexts IH ]; [ reflexivity | ].
  cbn [app trim_endings]. now rewrite He.
Qed.

Lemma name_parts_split (parts : list (list ascii)) :
  parts <> [] ->
  Forall (fun part => name_part part = true) parts ->
  forall dir : list ascii,
    directory dir ->
    split_sep (pystr ".") (basename (dir ++ join (pystr ".") parts)) = parts.
Proof.
  intros Hne Hparts dir Hdir.
  assert (H1 : Forall (fun part => without "." part = true) parts).
  { eapply Forall_impl; [ | exact Hparts ]. intros p Hp. cbn beta in Hp.
    unfold name_part in Hp. now apply andb_true_iff in Hp as [Hp _]. }
  assert (H2 : Forall (fun part => without "/" part = true) parts).
  { eapply Forall_impl; [ | exact Hparts ]. intros p Hp. cbn beta in Hp.
    unfold name_part in Hp. now apply andb_true_iff in Hp as [_ Hp]. }
  rewrite basename_of; [ | exact Hdir | now apply without_join ].
  now apply (split_sep_join "." parts).
Qed.

(** The extensions of reads are taken off the end of the file name,
    and the directory off its front: with a name in parts between
    dots, of which the last ones are read extensions in any case of
    letters and the one before them is not, what is left is the parts
    before the extensions.  Read extensions further to the front stay,
    and a name without any is left as it is. *)
Theorem strip_read_extensions_trims (dir : list ascii) (front : list (list ascii))
  (stem : list ascii) (exts : list (list ascii)) :
  directory dir ->
  Forall (fun part => name_part part = true) (front ++ [stem]) ->
  is_ending (lower stem) = false ->
  Forall (fun e => is_ending (lower e) = true) exts ->
  strip_read_extensions (dir ++ join (pystr ".") (front ++ [stem] ++ exts))
  = Ok (join (pystr ".") (front ++ [stem])).
Proof.
  intros Hdir Hparts Hstem Hexts. unfold strip_read_extensions.
  rewrite name_parts_split; [ | now destruct front | | exact Hdir ].
  - rewrite app_assoc, rev_app_distr.
    rewrite trim_endings_over by now apply Forall_rev.
    rewrite rev_app_distr. cbn [rev app trim_endings]. rewrite Hstem.
    cbn [mbind result_bind]. do 2 f_equal.
    now rewrite rev_involutive.
  - rewrite app_assoc. apply Forall_app. split; [ exact Hparts | ].
    eapply Forall_impl; [ | exact Hexts ]. intros e He. now apply is_ending_name_part.
Qed.

Lemma strip_read_extensions_trims_witness :
  strip_read_extensions
    (pystr "reads/run.1/" ++ join (pystr ".")
       ([pystr "sample"; pystr "fastq"] ++ [pystr "v2"] ++ [pystr "FASTQ"; pystr "gz"]))
  = Ok (join (pystr ".") ([pystr "sample"; pystr "fastq"] ++ [pystr "v2"])).
Proof.
  apply strip_read_extensions_trims.
  - right. exists (pystr "reads/run.1"). reflexivity.
  - repeat constructor.
  - reflexivity.
  - repeat constructor.
Defined.

(** A file name that has nothing but read extensions after its
    directory, such as [fastq.gz], makes [strip_read_extensions] fail
    with an [IndexError]: the last part of no parts is asked for. *)
Theorem strip_read_extensions_only_endings (dir : list ascii) (exts : list (list ascii)) :
  directory dir ->
  exts <> [] ->
  Forall (fun e => is_ending (lower e) = true) exts ->
  strip_read_extensions (dir ++ join (pystr ".") exts) = Raise IndexError.
Proof.
  intros Hdir Hne Hexts. unfold strip_read_extensions.
  rewrite name_parts_split; [ | exact Hne | | exact Hdir ].
  - rewrite <- (app_nil_r (rev exts)).
    rewrite trim_endings_over by now apply Forall_rev. reflexivity.
  - eapply Forall_impl; [ | exact Hexts ]. intros e He. now apply is_ending_name_part.
Qed.

Lemma strip_read_extensions_only_endings_witness :
  strip_read_extensions (pystr "reads/" ++ join (pystr ".") [pystr "fastq"; pystr "gz"])
  = Raise IndexError.
Proof.
  apply strip_read_extensions_only_endings.
  - right. exists (pystr "reads"). reflexivity.
  - discriminate.
  - repeat constructor.
Defined.

(** ** Numbers in columns *)

Lemma digits_from_bound (b : nat) :
  forall (b' : nat) (n : Z),
    0 <= n -> n < 2 ^ Z.of_nat b -> n < 2 ^ Z.of_nat b' ->
    (1 <= b)%nat -> (1 <= b')%nat ->
    digits_from b n = digits_from b' n.
Proof.
  induction b as [ | b0 IH ]; intros b' n Hn Hb Hb' H1 H1'; [ lia | ].
  destruct b' as [ | b0' ]; [ lia | ]. cbn [digits_from].
  destruct (n <? 10) eqn:E; [ reflexivity | ]. apply Z.ltb_ge in E. f_equal.
  rewrite Nat2Z.inj_succ, Z.pow_succ_r in Hb, Hb' by lia.
  assert (Hp : 0 < 2 ^ Z.of_nat b0) by (apply Z.pow_pos_nonneg; lia).
  assert (Hp' : 0 < 2 ^ Z.of_nat b0') by (apply Z.pow_pos_nonneg; lia).
  apply IH.
  - apply Z.div_pos; lia.
  - apply Z.div_lt_upper_bound; lia.
  - apply Z.div_lt_upper_bound; lia.
  - destruct b0; [ cbn in Hb; lia | lia ].
  - destruct b0'; [ cbn in Hb'; lia | lia ].
Qed.

Lemma length_digits_from_mono (b : nat) :
  forall n m : Z,
    0 <= n <= m ->
    (length (digits_from b n) <= length (digits_from b m))%nat.
Proof.
  induction b as [ | b IH ]; intros n m Hnm; [ reflexivity | ].
  cbn [digits_from]. rewrite !length_app. cbn [length].
  destruct (n <? 10) eqn:En, (m <? 10) eqn:Em; cbn [length]; try lia.
  apply Z.ltb_ge in En, Em.
  assert (H : 0 <= n / 10 <= m / 10)
    by (split; [ apply Z.div_pos; lia | apply Z.div_le_mono; lia ]).
  specialize (IH _ _ H). lia.
Qed.

Lemma below_power (n : Z) : 0 <= n -> n < 2 ^ Z.of_nat (S (Z.to_nat (Z.log2 n))).
Proof.
  intros Hn. pose proof (Z.log2_nonneg n) as Hl.
  rewrite Nat2Z.inj_succ, Z2Nat.id by exact Hl.
  destruct (Z.eq_dec n 0) as [-> | Hne]; [ reflexivity | ].
  apply Z.log2_spec. lia.
Qed.

Lemma length_digits_mono (n m : Z) :
  0 <= n <= m -> (length (digits n) <= length (digits m))%nat.
Proof.
  intros Hnm. unfold digits.
  rewrite (digits_from_bound (S (Z.to_nat (Z.log2 n))) (S (Z.to_nat (Z.log2 m))) n);
    [ now apply length_digits_from_mono | lia | apply below_power; lia | | lia | lia ].
  pose proof (below_power m). lia.
Qed.

Lemma length_commas_rev_mono (ds : list ascii) :
  forall (ds' : list ascii) (k : nat),
    (length ds <= length ds')%nat ->
    (length (commas_rev k ds) <= length (commas_rev k ds'))%nat.
Proof.
  induction ds as [ | d ds IH ]; intros [ | d' ds' ] k H; cbn [length] in H;
    [ reflexivity | cbn; lia | lia | ].
  destruct k as [ | [ | [ | [ | k ] ] ] ]; cbn [commas_rev length];
    match goal with
    | |- context [commas_rev ?k' ds] => pose proof (IH ds' k' ltac:(lia))
    end; lia.
Qed.

Lemma len_format_commas_mono (n m : Z) :
  0 <= n <= m -> len (format_commas n) <= len (format_commas m).
Proof.
  intros Hnm. unfold format_commas, len.
  rewrite (proj2 (Z.ltb_ge n 0)), (proj2 (Z.ltb_ge m 0)) by lia.
  cbn [app]. rewrite !length_rev. apply inj_le. apply length_commas_rev_mono.
  rewrite !length_rev, !Z.abs_eq by lia. now apply length_digits_mono.
Qed.

(** Numbers from zero to the largest one come out of [int_to_str] in
    one width, that of the largest: each is its text with the commas,
    after the spaces that fill the width. *)
Theorem int_to_str_aligned (num max_num : Z) :
  0 <= num <= max_num ->
  len (int_to_str (Some num) max_num) = len (int_to_str (Some max_num) max_num)
  /\ exists pad : nat,
       int_to_str (Some num) max_num = repeat SP pad ++ format_commas num.
Proof.
  intros Hnm. pose proof (len_format_commas_mono num max_num Hnm) as Hle.
  unfold int_to_str, rjust, times. split; [ | eauto ].
  rewrite !len_app. unfold len in *. rewrite !repeat_length. lia.
Qed.

Lemma int_to_str_aligned_witness :
  len (int_to_str (Some 999) 1234567) = len (int_to_str (Some 1234567) 1234567)
  /\ exists pad : nat,
       int_to_str (Some 999) 1234567 = repeat SP pad ++ format_commas 999.
Proof. apply int_to_str_aligned. lia. Defined.

(** ** Styles and the visible text *)

(** Whatever the name of the style, taking the formatting out of a
    plain text that [colour] has styled gives the text back, and the
    visible width of the styled text is the length of the text. *)
Theorem colour_keeps_visible_text (text text_colour : list ascii) :
  plain text = true ->
  remove_formatting (colour text text_colour) = text
  /\ len_without_format (colour text text_colour) = len text.
Proof.
  intros Hp.
  assert (Hplain : remove_formatting (text ++ END_FORMATTING) = text).
  { rewrite remove_formatting_plain_app by exact Hp. cbn. apply app_nil_r. }
  assert (H : remove_formatting (colour text text_colour) = text).
  { unfold colour, colour_code. cbv zeta.
    repeat match goal with
           | |- context [if ?b then _ else _] => destruct b
           end;
      first [ exact Hplain | now apply remove_formatting_plain ]. }
  split; [ exact H | ]. unfold len_without_format. now rewrite H.
Qed.

Lemma colour_keeps_visible_text_witness :
  remove_formatting (colour (pystr "alpha") (pystr "Bold_Yellow underline")) = pystr "alpha"
  /\ len_without_format (colour (pystr "alpha") (pystr "Bold_Yellow underline"))
     = len (pystr "alpha").
Proof. apply colour_keeps_visible_text. reflexivity. Defined.

(** ** Ranges collapsed *)

Lemma depth_at_insert (x : Z * Z) (l : list (Z * Z)) (p : Z) :
  depth_at (insert_by_key x l) p = depth_at (x :: l) p.
Proof.
  induction l as [ | y l IH ]; [ reflexivity | ]. cbn [insert_by_key].
  destruct (x.1 <=? y.1); [ reflexivity | ].
  change (depth_at (y :: insert_by_key x l) p)
    with ((if y.1 <=? p then y.2 else 0) + depth_at (insert_by_key x l) p).
  rewrite IH. cbn [depth_at fold_right]. lia.
Qed.

Lemma depth_at_sort (l : list (Z * Z)) (p : Z) :
  depth_at (sort_by_key l) p = depth_at l p.
Proof.
  induction l as [ | x l IH ]; [ reflexivity | ]. cbn [sort_by_key].
  rewrite depth_at_insert. cbn [depth_at fold_right]. fold (depth_at (sort_by_key l) p).
  fold (depth_at l p). now rewrite IH.
Qed.

Lemma total_insert (x : Z * Z) (l : list (Z * Z)) :
  total (insert_by_key x l) = total (x :: l).
Proof.
  induction l as [ | y l IH ]; [ reflexivity | ]. cbn [insert_by_key].
  destruct (x.1 <=? y.1); [ reflexivity | ].
  change (total (y :: insert_by_key x l)) with (y.2 + total (insert_by_key x l)).
  rewrite IH. cbn [total fold_right]. lia.
Qed.

Lemma total_sort (l : list (Z * Z)) : total (sort_by_key l) = total l.
Proof.
  induction l as [ | x l IH ]; [ reflexivity | ]. cbn [sort_by_key].
  rewrite total_insert. cbn [total fold_right]. fold (total (sort_by_key l)).
  fold (total l). now rewrite IH.
Qed.

Lemma Forall_insert (P : Z * Z -> Prop) (x : Z * Z) (l : list (Z * Z)) :
  P x -> Forall P l -> Forall P (insert_by_key x l).
Proof.
  intros Hx. induction 1 as [ | y l Hy Hl IH ]; cbn [insert_by_key].
  - now constructor.
  - destruct (x.1 <=? y.1); repeat constructor; assumption.
Qed.

Lemma Forall_sort (P : Z * Z -> Prop) (l : list (Z * Z)) :
  Forall P l -> Forall P (sort_by_key l).
Proof.
  induction 1 as [ | x l Hx Hl IH ]; [ constructor | ].
  cbn [sort_by_key]. now apply Forall_insert.
Qed.

Lemma sorted_pos_insert (x : Z * Z) (l : list (Z * Z)) :
  sorted_pos l -> sorted_pos (insert_by_key x l).
Proof.
  induction l as [ | y l IH ]; intros Hl; cbn [insert_by_key].
  - cbn. auto.
  - destruct Hl as [Hy Hl]. destruct (x.1 <=? y.1) eqn:E.
    + apply Z.leb_le in E. cbn [sorted_pos]. split; [ | split; assumption ].
      constructor; [ exact E | ].
      eapply Forall_impl; [ | exact Hy ]. intros z Hz. cbn beta in Hz. lia.
    + apply Z.leb_gt in E. cbn [sorted_pos]. split; [ | now apply IH ].
      apply Forall_insert; [ lia | exact Hy ].
Qed.

Lemma sorted_pos_sort (l : list (Z * Z)) : sorted_pos (sort_by_key l).
Proof.
  induction l as [ | x l IH ]; [ exact I | ]. cbn [sort_by_key].
  now apply sorted_pos_insert.
Qed.

Lemma depth_at_app (a b : list (Z * Z)) (p : Z) :
  depth_at (a ++ b) p = depth_at a p + depth_at b p.
Proof.
  induction a as [ | x a IH ]; [ reflexivity | ].
  cbn [app depth_at fold_right]. fold (depth_at (a ++ b) p). fold (depth_at a p).
  rewrite IH. lia.
Qed.

Lemma total_app (a b : list (Z * Z)) : total (a ++ b) = total a + total b.
Proof.
  induction a as [ | x a IH ]; [ reflexivity | ].
  cbn [app total fold_right]. fold (total (a ++ b)). fold (total a).
  rewrite IH. lia.
Qed.

Lemma depth_at_before (l : list (Z * Z)) (q p : Z) :
  Forall (fun y => q <= y.1) l -> p < q -> depth_at l p = 0.
Proof.
  intros Hl Hp. induction Hl as [ | y l Hy Hl IH ]; [ reflexivity | ].
  cbn [depth_at fold_right]. fold (depth_at l p). rewrite IH.
  rewrite (proj2 (Z.leb_gt y.1 p)) by lia. reflexivity.
Qed.

Lemma fixed_ranges_proper (ranges : list (Z * Z)) :
  Forall (fun x => x.1 < x.2) (fixed_ranges ranges).
Proof.
  unfold fixed_ranges. induction ranges as [ | r ranges IH ]; [ constructor | ].
  cbn [flat_map]. apply Forall_app. split; [ | exact IH ].
  unfold fix_range. destruct (r.2 <? r.1) eqn:E1.
  - apply Z.ltb_lt in E1. repeat constructor. exact E1.
  - destruct (r.1 <? r.2) eqn:E2; [ | constructor ].
    apply Z.ltb_lt in E2. repeat constructor. exact E2.
Qed.

Lemma fixed_ranges_covered (ranges : list (Z * Z)) (p : Z) :
  covered ranges p <-> exists x, In x (fixed_ranges ranges) /\ x.1 <= p < x.2.
Proof.
  unfold covered, fixed_ranges. split.
  - intros (r & Hr & Hp). 
    exists (Z.min r.1 r.2, Z.max r.1 r.2). split; [ | exact Hp ].
    apply in_flat_map. exists r. split; [ exact Hr | ].
    unfold fix_range. destruct (r.2 <? r.1) eqn:E1.
    + apply Z.ltb_lt in E1. left. cbn [fst snd].
      rewrite Z.min_r, Z.max_l by lia. reflexivity.
    + apply Z.ltb_ge in E1. destruct (r.1 <? r.2) eqn:E2.
      * apply Z.ltb_lt in E2. left. rewrite Z.min_l, Z.max_r by lia.
        now destruct r.
      * apply Z.ltb_ge in E2. lia.
  - intros (x & Hx & Hp). apply in_flat_map in Hx as (r & Hr & Hx).
    exists r. split; [ exact Hr | ]. unfold fix_range in Hx.
    destruct (r.2 <? r.1) eqn:E1.
    + apply Z.ltb_lt in E1. destruct Hx as [<- | []]. cbn [fst snd] in Hp. lia.
    + destruct (r.1 <? r.2) eqn:E2; [ | destruct Hx ].
      apply Z.ltb_lt in E2. destruct Hx as [<- | []]. lia.
Qed.

Lemma depth_at_starts_ends (F : list (Z * Z)) (p : Z) :
  Forall (fun x => x.1 < x.2) F ->
  depth_at (map (fun x => (x.1, 1)) F ++ map (fun x => (x.2, -1)) F) p
  = cover_count F p.
Proof.
  intros HF. rewrite depth_at_app. induction HF as [ | x F Hx HF IH ]; [ reflexivity | ].
  cbn [map depth_at cover_count fold_right fst snd].
  fold (depth_at (map (fun x => (x.1, 1)) F) p).
  fold (depth_at (map (fun x => (x.2, -1)) F) p). fold (cover_count F p).
  rewrite <- IH.
  destruct (x.1 <=? p) eqn:E1, (x.2 <=? p) eqn:E2, (p <? x.2) eqn:E3;
    cbn [andb]; lia.
Qed.

Lemma total_starts_ends (F : list (Z * Z)) :
  total (map (fun x => (x.1, 1)) F ++ map (fun x => (x.2, -1)) F) = 0.
Proof.
  rewrite total_app. induction F as [ | x F IH ]; [ reflexivity | ].
  cbn [map total fold_right fst snd].
  fold (total (map (fun x => (x.1, 1)) F)). fold (total (map (fun x => (x.2, -1)) F)).
  lia.
Qed.

Lemma cover_count_covered (F : list (Z * Z)) (p : Z) :
  0 <= cover_count F p
  /\ (cover_count F p <> 0 <-> exists x, In x F /\ x.1 <= p < x.2).
Proof.
  induction F as [ | x F (IH0 & IH) ].
  - cbn. split; [ lia | ]. split; [ lia | intros (x & [] & _) ].
  - cbn [cover_count fold_right]. fold (cover_count F p).
    destruct ((x.1 <=? p) && (p <? x.2))%bool eqn:E.
    + split; [ lia | ]. split; [ | lia ]. intros _. exists x.
      apply andb_true_iff in E as [E1 E2]. apply Z.leb_le in E1. apply Z.ltb_lt in E2.
      split; [ now left | lia ].
    + split; [ lia | ]. rewrite Z.add_0_l, IH. split.
      * intros (y & Hy & Hp). exists y. split; [ now right | exact Hp ].
      * intros (y & [<- | Hy] & Hp); [ | eauto ].
        apply andb_false_iff in E as [E | E];
          [ apply Z.leb_gt in E | apply Z.ltb_ge in E ]; lia.
Qed.

Lemma covered_snoc (C : list (Z * Z)) (s e p : Z) :
  s <= e -> (covered (C ++ [(s, e)]) p <-> covered C p \/ s <= p < e).
Proof.
  intros Hse. unfold covered. split.
  - intros (r & Hr & Hp). apply in_app_iff in Hr as [Hr | [<- | []]].
    + left. eauto.
    + right. cbn [fst snd] in Hp. lia.
  - intros [(r & Hr & Hp) | Hp].
    + exists r. split; [ apply in_app_iff; now left | exact Hp ].
    + exists (s, e). split; [ apply in_app_iff; right; now left | cbn [fst snd]; lia ].
Qed.

Lemma combine_ranges_covered (l : list (Z * Z)) :
  forall (d st : Z) (C : list (Z * Z)),
    sorted_pos l ->
    (d <> 0 -> Forall (fun ev => st <= ev.1) l) ->
    d + total l = 0 ->
    forall p : Z,
      covered (combine_ranges d st C (cumulative d l)) p
      <-> covered C p \/ ((d <> 0 -> st <= p) /\ d + depth_at l p <> 0).
Proof.
  induction l as [ | [pos delta] l IH ]; intros d st C Hs Hst Ht p.
  - cbn in Ht. cbn [cumulative combine_ranges depth_at fold_right]. split; [ auto | ].
    intros [H | [_ H]]; [ exact H | lia ].
  - destruct Hs as [Hpos Hs]. cbn [fst snd] in Hpos.
    cbn [total fold_right snd] in Ht. fold (total l) in Ht.
    cbn [cumulative combine_ranges fst snd].
    cbn [depth_at fold_right fst snd]. fold (depth_at l p).
    assert (Hbefore : p < pos -> depth_at l p = 0) by (apply depth_at_before; exact Hpos).
    destruct (d =? 0) eqn:Ed.
    + apply Z.eqb_eq in Ed. subst d.
      rewrite (IH delta pos C Hs (fun _ => Hpos)) by lia.
      destruct (pos <=? p) eqn:Ep;
        [ apply Z.leb_le in Ep | apply Z.leb_gt in Ep; rewrite (Hbefore Ep) ].
      * generalize (covered C p). intros X. intuition lia.
      * generalize (covered C p). intros X. intuition lia.
    + apply Z.eqb_neq in Ed. specialize (Hst Ed).
      inversion_clear Hst as [ | ? ? Hst1 Hst2 ]. cbn [fst] in Hst1.
      destruct (d + delta =? 0) eqn:Ed'.
      * apply Z.eqb_eq in Ed'.
        rewrite (IH (d + delta) st (C ++ [(st, pos)]) Hs) by lia.
        rewrite (covered_snoc C st pos p Hst1).
        destruct (pos <=? p) eqn:Ep;
          [ apply Z.leb_le in Ep | apply Z.leb_gt in Ep; rewrite (Hbefore Ep) ].
        -- generalize (covered C p). intros X. intuition lia.
        -- generalize (covered C p). intros X. intuition lia.
      * apply Z.eqb_neq in Ed'.
        rewrite (IH (d + delta) st C Hs (fun _ => Hst2)) by lia.
        destruct (pos <=? p) eqn:Ep;
          [ apply Z.leb_le in Ep | apply Z.leb_gt in Ep; rewrite (Hbefore Ep) ].
        -- generalize (covered C p). intros X. intuition lia.
        -- generalize (covered C p). intros X. intuition lia.
Qed.

(** The ranges that [simplify_ranges] returns cover the positions that
    the given ranges cover, and no other. *)
Theorem simplify_ranges_covers (ranges : list (Z * Z)) (p : Z) :
  covered (simplify_ranges ranges) p <-> covered ranges p.
Proof.
  unfold simplify_ranges.
  assert (Hd : depth_at (starts_ends ranges) p = cover_count (fixed_ranges ranges) p).
  { unfold starts_ends. rewrite depth_at_sort.
    apply depth_at_starts_ends, fixed_ranges_proper. }
  assert (Ht : 0 + total (starts_ends ranges) = 0).
  { unfold starts_ends. now rewrite total_sort, total_starts_ends. }
  assert (Hv : 0 <> 0 -> Forall (fun ev : Z * Z => 0 <= ev.1) (starts_ends ranges))
    by (intros H; now contradiction H).
  rewrite (combine_ranges_covered (starts_ends ranges) 0 0 []
             (sorted_pos_sort _) Hv Ht p), Hd.
  destruct (cover_count_covered (fixed_ranges ranges) p) as [_ Hc].
  pose proof (fixed_ranges_covered ranges p) as Hf. split.
  - intros [(r & [] & _) | [_ H]]. apply Hf, Hc. lia.
  - intros H. right. split; [ lia | ]. apply Hf, Hc in H. lia.
Qed.

Lemma sorted_lex_insert (x : Z * Z) (l : list (Z * Z)) :
  sorted_lex l -> Forall (fun y => y.2 <= x.2) l -> sorted_lex (insert_by_key x l).
Proof.
  induction l as [ | y l IH ]; intros Hl Hx; cbn [insert_by_key].
  - cbn. auto.
  - destruct Hl as [Hy Hl]. inversion_clear Hx as [ | ? ? Hx1 Hx2 ].
    destruct (x.1 <=? y.1) eqn:E.
    + apply Z.leb_le in E. cbn [sorted_lex]. split; [ | split; assumption ].
      constructor; [ unfold before; lia | ].
      rewrite Forall_forall in Hy, Hx2 |- *. intros z Hz.
      specialize (Hy z Hz). specialize (Hx2 z Hz). unfold before in *. lia.
    + apply Z.leb_gt in E. cbn [sorted_lex]. split; [ | now apply IH ].
      apply Forall_insert; [ unfold before; lia | exact Hy ].
Qed.

Lemma sorted_lex_sort (l : list (Z * Z)) : steps_down l -> sorted_lex (sort_by_key l).
Proof.
  induction l as [ | x l IH ]; intros Hl; [ exact I | ]. destruct Hl as [Hx Hl].
  cbn [sort_by_key]. apply sorted_lex_insert; [ now apply IH | now apply Forall_sort ].
Qed.

Lemma steps_down_starts_ends (F : list (Z * Z)) :
  steps_down (map (fun x => (x.1, 1)) F ++ map (fun x => (x.2, -1)) F).
Proof.
  generalize F at 2. intros G. induction F as [ | x F IH ].
  - cbn [map app]. induction G as [ | y G IHG ]; [ exact I | ].
    cbn [map steps_down snd]. split; [ | exact IHG ].
    apply Forall_map. apply Forall_forall. intros z _. cbn. lia.
  - cbn [map app steps_down snd]. split; [ | exact IH ].
    apply Forall_app. split; apply Forall_map; apply Forall_forall; intros z _; cbn; lia.
Qed.

Lemma sorted_lex_split (l0 l : list (Z * Z)) :
  sorted_lex (l0 ++ l) ->
  sorted_lex l /\ Forall (fun x => Forall (before x) l) l0.
Proof.
  induction l0 as [ | x l0 IH ]; intros H; [ split; [ exact H | constructor ] | ].
  destruct H as [Hx H]. destruct (IH H) as [Hl Hl0]. split; [ exact Hl | ].
  constructor; [ | exact Hl0 ]. apply Forall_app in Hx. tauto.
Qed.

Lemma depth_at_le_total (l : list (Z * Z)) (p : Z) :
  Forall (fun y => p < y.1 -> 0 <= y.2) l -> depth_at l p <= total l.
Proof.
  induction 1 as [ | y l Hy Hl IH ]; [ reflexivity | ].
  cbn [depth_at total fold_right]. fold (depth_at l p). fold (total l).
  destruct (y.1 <=? p) eqn:E; [ lia | apply Z.leb_gt in E; lia ].
Qed.

Lemma depth_at_lt_total (l : list (Z * Z)) (p : Z) (y0 : Z * Z) :
  In y0 l -> p < y0.1 -> 0 < y0.2 ->
  Forall (fun y => p < y.1 -> 0 <= y.2) l -> depth_at l p < total l.
Proof.
  intros Hin Hp H0. induction 1 as [ | y l Hy Hl IH ]; [ destruct Hin | ].
  cbn [depth_at total fold_right]. fold (depth_at l p). fold (total l).
  pose proof (depth_at_le_total l p Hl) as Hle.
  destruct Hin as [-> | Hin].
  - rewrite (proj2 (Z.leb_gt y0.1 p)) by lia. lia.
  - specialize (IH Hin). destruct (y.1 <=? p) eqn:E; [ lia | apply Z.leb_gt in E; lia ].
Qed.

Lemma depth_at_total (l : list (Z * Z)) (p : Z) :
  Forall (fun y => y.1 <= p) l -> depth_at l p = total l.
Proof.
  induction 1 as [ | y l Hy Hl IH ]; [ reflexivity | ].
  cbn [depth_at total fold_right]. fold (depth_at l p). fold (total l).
  rewrite (proj2 (Z.leb_le y.1 p)) by lia. lia.
Qed.

Lemma depth_at_nonpos (l : list (Z * Z)) (p : Z) :
  Forall (fun y => y.1 <= p -> y.2 <= 0) l -> depth_at l p <= 0.
Proof.
  induction 1 as [ | y l Hy Hl IH ]; [ reflexivity | ].
  cbn [depth_at fold_right]. fold (depth_at l p).
  destruct (y.1 <=? p) eqn:E; [ apply Z.leb_le in E; lia | lia ].
Qed.

Lemma depth_at_neg (l : list (Z * Z)) (p : Z) (y0 : Z * Z) :
  In y0 l -> y0.1 <= p -> y0.2 < 0 ->
  Forall (fun y => y.1 <= p -> y.2 <= 0) l -> depth_at l p < 0.
Proof.
  intros Hin Hp H0. induction 1 as [ | y l Hy Hl IH ]; [ destruct Hin | ].
  cbn [depth_at fold_right]. fold (depth_at l p).
  pose proof (depth_at_nonpos l p Hl) as Hle.
  destruct Hin as [-> | Hin].
  - rewrite (proj2 (Z.leb_le y0.1 p)) by lia. lia.
  - specialize (IH Hin). destruct (y.1 <=? p) eqn:E; [ apply Z.leb_le in E; lia | lia ].
Qed.

Lemma apart_snoc (C : list (Z * Z)) (s e : Z) :
  apart C -> s < e -> Forall (fun r => r.2 < s) C -> apart (C ++ [(s, e)]).
Proof.
  intros HC Hse Hall. induction C as [ | r C IH ].
  - cbn. auto.
  - destruct HC as (Hr & Hnext & HC). inversion_clear Hall as [ | ? ? Hr2 Hall' ].
    cbn [app apart]. split; [ exact Hr | ]. split; [ | now apply IH ].
    destruct C as [ | r' C' ]; [ exact Hr2 | exact Hnext ].
Qed.

Section sweep.

Variable E : list (Z * Z).
Hypothesis E_lex : sorted_lex E.
Hypothesis E_depth : forall p : Z, 0 <= depth_at E p.
Hypothesis E_steps : Forall (fun ev => ev.2 = 1 \/ ev.2 = -1) E.
Hypothesis E_ends : Forall (fun ev => ev.2 = -1 -> 1 <= depth_at E (ev.1 - 1)) E.

Lemma sweep_split (l0 l : list (Z * Z)) (ev : Z * Z) :
  E = l0 ++ ev :: l ->
  Forall (fun y => before y ev) l0
  /\ Forall (before ev) l
  /\ (ev.2 = 1 \/ ev.2 = -1)
  /\ Forall (fun y => y.2 = 1 \/ y.2 = -1) l
  /\ Forall (fun y => y.2 = -1 -> 1 <= depth_at E (y.1 - 1)) l.
Proof.
  intros HE. pose proof E_lex as Hlex. pose proof E_steps as Hsteps.
  pose proof E_ends as Hends. rewrite HE in Hlex, Hsteps, Hends.
  apply sorted_lex_split in Hlex as [[Hev _] Hl0].
  apply Forall_app in Hsteps as [_ Hsteps]. apply Forall_app in Hends as [_ Hends].
  inversion_clear Hsteps as [ | ? ? Hs1 Hs2 ]. inversion_clear Hends as [ | ? ? _ He2 ].
  rewrite <- HE in He2. split; [ | repeat split; assumption ].
  eapply Forall_impl; [ | exact Hl0 ]. intros y Hy. cbn beta in Hy.
  now inversion_clear Hy.
Qed.

Lemma step_nonneg (l0 l : list (Z * Z)) (ev : Z * Z) :
  E = l0 ++ ev :: l ->
  0 <= total l0 + ev.2
  /\ (total l0 + ev.2 = 0 -> Forall (fun y => ev.1 < y.1) l).
Proof.
  intros HE. destruct (sweep_split l0 l ev HE) as (Hl0 & Hl & Hev & _ & _).
  assert (Htot : total (l0 ++ [ev]) = total l0 + ev.2)
    by (rewrite total_app; cbn; lia).
  assert (Hsplit : forall p, depth_at E p = depth_at (l0 ++ [ev]) p + depth_at l p).
  { intros p. rewrite HE, <- depth_at_app, <- app_assoc. reflexivity. }
  destruct Hev as [Hev | Hev].
  - (* a start *)
    assert (Hup : Forall (fun y => ev.1 - 1 < y.1 -> 0 <= y.2) (l0 ++ [ev])).
    { apply Forall_app. split; [ | repeat constructor; lia ].
      eapply Forall_impl; [ | exact Hl0 ]. intros y Hy. cbn beta in Hy.
      unfold before in Hy. lia. }
    assert (Hlate : depth_at l (ev.1 - 1) = 0).
    { apply (depth_at_before l ev.1); [ | lia ].
      eapply Forall_impl; [ | exact Hl ]. intros y Hy. cbn beta in Hy.
      unfold before in Hy. lia. }
    pose proof (depth_at_lt_total (l0 ++ [ev]) (ev.1 - 1) ev
                  ltac:(apply in_app_iff; right; now left) ltac:(lia) ltac:(lia) Hup)
      as Hlt.
    pose proof (E_depth (ev.1 - 1)) as H0. rewrite Hsplit, Hlate in H0.
    split; [ lia | intros Hz; lia ].
  - (* an end *)
    assert (Hall : Forall (fun y => y.1 <= ev.1) (l0 ++ [ev])).
    { apply Forall_app. split; [ | repeat constructor; lia ].
      eapply Forall_impl; [ | exact Hl0 ]. intros y Hy. cbn beta in Hy.
      unfold before in Hy. lia. }
    assert (Hlate : Forall (fun y => y.1 <= ev.1 -> y.2 <= 0) l).
    { eapply Forall_impl; [ | exact Hl ]. intros y Hy. cbn beta in Hy.
      unfold before in Hy. lia. }
    pose proof (depth_at_total _ _ Hall) as Heq.
    pose proof (depth_at_nonpos _ _ Hlate) as Hle.
    pose proof (E_depth ev.1) as H0. rewrite Hsplit in H0.
    split; [ lia | ]. intros Hz. apply Forall_forall. intros y Hy.
    destruct (Z_lt_le_dec ev.1 y.1) as [Hlt | Hge]; [ exact Hlt | exfalso ].
    assert (Hyb : before ev y) by (rewrite Forall_forall in Hl; now apply Hl).
    pose proof (depth_at_neg l ev.1 y Hy Hge ltac:(unfold before in Hyb; lia) Hlate).
    lia.
Qed.

Lemma prefix_nonneg (l0 l : list (Z * Z)) : E = l0 ++ l -> 0 <= total l0.
Proof.
  induction l0 as [ | ev l0' _ ] using rev_ind; intros HE.
  - reflexivity.
  - rewrite <- app_assoc in HE. cbn [app] in HE.
    destruct (step_nonneg l0' l ev HE) as [H _].
    rewrite total_app. cbn. lia.
Qed.

Lemma step_opening (l0 l : list (Z * Z)) (ev : Z * Z) :
  E = l0 ++ ev :: l ->
  total l0 = 0 ->
  Forall (fun y => y.2 < 0 -> ev.1 < y.1) l.
Proof.
  intros HE Hd. destruct (sweep_split l0 l ev HE) as (Hl0 & Hl & Hev & Hsteps & Hends).
  destruct (step_nonneg l0 l ev HE) as [Hnn _].
  assert (Hev1 : ev.2 = 1) by lia.
  apply Forall_forall. intros y Hy Hneg.
  assert (Hyb : before ev y) by (rewrite Forall_forall in Hl; now apply Hl).
  destruct (Z_lt_le_dec ev.1 y.1) as [Hlt | Hge]; [ exact Hlt | exfalso ].
  assert (Hyq : y.1 = ev.1) by (unfold before in Hyb; lia).
  assert (Hy1 : y.2 = -1).
  { rewrite Forall_forall in Hsteps. specialize (Hsteps y Hy). lia. }
  assert (Hcov : 1 <= depth_at E (ev.1 - 1)).
  { rewrite Forall_forall in Hends. specialize (Hends y Hy Hy1). now rewrite Hyq in Hends. }
  assert (Hup : Forall (fun z => ev.1 - 1 < z.1 -> 0 <= z.2) l0).
  { eapply Forall_impl; [ | exact Hl0 ]. intros z Hz. cbn beta in Hz.
    unfold before in Hz. lia. }
  pose proof (depth_at_le_total l0 (ev.1 - 1) Hup) as Hle.
  assert (Hlate : depth_at (ev :: l) (ev.1 - 1) = 0).
  { apply (depth_at_before (ev :: l) ev.1); [ | lia ].
    constructor; [ lia | ].
    eapply Forall_impl; [ | exact Hl ]. intros z Hz. cbn beta in Hz.
    unfold before in Hz. lia. }
  rewrite HE, depth_at_app, Hlate in Hcov. lia.
Qed.

Lemma combine_ranges_apart (l : list (Z * Z)) :
  forall (l0 : list (Z * Z)) (st : Z) (C : list (Z * Z)),
    E = l0 ++ l ->
    apart C ->
    (total l0 = 0 -> Forall (fun r => Forall (fun ev => r.2 < ev.1) l) C) ->
    (total l0 <> 0 ->
     Forall (fun r => r.2 < st) C
     /\ Forall (fun ev => st <= ev.1 /\ (ev.2 < 0 -> st < ev.1)) l) ->
    apart (combine_ranges (total l0) st C (cumulative (total l0) l)).
Proof.
  induction l as [ | [pos delta] l IH ]; intros l0 st C HE HC Hclosed Hopen.
  - exact HC.
  - cbn [cumulative combine_ranges fst snd].
    assert (HE' : E = (l0 ++ [(pos, delta)]) ++ l) by (now rewrite <- app_assoc).
    assert (Htot : total (l0 ++ [(pos, delta)]) = total l0 + delta)
      by (rewrite total_app; cbn; lia).
    pose proof (prefix_nonneg l0 _ HE) as Hd.
    destruct (step_nonneg l0 l (pos, delta) HE) as [Hd' Hclose]. cbn [fst snd] in Hd', Hclose.
    destruct (sweep_split l0 l (pos, delta) HE) as (_ & Hl & _ & _ & _).
    assert (Hpos : Forall (fun y => pos <= y.1) l).
    { eapply Forall_impl; [ | exact Hl ]. intros y Hy. cbn beta in Hy.
      unfold before in Hy. cbn [fst] in Hy. lia. }
    rewrite <- Htot. destruct (total l0 =? 0) eqn:E0.
    + apply Z.eqb_eq in E0. specialize (Hclosed E0).
      pose proof (step_opening l0 l (pos, delta) HE E0) as Hopening. cbn [fst] in Hopening.
      apply (IH (l0 ++ [(pos, delta)]) pos C HE' HC).
      * intros _. eapply Forall_impl; [ | exact Hclosed ]. intros r Hr. cbn beta in Hr.
        now inversion_clear Hr.
      * intros _. split.
        -- eapply Forall_impl; [ | exact Hclosed ]. intros r Hr. cbn beta in Hr.
           inversion_clear Hr as [ | ? ? Hr1 _ ]. exact Hr1.
        -- rewrite Forall_forall in Hpos, Hopening |- *. intros y Hy.
           specialize (Hpos y Hy). specialize (Hopening y Hy). lia.
    + apply Z.eqb_neq in E0. destruct (Hopen E0) as [HCst Hl'].
      inversion_clear Hl' as [ | ? ? [Hst1 Hst2] Hl'' ]. cbn [fst snd] in Hst1, Hst2.
      destruct (total (l0 ++ [(pos, delta)]) =? 0) eqn:E1.
      * apply Z.eqb_eq in E1. specialize (Hclose ltac:(lia)).
        apply (IH (l0 ++ [(pos, delta)]) st (C ++ [(st, pos)]) HE').
        -- apply apart_snoc; [ exact HC | lia | exact HCst ].
        -- intros _. apply Forall_app. split.
           ++ rewrite Forall_forall in HCst |- *. intros r Hr. specialize (HCst r Hr).
              rewrite Forall_forall in Hpos |- *. intros y Hy. specialize (Hpos y Hy). lia.
           ++ repeat constructor. exact Hclose.
        -- intros H. now contradiction H.
      * apply Z.eqb_neq in E1.
        apply (IH (l0 ++ [(pos, delta)]) st C HE' HC).
        -- intros H. now contradiction E1.
        -- intros _. split; [ exact HCst | exact Hl'' ].
Qed.

End sweep.

(** The ranges that [simplify_ranges] returns are not empty, they are
    in ascending order and apart from one another: each one ends before
    the next one starts, so that no two of them overlap or touch. *)
Theorem simplify_ranges_apart (ranges : list (Z * Z)) :
  apart (simplify_ranges ranges).
Proof.
  set (F := fixed_ranges ranges).
  assert (Hd : forall p, depth_at (starts_ends ranges) p = cover_count F p).
  { intros p. unfold starts_ends. rewrite depth_at_sort.
    apply depth_at_starts_ends, fixed_ranges_proper. }
  unfold simplify_ranges.
  apply (combine_ranges_apart (starts_ends ranges)) with (l0 := []).
  - apply sorted_lex_sort, steps_down_starts_ends.
  - intros p. rewrite Hd. apply cover_count_covered.
  - apply Forall_sort. apply Forall_app.
    split; apply Forall_map; apply Forall_forall; intros x _; cbn; auto.
  - apply Forall_sort. apply Forall_app. split; apply Forall_map; apply Forall_forall.
    + intros x _. cbn. lia.
    + intros x Hx _. cbn [fst]. rewrite Hd.
      destruct (cover_count_covered F (x.2 - 1)) as [H0 Hc].
      assert (Hne : cover_count F (x.2 - 1) <> 0).
      { apply Hc. exists x. split; [ exact Hx | ].
        pose proof (fixed_ranges_proper ranges) as Hp.
        rewrite Forall_forall in Hp. specialize (Hp x Hx). lia. }
      lia.
  - reflexivity.
  - exact I.
  - intros _. constructor.
  - intros H. now contradiction H.
Qed.

(** ** Lines of wrapped text *)

Lemma fill_fits (width : Z) (chunks : list (list ascii)) :
  forall (cur_line : list (list ascii)) (cur_len : Z),
    cur_len <= width -> (fill width cur_line cur_len chunks).1.2 <= width.
Proof.
  induction chunks as [ | ch chunks IH ]; intros cur_line cur_len Hlen; cbn [fill].
  - exact Hlen.
  - destruct (Z.leb_spec (cur_len + len ch) width); [ now apply IH | exact Hlen ].
Qed.

Lemma rfind_from_lt (c : ascii) (x : list ascii) :
  forall i : Z, 0 <= i -> rfind_from c i x < i + len x.
Proof.
  induction x as [ | d x IH ]; intros i Hi; cbn [rfind_from].
  - change (len []) with 0. lia.
  - specialize (IH (i + 1) ltac:(lia)). pose proof (len_nonneg x) as Hx.
    assert (Hl : len (d :: x) = 1 + len x) by (unfold len; cbn [length]; lia).
    destruct (0 <=? rfind_from c (i + 1) x); [ lia | ].
    destruct (Ascii.eqb d c); lia.
Qed.

Lemma len_slice_to (x : list ascii) (e : Z) : 0 <= e -> len (slice_to x e) <= e.
Proof.
  intros He. unfold slice_to, len. rewrite (proj2 (Z.ltb_ge e 0)) by lia.
  rewrite length_firstn. lia.
Qed.

Lemma long_word_fits (ch : list ascii) (rest cur_line : list (list ascii))
  (cur_len width : Z) :
  1 <= width -> cur_len <= width -> len (concat cur_line) = cur_len ->
  len (concat (_handle_long_word (ch :: rest) cur_line cur_len width).1) <= width.
Proof.
  intros Hw Hlen Hcur. unfold _handle_long_word. cbn [fst].
  rewrite concat_app. cbn [concat]. rewrite app_nil_r, len_app, Hcur.
  rewrite (proj2 (Z.ltb_ge width 1)) by lia.
  set (space_left := width - cur_len).
  pose proof (rfind_from_lt "-" (slice_to ch space_left) 0 ltac:(lia)) as Hh.
  pose proof (len_slice_to ch space_left ltac:(unfold space_left; lia)) as Hs.
  fold (rfind "-" ch space_left) in Hh.
  match goal with |- context [slice_to ch ?e] => set (end_ := e) end.
  assert (He : 0 <= end_ <= space_left).
  { unfold end_. destruct (space_left <? len ch); cbn [andb];
      [ | unfold space_left; lia ].
    destruct (Z.ltb_spec 0 (rfind "-" ch space_left)); cbn [andb];
      [ | unfold space_left; lia ].
    destruct (existsb _ _); unfold space_left in *; lia. }
  pose proof (len_slice_to ch end_ ltac:(lia)). unfold space_left in *. lia.
Qed.

Lemma drop_last_blank_len (cur_line : list (list ascii)) :
  len (concat (drop_last_blank cur_line)) <= len (concat cur_line).
Proof.
  unfold drop_last_blank. destruct (rev cur_line) as [ | ch before ] eqn:E; [ lia | ].
  destruct (blank ch); [ | lia ].
  apply (f_equal (@rev (list ascii))) in E. rewrite rev_involutive in E. subst cur_line.
  cbn [rev]. rewrite concat_app, len_app. cbn [concat]. rewrite app_nil_r.
  pose proof (len_nonneg ch). lia.
Qed.

Lemma wrap_step_fits (w : Z) (subsequent_indent : list ascii)
  (lines chunks : list (list ascii)) :
  len subsequent_indent < w ->
  Forall (fun line => len line <= w) lines ->
  Forall (fun line => len line <= w) (wrap_step w subsequent_indent lines chunks).1.
Proof.
  intros Hind Hlines. pose proof (len_nonneg subsequent_indent) as Hnn.
  unfold wrap_step.
  set (indent_ := match lines with [] => initial_indent | _ :: _ => subsequent_indent end).
  set (width := w - len indent_).
  assert (Hwidth : 1 <= width).
  { unfold width, indent_. destruct lines; [ change (len initial_indent) with 0 | ]; lia. }
  match goal with |- context [fill width [] 0 ?c] => set (chunks1 := c) end.
  destruct (fill_spec width chunks1 [] 0) as (taken & chunks2 & Hfill & _ & _).
  pose proof (fill_fits width chunks1 [] 0 ltac:(lia)) as Hfit.
  rewrite Hfill in Hfit |- *. cbn [fst snd app] in Hfit |- *. rewrite Z.add_0_l in *.
  match goal with
  | |- context [let '(a, b) := ?X in _] => destruct X as [cur_line chunks3] eqn:Hh
  end.
  assert (Hcl : len (concat cur_line) <= width).
  { destruct chunks2 as [ | ch rest2 ]; [ injection Hh as <- <-; exact Hfit | ].
    destruct (width <? len ch).
    - pose proof (long_word_fits ch rest2 taken (len (concat taken)) width
                    Hwidth Hfit eq_refl) as H.
      now rewrite Hh in H.
    - injection Hh as <- <-. exact Hfit. }
  pose proof (drop_last_blank_len cur_line) as Hdrop.
  destruct (drop_last_blank cur_line) as [ | c0 cl ]; cbn [fst]; [ exact Hlines | ].
  apply Forall_app. split; [ exact Hlines | ]. repeat constructor.
  rewrite len_app. unfold width in *. lia.
Qed.

Lemma wrap_loop_fits (w : Z) (subsequent_indent : list ascii) :
  len subsequent_indent < w ->
  forall (bound : nat) (lines chunks out : list (list ascii)),
    Forall (fun line => len line <= w) lines ->
    wrap_loop bound w subsequent_indent lines chunks = Some out ->
    Forall (fun line => len line <= w) out.
Proof.
  intros Hind bound. induction bound as [ | bound IH ]; intros lines chunks out Hlines Hout.
  - destruct chunks; [ injection Hout as <-; exact Hlines | discriminate Hout ].
  - destruct chunks as [ | ch chunks ]; [ injection Hout as <-; exact Hlines | ].
    cbn [wrap_loop] in Hout.
    pose proof (wrap_step_fits w subsequent_indent lines (ch :: chunks) Hind Hlines) as Hs.
    destruct (wrap_step w subsequent_indent lines (ch :: chunks)) as [lines' chunks'].
    cbn [fst] in Hs. exact (IH lines' chunks' out Hs Hout).
Qed.

(** With a continuation indent shorter than the width, [wrap] returns
    lines of which none is longer than the width, the indent counted. *)
Theorem wrap_lines_fit (subsequent_indent : list ascii) (w : Z) (text : list ascii) :
  len subsequent_indent < w ->
  exists lines,
    wrap subsequent_indent w text = Ok lines
    /\ Forall (fun line => len line <= w) lines.
Proof.
  intros Hind. pose proof (len_nonneg subsequent_indent) as Hnn.
  destruct (wrap_returns subsequent_indent w text ltac:(lia)) as [lines Hl].
  exists lines. split; [ exact Hl | ]. unfold wrap, _wrap_chunks in Hl.
  destruct (Z.leb_spec w 0); [ lia | ].
  destruct (wrap_loop _ _ _ _ _) as [out | ] eqn:Hloop; [ | discriminate Hl ].
  injection Hl as <-.
  exact (wrap_loop_fits w subsequent_indent Hind _ _ _ _ (Forall_nil _) Hloop).
Qed.

Lemma wrap_lines_fit_witness :
  exists lines,
    wrap (pystr "  ") 6 (pystr "a-long-word and more") = Ok lines
    /\ Forall (fun line => len line <= 6) lines.
Proof. apply wrap_lines_fit. reflexivity. Defined.

Lemma nonspace_app (x y : list ascii) : nonspace (x ++ y) = nonspace x ++ nonspace y.
Proof. apply filter_app. Qed.

Lemma nonspace_blank (x : list ascii) : blank x = true -> nonspace x = [].
Proof.
  induction x as [ | c x IH ]; [ reflexivity | ]. cbn [blank forallb nonspace List.filter].
  intros H. apply andb_true_iff in H as [Hc Hx]. rewrite Hc. cbn [negb]. now apply IH.
Qed.

Lemma nonspace_spaces (n : nat) : nonspace (repeat SP n) = [].
Proof. induction n as [ | n IH ]; [ reflexivity | exact IH ]. Qed.

Lemma nonspace_expandtabs (x : list ascii) :
  forall tabsize col : nat, nonspace (expandtabs_from tabsize col x) = nonspace x.
Proof.
  induction x as [ | c x IH ]; intros tabsize col; [ reflexivity | ].
  cbn [expandtabs_from]. destruct (Ascii.eqb_spec c TAB) as [-> | Hc].
  - change (nonspace (TAB :: x)) with (nonspace x).
    destruct tabsize; [ apply IH | ].
    now rewrite nonspace_app, nonspace_spaces, IH.
  - cbn [nonspace List.filter]. fold (nonspace x).
    fold (nonspace (expandtabs_from tabsize
                      (if (Ascii.eqb c NL || Ascii.eqb c CR)%bool then 0 else S col)%nat x)).
    now rewrite IH.
Qed.

Lemma nonspace_translate (x : list ascii) : nonspace (translate_whitespace x) = nonspace x.
Proof.
  induction x as [ | c x IH ]; [ reflexivity | ].
  cbn [translate_whitespace map nonspace List.filter].
  fold (translate_whitespace x). fold (nonspace (translate_whitespace x)).
  fold (nonspace x). rewrite IH.
  destruct (is_ws c) eqn:Hc; [ | reflexivity ].
  rewrite (is_ws_isspace c Hc). reflexivity.
Qed.

Lemma slice_to_from (x : list ascii) (e : Z) : slice_to x e ++ slice_from x e = x.
Proof. unfold slice_to, slice_from. destruct (e <? 0); apply firstn_skipn. Qed.

Lemma nonspace_drop_last_blank (cur_line : list (list ascii)) :
  nonspace (concat (drop_last_blank cur_line)) = nonspace (concat cur_line).
Proof.
  unfold drop_last_blank. destruct (rev cur_line) as [ | ch before ] eqn:E; [ reflexivity | ].
  destruct (blank ch) eqn:Hb; [ | reflexivity ].
  apply (f_equal (@rev (list ascii))) in E. rewrite rev_involutive in E. subst cur_line.
  cbn [rev]. rewrite concat_app, nonspace_app. cbn [concat].
  now rewrite app_nil_r, (nonspace_blank ch Hb), app_nil_r.
Qed.

Lemma wrap_step_keeps (w : Z) (subsequent_indent : list ascii)
  (lines chunks : list (list ascii)) :
  blank subsequent_indent = true ->
  nonspace (concat (wrap_step w subsequent_indent lines chunks).1
            ++ concat (wrap_step w subsequent_indent lines chunks).2)
  = nonspace (concat lines ++ concat chunks).
Proof.
  intros Hind. unfold wrap_step.
  set (indent_ := match lines with [] => initial_indent | _ :: _ => subsequent_indent end).
  assert (Hindent : nonspace indent_ = []).
  { unfold indent_. destruct lines; [ reflexivity | now apply nonspace_blank ]. }
  set (width := w - len indent_).
  match goal with |- context [fill width [] 0 ?c] => set (chunks1 := c) end.
  assert (H1 : nonspace (concat chunks1) = nonspace (concat chunks)).
  { unfold chunks1. destruct chunks as [ | ch rest ]; [ reflexivity | ].
    destruct lines; [ reflexivity | ]. destruct (blank ch) eqn:Hb; [ | reflexivity ].
    cbn [concat]. now rewrite nonspace_app, (nonspace_blank ch Hb). }
  destruct (fill_spec width chunks1 [] 0) as (taken & chunks2 & Hfill & Hsplit & _).
  rewrite Hfill. cbn [app]. rewrite Z.add_0_l.
  match goal with
  | |- context [let '(a, b) := ?X in _] => destruct X as [cur_line chunks3] eqn:Hh
  end.
  assert (H2 : concat cur_line ++ concat chunks3 = concat chunks1).
  { rewrite Hsplit, concat_app.
    destruct chunks2 as [ | ch rest2 ]; [ now injection Hh as <- <- | ].
    destruct (width <? len ch); [ | now injection Hh as <- <- ].
    unfold _handle_long_word in Hh. injection Hh as <- <-.
    rewrite concat_app. cbn [concat]. rewrite app_nil_r, <- app_assoc.
    f_equal. rewrite app_assoc. f_equal. apply slice_to_from. }
  pose proof (nonspace_drop_last_blank cur_line) as H3.
  assert (Hgoal : forall out : list (list ascii),
             nonspace (concat out) = nonspace (concat lines)
                                     ++ nonspace (concat (drop_last_blank cur_line)) ->
             nonspace (concat out ++ concat chunks3) = nonspace (concat lines ++ concat chunks)).
  { intros out Hout. rewrite !nonspace_app, Hout, H3, <- H1, <- H2, nonspace_app.
    now rewrite app_assoc. }
  destruct (drop_last_blank cur_line) as [ | c0 cl ] eqn:Hd; cbn [fst snd]; apply Hgoal.
  - cbn [concat]. change (nonspace []) with (@nil ascii). now rewrite app_nil_r.
  - rewrite concat_app, nonspace_app. cbn [concat]. rewrite app_nil_r.
    f_equal. now rewrite nonspace_app, Hindent.
Qed.

Lemma wrap_loop_keeps (w : Z) (subsequent_indent : list ascii) :
  blank subsequent_indent = true ->
  forall (bound : nat) (lines chunks out : list (list ascii)),
    wrap_loop bound w subsequent_indent lines chunks = Some out ->
    nonspace (concat out) = nonspace (concat lines ++ concat chunks).
Proof.
  intros Hind bound. induction bound as [ | bound IH ]; intros lines chunks out Hout.
  - destruct chunks; [ injection Hout as <- | discriminate Hout ].
    cbn [concat]. now rewrite app_nil_r.
  - destruct chunks as [ | ch chunks ];
      [ injection Hout as <-; cbn [concat]; now rewrite app_nil_r | ].
    cbn [wrap_loop] in Hout.
    pose proof (wrap_step_keeps w subsequent_indent lines (ch :: chunks) Hind) as Hs.
    destruct (wrap_step w subsequent_indent lines (ch :: chunks)) as [lines' chunks'].
    cbn [fst snd] in Hs. rewrite <- Hs. exact (IH lines' chunks' out Hout).
Qed.

(** Wrapping takes nothing but space characters away and puts nothing
    but the indent in: with a continuation indent of space characters,
    if any, the characters of the lines that are no space characters are
    those of the text, in their order. *)
Theorem wrap_keeps_text (subsequent_indent : list ascii) (w : Z) (text : list ascii) :
  1 <= w ->
  blank subsequent_indent = true ->
  exists lines,
    wrap subsequent_indent w text = Ok lines
    /\ nonspace (concat lines) = nonspace text.
Proof.
  intros Hw Hind. destruct (wrap_returns subsequent_indent w text Hw) as [lines Hl].
  exists lines. split; [ exact Hl | ]. unfold wrap, _wrap_chunks in Hl.
  destruct (Z.leb_spec w 0); [ lia | ].
  destruct (wrap_loop _ _ _ _ _) as [out | ] eqn:Hloop; [ | discriminate Hl ].
  injection Hl as <-.
  rewrite (wrap_loop_keeps w subsequent_indent Hind _ _ _ _ Hloop).
  cbn [concat app]. unfold _split_chunks. rewrite concat_split.
  unfold _munge_whitespace, expandtabs.
  now rewrite nonspace_translate, nonspace_expandtabs.
Qed.

Lemma wrap_keeps_text_witness :
  exists lines,
    wrap (pystr "  ") 6 (pystr "a-long-word and more") = Ok lines
    /\ nonspace (concat lines) = nonspace (pystr "a-long-word and more").
Proof. apply wrap_keeps_text; [ lia | reflexivity ]. Defined.

(** ** One option to a line *)

Lemma len_times (c : ascii) (n : Z) : len (times c n) = Z.max 0 n.
Proof. unfold times, len. rewrite repeat_length. lia. Qed.

Lemma pack_fits (width wrap_column : Z) (join_ : list ascii) (parts : list (list ascii)) :
  Forall (fun part => Z.max 0 wrap_column + len part <= width) parts ->
  forall current_line : list ascii,
    len current_line <= width ->
    Forall (fun line => len line <= width + len join_)
      (pack width wrap_column join_ current_line parts).
Proof.
  pose proof (len_nonneg join_) as Hj.
  induction 1 as [ | part parts Hp Hparts IH ]; intros current_line Hc; cbn [pack].
  - repeat constructor. lia.
  - destruct (Z.leb_spec (len current_line + len join_ + 1 + len part) width) as [Hfit | Hno].
    + apply IH. rewrite !len_app. change (len [SP]) with 1. lia.
    + constructor; [ rewrite len_app; lia | ].
      apply IH. rewrite len_app, len_times. lia.
Qed.

Lemma mapM_result_all {A B : Type} (f : A -> result B) (l : list A) (ys : list B)
  (P : B -> Prop) :
  (forall x y, In x l -> f x = Ok y -> P y) -> mapM f l = Ok ys -> Forall P ys.
Proof.
  revert ys. induction l as [ | x l IH ]; intros ys HP Hm.
  - injection Hm as <-. constructor.
  - cbn [mapM] in Hm. destruct (f x) as [y | e] eqn:Hy; [ | discriminate Hm ].
    cbn [mbind result_bind] in Hm.
    destruct (mapM f l) as [k | e] eqn:Hk; [ | discriminate Hm ].
    injection Hm as <-. constructor.
    + apply (HP x y); [ now left | exact Hy ].
    + apply IH; [ | reflexivity ]. intros x' y' Hx'. apply HP. now right.
Qed.

Lemma mapM_result_raises {A B : Type} (f : A -> result B) (l : list A) :
  (forall x, (exists y, f x = Ok y) \/ f x = Raise IndexError) ->
  mapM f l = Raise IndexError <-> exists x, In x l /\ f x = Raise IndexError.
Proof.
  intros Hf. induction l as [ | x l IH ].
  - split; [ discriminate | intros (x & [] & _) ].
  - cbn [mapM]. destruct (Hf x) as [[y Hy] | Hx].
    + rewrite Hy. cbn [mbind result_bind]. destruct (mapM f l) as [k | e] eqn:Hk.
      * split; [ discriminate | ]. intros (x' & [<- | Hin] & Hx'); [ congruence | ].
        assert (H : Ok k = Raise IndexError :> result (list B)) by (apply IH; eauto).
        discriminate H.
      * cbn [mbind result_bind]. split.
        -- intros He. assert (H : Raise e = Raise IndexError :> result (list B))
             by congruence.
           apply IH in H as (x' & Hin & Hx'). exists x'. split; [ now right | exact Hx' ].
        -- intros (x' & [<- | Hin] & Hx'); [ congruence | ].
           assert (H : Raise e = Raise IndexError :> result (list B)) by (apply IH; eauto).
           congruence.
    + rewrite Hx. cbn [mbind result_bind]. split; [ | reflexivity ].
      intros _. exists x. split; [ now left | exact Hx ].
Qed.

Lemma split_line_list (width : Z) (line : list ascii) :
  exists lines, split_line false width line = Ok lines.
Proof.
  unfold split_line. destruct (len line <=? width); [ eauto | ].
  pose proof (split_sep_from_not_nil (pystr ", ") line 0 []) as Hne.
  fold (split_sep (pystr ", ") line) in Hne.
  destruct (split_sep (pystr ", ") line); [ congruence | eauto ].
Qed.

Lemma split_line_equals (width : Z) (line : list ascii) :
  ((exists lines, split_line true width line = Ok lines)
   \/ split_line true width line = Raise IndexError)
  /\ (split_line true width line = Raise IndexError
      <-> width < len line /\ blank line = true).
Proof.
  unfold split_line. destruct (Z.leb_spec (len line) width) as [Hfit | Hlong].
  - split; [ left; eauto | ]. split; [ discriminate | lia ].
  - destruct (split_whitespace line) as [ | first parts ] eqn:E.
    + split; [ now right | ]. split; [ | reflexivity ]. intros _.
      apply split_whitespace_from_nil in E as [_ E]. auto.
    + split; [ left; eauto | ]. split; [ discriminate | ]. intros [_ Hb].
      unfold split_whitespace in E. rewrite (split_whitespace_from_blank line Hb) in E.
      discriminate E.
Qed.

(** A help text that starts with [R|] is split without an error, and
    when every option of its lines, the two spaces of the indent
    counted, is no longer than the width, no line that comes out is
    longer than the width and one more: the comma after a full line is
    not counted when the line is filled. *)
Theorem split_lines_list_fits (rest : list ascii) (width : Z) :
  Forall (fun line => Forall (fun part => 2 + len part <= width)
                        (split_sep (pystr ", ") line))
    (splitlines rest) ->
  exists lines,
    _split_lines (pystr "R|" ++ rest) width = Ok lines
    /\ Forall (fun line => len line <= width + 1) lines.
Proof.
  intros Hparts. unfold _split_lines.
  change (startswith (pystr "B|") (pystr "R|" ++ rest)) with false.
  change (startswith (pystr "R|") (pystr "R|" ++ rest)) with true.
  cbn [orb]. change (skipn 2 (pystr "R|" ++ rest)) with rest.
  destruct (mapM_result_ok (split_line false width) (splitlines rest)) as (wrapped & Hw & _).
  { apply Forall_forall. intros line _. apply split_line_list. }
  rewrite Hw. cbn [mbind result_bind]. eexists. split; [ reflexivity | ].
  apply Forall_concat.
  apply (mapM_result_all (split_line false width) (splitlines rest) wrapped); [ | exact Hw ].
  intros line lines Hin Hl. rewrite Forall_forall in Hparts. specialize (Hparts line Hin).
  unfold split_line in Hl. destruct (Z.leb_spec (len line) width) as [Hfit | Hlong].
  - injection Hl as <-. repeat constructor. lia.
  - destruct (split_sep (pystr ", ") line) as [ | first parts ]; [ discriminate Hl | ].
    injection Hl as <-. inversion_clear Hparts as [ | ? ? Hfirst Hrest ].
    apply (pack_fits width 2 (pystr ",") parts); [ | lia ].
    eapply Forall_impl; [ | exact Hrest ]. intros part Hp. cbn beta in Hp. lia.
Qed.

Lemma split_lines_list_fits_witness :
  exists lines,
    _split_lines (pystr "R|" ++ pystr "opt1, opt2, opt3, opt4") 10 = Ok lines
    /\ Forall (fun line => len line <= 10 + 1) lines.
Proof.
  apply split_lines_list_fits. vm_compute. repeat constructor; discriminate.
Defined.

(** A help text that starts with [B|] makes [_split_lines] fail, with
    an [IndexError], when one of its lines is longer than the width and
    blank, and then only: the first word of the line is asked for. *)
Theorem split_lines_blank_line (rest : list ascii) (width : Z) :
  _split_lines (pystr "B|" ++ rest) width = Raise IndexError
  <-> exists line, In line (splitlines rest) /\ width < len line /\ blank line = true.
Proof.
  unfold _split_lines.
  change (startswith (pystr "B|") (pystr "B|" ++ rest)) with true.
  cbn [orb]. change (skipn 2 (pystr "B|" ++ rest)) with rest.
  pose proof (mapM_result_raises (split_line true width) (splitlines rest)
                (fun line => proj1 (split_line_equals width line))) as Hm.
  assert (Hiff : (exists x, In x (splitlines rest)
                            /\ split_line true width x = Raise IndexError)
                 <-> exists line, In line (splitlines rest)
                                  /\ width < len line /\ blank line = true).
  { split; intros (line & Hin & H); exists line; (split; [ exact Hin | ]);
      now apply (split_line_equals width line). }
  rewrite <- Hiff, <- Hm.
  destruct (mapM (split_line true width) (splitlines rest)) as [wrapped | e];
    cbn [mbind result_bind];
    [ split; discriminate | split; intros H; injection H as ->; reflexivity ].
Qed.

(** ** The lines of a table *)





































(** ** Lines before the first header *)

Lemma fasta_header_line (st : fasta_state) (name : list ascii) :
  no_space name = true ->
  no_space (fasta_name st) = true ->
  fasta_line st (">"%char :: name ++ [NL])
  = Ok {| fasta_name := name;
          fasta_sequence := if truthy (fasta_name st) then [] else fasta_sequence st;
          fasta_seqs :=
            fasta_seqs st
            ++ (if truthy (fasta_name st)
                then [(fasta_name st, fasta_name st, fasta_sequence st)] else []) |}.
Proof.
  intros Hn Hst. unfold fasta_line.
  change (">"%char :: name ++ [NL]) with ((">"%char :: name) ++ [NL]).
  rewrite strip_line by exact Hn.
  change (Ascii.eqb ">" ">") with true. cbv iota. unfold fasta_flush.
  destruct (fasta_name st) as [ | c name0 ] eqn:En; cbn [truthy].
  - cbn [mbind result_bind]. now rewrite app_nil_r.
  - rewrite first_word_one_word by (rewrite <- ?En; congruence).
    cbn [mbind result_bind fasta_sequence fasta_seqs]. reflexivity.
Qed.

Lemma fasta_records_from (w : nat) (record : list ascii * list ascii)
  (records : list (list ascii * list ascii)) (st : fasta_state) :
  (0 < w)%nat ->
  Forall (fun record => one_word_record record = true) (record :: records) ->
  no_space (fasta_name st) = true ->
  (st' ← fasta_lines st
          (flat_map (fun record =>
                       (">"%char :: record.1 ++ [NL])
                       :: map (fun piece => piece ++ [NL]) (sequence_lines w record.2))
             (record :: records));
   st'' ← fasta_flush false st';
   Ok (fasta_seqs st''))
  = Ok (fasta_seqs st
        ++ (if truthy (fasta_name st)
            then [(fasta_name st, fasta_name st, fasta_sequence st)] else [])
        ++ (record.1, record.1,
            (if truthy (fasta_name st) then [] else fasta_sequence st) ++ record.2)
           :: map (fun record => (record.1, record.1, record.2)) records).
Proof.
  intros Hw Hall Hst. inversion_clear Hall as [ | ? ? Hr Hrecords ].
  destruct record as [n s]. unfold one_word_record in Hr. cbn [fst snd] in Hr |- *.
  apply andb_true_iff in Hr as [Hr Hs]. apply andb_true_iff in Hr as [Hn Hns].
  cbn [flat_map fst snd]. rewrite <- app_comm_cons. cbn [fasta_lines].
  rewrite (fasta_header_line st n Hns Hst). cbn [mbind result_bind].
  rewrite fasta_pieces by now apply sequence_lines_forallb.
  cbn [fasta_name fasta_sequence fasta_seqs].
  rewrite (concat_sequence_lines w s Hw).
  rewrite (fasta_records w records Hw Hrecords); cbn [fasta_name fasta_sequence fasta_seqs].
  - rewrite Hn. cbn [app]. rewrite <- !app_assoc. reflexivity.
  - intros ->. discriminate Hn.
  - exact Hns.
Qed.

(** Sequence lines that come before the first header are not left
    out: [load_fasta] puts them in front of the sequence of the first
    record.  Lines with no header at all give no record. *)
Theorem load_fasta_leading_lines (BASES_PER_FASTA_LINE line_length : Z)
  (pieces : list (list ascii)) (record : list ascii * list ascii)
  (records : list (list ascii * list ascii)) :
  0 < (if line_length <=? 0 then BASES_PER_FASTA_LINE else line_length) ->
  Forall (fun piece => forallb sequence_char piece = true) pieces ->
  Forall (fun record => one_word_record record = true) (record :: records) ->
  exists text,
    records_text BASES_PER_FASTA_LINE line_length (record :: records) = Ok text
    /\ load_fasta (map (fun piece => piece ++ [NL]) pieces ++ file_lines text)
       = Ok ((record.1, concat pieces ++ record.2) :: records)
    /\ load_fasta (map (fun piece => piece ++ [NL]) pieces) = Ok [].
Proof.
  intros HL Hpieces Hrecords.
  destruct (records_file_lines _ _ _ HL Hrecords) as (text & Htext & Hlines).
  exists text. split; [ exact Htext | ]. rewrite Hlines.
  unfold load_fasta, load_fasta_with_full_header. split.
  - rewrite (fasta_pieces pieces _ Hpieces). cbn [fasta_name fasta_sequence fasta_seqs app].
    rewrite fasta_records_from; [ | lia | exact Hrecords | reflexivity ].
    cbn [fasta_name fasta_sequence fasta_seqs truthy app mbind result_bind map].
    now rewrite without_headers.
  - rewrite <- (app_nil_r (map _ pieces)). rewrite (fasta_pieces pieces [] Hpieces).
    reflexivity.
Qed.

Lemma load_fasta_leading_lines_witness :
  exists text,
    records_text 70 4 [(pystr "b", pystr "ACGTAC")] = Ok text
    /\ load_fasta (map (fun piece => piece ++ [NL]) [pystr "TT"; pystr "GG"]
                   ++ file_lines text)
       = Ok [(pystr "b", concat [pystr "TT"; pystr "GG"] ++ pystr "ACGTAC")]
    /\ load_fasta (map (fun piece => piece ++ [NL]) [pystr "TT"; pystr "GG"]) = Ok [].
Proof.
  apply (load_fasta_leading_lines 70 4 [pystr "TT"; pystr "GG"] (pystr "b", pystr "ACGTAC") []);
    [ reflexivity | repeat constructor | repeat constructor ].
Defined.

(** ** The default in the help of an option *)

Lemma contains_app_r (sub x y : list ascii) :
  contains sub y = true -> contains sub (x ++ y) = true.
Proof.
  intros Hy. induction x as [ | c x IH ]; [ exact Hy | ].
  cbn [app contains]. rewrite IH. apply orb_true_r.
Qed.

Lemma contains_prefix (sub y : list ascii) : contains sub (sub ++ y) = true.
Proof.
  assert (Hs : startswith sub (sub ++ y) = true).
  { induction sub as [ | c sub IH ]; [ reflexivity | ].
    cbn [app startswith]. now rewrite Ascii.eqb_refl, IH. }
  destruct (sub ++ y); cbn [contains]; now rewrite Hs.
Qed.

(** What [_get_help_string] returns is never given a second default:
    asked again with the help it returned, it returns that help. *)
Theorem get_help_string_once (action : Action.t) :
  _get_help_string
    {| Action.help := _get_help_string action; Action.default := Action.default action |}
  = _get_help_string action.
Proof.
  unfold _get_help_string. cbn [Action.help Action.default].
  destruct (not_suppress (Action.default action)); cbn [andb]; [ | reflexivity ].
  destruct (contains (pystr "default") (lower (Action.help action))) eqn:Hc;
    cbn [negb andb]; [ now rewrite Hc | ].
  destruct (is_not_None (Action.default action)); cbn [andb];
    [ | now rewrite Hc ].
  assert (Hd : contains (pystr "default")
                 (lower (Action.help action ++ pystr " (default: "
                         ++ py_str (Action.default action) ++ pystr ")")) = true).
  { unfold lower. rewrite map_app. apply contains_app_r.
    rewrite map_app. change (map lower_char (pystr " (default: "))
      with (pystr " (" ++ pystr "default" ++ pystr ": ").
    rewrite <- !app_assoc. apply contains_app_r. apply contains_prefix. }
  now rewrite Hd.
Qed.
